(** * Harmony staged stream sync: request manager, sync engine, Bodies and
      Finish stages.

    A shallow embedding of
      - p2p/stream/common/requestmanager/requestmanager.go
      - api/service/stagedstreamsync/staged_stream_sync.go
      - the Bodies stage of package stagedstreamsync (StageBodies)
      - api/service/stagedsync/stage_finish.go
    with the properties of the design document stated over it. *)

From Stdlib Require Import ZArith Lia.
From stdpp Require Import base option gmap sets list strings.

(* ===================================================================== *)
(** * The stream request manager (requestmanager.go)                      *)
(* ===================================================================== *)

Module RequestManager.

(** Go pointers [*request] and [*stream] are addresses into two heaps, so
    that the two-way link request <-> stream and the aliasing between the
    [streams] map, the [pendings] map and the objects' own fields are kept
    as the code has them. *)
Abbreviation StreamID := string (only parsing).
Abbreviation ProtoSpec := string (only parsing).
Abbreviation reqPtr := nat (only parsing).
Abbreviation stPtr := nat (only parsing).

(** sttypes.Request: the user's payload; it carries the request id that
    [SetReqID] writes and [ReqID] reads. *)
Record RawRequest := mkRaw {
  raw_reqID : Z;
  raw_name : string;
  raw_supported : ProtoSpec -> bool      (* IsSupportedByProto *)
}.

(** sttypes.Response *)
Record Response := mkResponse {
  resp_reqID : Z;
  resp_body : string
}.

Record responseData := mkResponseData {
  resp : option Response;
  stID : StreamID;
  err : option string
}.

(** What the loop reads from [deliveryC]: [DeliverResponse] always builds it
    from a live response and leaves [err] unset. *)
Record deliveryData := mkDelivery {
  d_resp : Response;
  d_stID : StreamID;
  d_err : option string
}.

Definition toResponseData (d : deliveryData) : responseData :=
  mkResponseData (Some (d_resp d)) (d_stID d) (d_err d).

Record request := mkRequest {
  raw : RawRequest;
  owner : option stPtr;
  respC : list responseData;       (* what was sent on the response channel *)
  atmDone : bool;
  whitelist : option (list StreamID)
}.

Record stream := mkStream {
  st_id : StreamID;
  st_spec : ProtoSpec;
  st_req : option reqPtr
}.

Inductive reqPriority := reqPriorityLow | reqPriorityHigh.

(** Modelled from the spec: the type [requestQueues], declared in the
    package's types.go.  "two FIFO queues, high and low priority.  Bounded;
    on overflow, push returns QueueFull." *)
Record requestQueues := mkQueues {
  q_high : list reqPtr;
  q_low : list reqPtr;
  q_cap : nat
}.

Definition newRequestQueues (cap : nat) : requestQueues := mkQueues [] [] cap.

(** Modelled from the spec: [requestQueues.Push]. *)
Definition Push (rp : reqPtr) (p : reqPriority) (q : requestQueues)
  : option string * requestQueues :=
  match p with
  | reqPriorityHigh =>
      if (length (q_high q) <? q_cap q)%nat
      then (None, mkQueues (q_high q ++ [rp]) (q_low q) (q_cap q))
      else (Some "QueueFull", q)
  | reqPriorityLow =>
      if (length (q_low q) <? q_cap q)%nat
      then (None, mkQueues (q_high q) (q_low q ++ [rp]) (q_cap q))
      else (Some "QueueFull", q)
  end.

(** Modelled from the spec: [requestQueues.Pop], "the highest-priority
    waiting request". *)
Definition Pop (q : requestQueues) : option reqPtr * requestQueues :=
  match q_high q with
  | rp :: h => (Some rp, mkQueues h (q_low q) (q_cap q))
  | [] => match q_low q with
          | rp :: l => (Some rp, mkQueues [] l (q_cap q))
          | [] => (None, q)
          end
  end.

(** Modelled from the spec: [requestQueues.Remove], "removes the request
    from the waiting queue (if still there)". *)
Definition Remove (rp : reqPtr) (q : requestQueues) : requestQueues :=
  mkQueues (filter (λ x, x ≠ rp) (q_high q))
           (filter (λ x, x ≠ rp) (q_low q)) (q_cap q).

Record requestManager := mkRM {
  heap_req : gmap nat request;      (* the request objects *)
  heap_st : gmap nat stream;        (* the stream objects *)
  streams : gmap string nat;        (* SafeMap[StreamID, *stream] *)
  available : gset string;          (* SafeMap[StreamID, struct{}] *)
  pendings : gmap Z nat;            (* SafeMap[uint64, *request] *)
  waitings : requestQueues;
  rng : list Z                      (* what sttypes.GenReqID will return next *)
}.

Definition newRequestManager (cap : nat) (ids : list Z) : requestManager :=
  mkRM ∅ ∅ ∅ ∅ ∅ (newRequestQueues cap) ids.

(** Field updates. *)
Definition set_heap_req (h : gmap nat request) (rm : requestManager) :=
  mkRM h (heap_st rm) (streams rm) (available rm) (pendings rm) (waitings rm) (rng rm).
Definition set_heap_st (h : gmap nat stream) (rm : requestManager) :=
  mkRM (heap_req rm) h (streams rm) (available rm) (pendings rm) (waitings rm) (rng rm).
Definition set_streams (m : gmap string nat) (rm : requestManager) :=
  mkRM (heap_req rm) (heap_st rm) m (available rm) (pendings rm) (waitings rm) (rng rm).
Definition set_available (a : gset string) (rm : requestManager) :=
  mkRM (heap_req rm) (heap_st rm) (streams rm) a (pendings rm) (waitings rm) (rng rm).
Definition set_pendings (p : gmap Z nat) (rm : requestManager) :=
  mkRM (heap_req rm) (heap_st rm) (streams rm) (available rm) p (waitings rm) (rng rm).
Definition set_waitings (w : requestQueues) (rm : requestManager) :=
  mkRM (heap_req rm) (heap_st rm) (streams rm) (available rm) (pendings rm) w (rng rm).
Definition set_rng (r : list Z) (rm : requestManager) :=
  mkRM (heap_req rm) (heap_st rm) (streams rm) (available rm) (pendings rm) (waitings rm) r.

(** [req.ReqID()] through a pointer; a pointer is never dangling in Go, the
    default only makes the function total. *)
Definition ReqID (rm : requestManager) (rp : reqPtr) : Z :=
  match heap_req rm !! rp with
  | Some r => raw_reqID (raw r)
  | None => 0%Z
  end.

Definition SetReqID (rp : reqPtr) (id : Z) (rm : requestManager) : requestManager :=
  match heap_req rm !! rp with
  | Some r =>
      set_heap_req
        (<[rp := mkRequest (mkRaw id (raw_name (raw r)) (raw_supported (raw r)))
                           (owner r) (respC r) (atmDone r) (whitelist r)]>
           (heap_req rm)) rm
  | None => rm
  end.

Definition set_owner (rp : reqPtr) (o : option stPtr) (rm : requestManager) : requestManager :=
  match heap_req rm !! rp with
  | Some r =>
      set_heap_req
        (<[rp := mkRequest (raw r) o (respC r) (atmDone r) (whitelist r)]> (heap_req rm)) rm
  | None => rm
  end.

Definition set_st_req (sp : stPtr) (o : option reqPtr) (rm : requestManager) : requestManager :=
  match heap_st rm !! sp with
  | Some st => set_heap_st (<[sp := mkStream (st_id st) (st_spec st) o]> (heap_st rm)) rm
  | None => rm
  end.

(** Modelled from the spec: [request.doneWithResponse] (types.go): "a one-shot
    response channel, a done flag" -- the first call sends the response and
    sets the flag, later calls do nothing. *)
Definition doneWithResponse (rp : reqPtr) (d : responseData) (rm : requestManager)
  : requestManager :=
  match heap_req rm !! rp with
  | Some r =>
      if atmDone r then rm
      else set_heap_req
             (<[rp := mkRequest (raw r) (owner r) (respC r ++ [d]) true (whitelist r)]>
                (heap_req rm)) rm
  | None => rm
  end.

(** Modelled from the spec: [request.isDone] (types.go), the done flag. *)
Definition isDone (rm : requestManager) (rp : reqPtr) : bool :=
  match heap_req rm !! rp with
  | Some r => atmDone r
  | None => false
  end.

(** Modelled from the spec: [request.isStreamAllowed] (types.go), "an optional
    allow-list of stream ids". *)
Definition isStreamAllowed (rm : requestManager) (rp : reqPtr) (id : StreamID) : bool :=
  match heap_req rm !! rp with
  | Some r => match whitelist r with
              | None => true
              | Some wl => bool_decide (id ∈ wl)
              end
  | None => true
  end.

(** Modelled from the spec: [stream.clearPendingRequest] (types.go): "clear
    the stream's request pointer"; it returns the request that was there
    ([removeStream] tests the result against nil). *)
Definition clearPendingRequest (sp : stPtr) (rm : requestManager)
  : option reqPtr * requestManager :=
  match heap_st rm !! sp with
  | Some st =>
      match st_req st with
      | None => (None, rm)
      | Some rp => (Some rp, set_st_req sp None rm)
      end
  | None => (None, rm)
  end.

(** [st.ID()] through a pointer. *)
Definition stream_ID (rm : requestManager) (sp : stPtr) : StreamID :=
  match heap_st rm !! sp with
  | Some st => st_id st
  | None => ""
  end.

(** ** genReqID *)

(** The loop of [genReqID] over the ids the generator yields.  [None]: the
    given run of ids is used up and every one of them collided, so the loop
    is still drawing. *)
Fixpoint genReqID_from (pend : gmap Z nat) (ids : list Z) : option (Z * list Z) :=
  match ids with
  | [] => None
  | rid :: rest =>
      match pend !! rid with
      | None => Some (rid, rest)
      | Some _ => genReqID_from pend rest
      end
  end.

Definition genReqID (rm : requestManager) : option (Z * requestManager) :=
  match genReqID_from (pendings rm) (rng rm) with
  | Some (rid, rest) => Some (rid, set_rng rest rm)
  | None => None
  end.

(** ** addPendingRequest / removePendingRequest *)

Definition addPendingRequest (rp : reqPtr) (sp : stPtr) (rm : requestManager)
  : option requestManager :=
  match genReqID rm with
  | None => None
  | Some (reqID, rm) =>
      let rm := SetReqID rp reqID rm in
      let rm := set_owner rp (Some sp) rm in
      let rm := set_st_req sp (Some rp) rm in
      let rm := set_available (available rm ∖ {[stream_ID rm sp]}) rm in
      Some (set_pendings (<[ReqID rm rp := rp]> (pendings rm)) rm)
  end.

Definition req_owner (rm : requestManager) (rp : reqPtr) : option stPtr :=
  match heap_req rm !! rp with
  | Some r => owner r
  | None => None
  end.

Definition removePendingRequest (rp : reqPtr) (rm : requestManager) : requestManager :=
  match pendings rm !! ReqID rm rp with
  | None => rm
  | Some _ =>
      let rm := set_pendings (delete (ReqID rm rp) (pendings rm)) rm in
      match req_owner rm rp with
      | Some sp =>
          let rm := snd (clearPendingRequest sp rm) in
          set_available ({[stream_ID rm sp]} ∪ available rm) rm
      | None => rm
      end
  end.

(** ** Delivery *)

(** [validateDelivery]: [None] is Go's nil error. *)
Definition validateDelivery (rm : requestManager) (data : deliveryData) : option string :=
  match d_err data with
  | Some e => Some e
  | None =>
      match streams rm !! d_stID data with
      | None => Some "data delivered from dead stream"
      | Some sp =>
          match pendings rm !! resp_reqID (d_resp data) with
          | None => Some "stale p2p response delivery"
          | Some rp =>
              match req_owner rm rp with
              | None => Some "unexpected delivery stream"
              | Some op =>
                  if bool_decide (stream_ID rm op ≠ d_stID data)
                  then Some "unexpected delivery stream"
                  else
                    match heap_st rm !! sp ≫= st_req with
                    | None => Some "unexpected deliver request"
                    | Some srp =>
                        if bool_decide (ReqID rm srp ≠ resp_reqID (d_resp data))
                        then Some "unexpected deliver request"
                        else None
                    end
              end
          end
      end
  end.

Definition handleDeliverData (data : deliveryData) (rm : requestManager) : requestManager :=
  match validateDelivery rm data with
  | Some _ => rm
  | None =>
      match pendings rm !! resp_reqID (d_resp data) with
      | Some rp =>
          let rm := doneWithResponse rp (toResponseData data) rm in
          removePendingRequest rp rm
      | None => rm  (* excluded by validateDelivery *)
      end
  end.

(** [DeliverResponse] hands [(stID, resp)] to the loop through [deliveryC];
    the loop then runs [handleDeliverData] on it. *)
Definition DeliverResponse (st : StreamID) (r : Response) (rm : requestManager)
  : requestManager :=
  handleDeliverData (mkDelivery r st None) rm.

(** ** Cancellation *)

Definition handleCancelRequest (rp : reqPtr) (e : string) (rm : requestManager)
  : requestManager :=
  let rm := set_waitings (Remove rp (waitings rm)) rm in
  let rm := removePendingRequest rp rm in
  let stid := match req_owner rm rp with
              | Some sp => stream_ID rm sp
              | None => ""
              end in
  doneWithResponse rp (mkResponseData None stid (Some e)) rm.

(** ** Scheduling of waiting requests *)

(** The [for] loop of [getNextRequest]: pop until a request that is not done
    comes out or the queues are empty.  [fuel] bounds the pops by the
    number of queued requests. *)
Fixpoint popNotDone (fuel : nat) (rm : requestManager) : option reqPtr * requestManager :=
  match fuel with
  | O => (None, rm)
  | S fuel =>
      match Pop (waitings rm) with
      | (None, _) => (None, rm)
      | (Some rp, q) =>
          let rm := set_waitings q rm in
          if isDone rm rp then popNotDone fuel rm else (Some rp, rm)
      end
  end.

(** The [range] loop of [pickAvailableStream] over the keys of [available]. *)
Fixpoint pickFrom (rm : requestManager) (rp : reqPtr) (ids : list StreamID) : option stPtr :=
  match ids with
  | [] => None
  | id :: ids =>
      if negb (isStreamAllowed rm rp id) then pickFrom rm rp ids
      else match streams rm !! id with
           | None => pickFrom rm rp ids
           | Some sp =>
               match heap_st rm !! sp with
               | None => pickFrom rm rp ids
               | Some st =>
                   match st_req st with
                   | Some _ => pickFrom rm rp ids
                   | None =>
                       match heap_req rm !! rp with
                       | Some r =>
                           if raw_supported (raw r) (st_spec st) then Some sp
                           else pickFrom rm rp ids
                       | None => pickFrom rm rp ids
                       end
                   end
               end
           end
  end.

(** Go iterates a map in an unspecified order; the model takes the order of
    [elements]. *)
Definition pickAvailableStream (rm : requestManager) (rp : reqPtr) : option stPtr :=
  pickFrom rm rp (elements (available rm)).

Definition addRequestToWaitings (rp : reqPtr) (p : reqPriority) (rm : requestManager)
  : option string * requestManager :=
  let '(e, q) := Push rp p (waitings rm) in (e, set_waitings q rm).

Definition getNextRequest (rm : requestManager)
  : option (reqPtr * stPtr) * requestManager :=
  match popNotDone (S (length (q_high (waitings rm)) + length (q_low (waitings rm)))) rm with
  | (None, rm) => (None, rm)
  | (Some rp, rm) =>
      match pickAvailableStream rm rp with
      | None => (None, snd (addRequestToWaitings rp reqPriorityHigh rm))
      | Some sp => (Some (rp, sp), rm)
      end
  end.

(** The throttle case of [loop]: up to [throttleBatch] assignments.  The
    write to the stream happens in a goroutine of its own and is not part of
    the loop's state change. *)
Fixpoint throttle (throttleBatch : nat) (rm : requestManager) : option requestManager :=
  match throttleBatch with
  | O => Some rm
  | S n =>
      match getNextRequest rm with
      | (None, rm) => Some rm
      | (Some (rp, sp), rm) =>
          match addPendingRequest rp sp rm with
          | None => None
          | Some rm => throttle n rm
          end
      end
  end.

(** [doRequestAsync] allocates the request; [handleNewRequest] queues it. *)
Definition alloc_req (r : request) (rm : requestManager) : reqPtr * requestManager :=
  let p := fresh (dom (heap_req rm)) in
  (p, set_heap_req (<[p := r]> (heap_req rm)) rm).

Definition handleNewRequest (rp : reqPtr) (rm : requestManager) : bool * requestManager :=
  match addRequestToWaitings rp reqPriorityLow rm with
  | (Some e, rm) =>
      (false, doneWithResponse rp
                (mkResponseData None "" (Some ("failed to add new request to waitings: " +:+ e))) rm)
  | (None, rm) => (true, rm)
  end.

(** ** Stream churn *)

Definition addNewStream (id : StreamID) (spec : ProtoSpec) (rm : requestManager)
  : requestManager :=
  let p := fresh (dom (heap_st rm)) in
  let rm := set_heap_st (<[p := mkStream id spec None]> (heap_st rm)) rm in
  let rm := set_streams (<[id := p]> (streams rm)) rm in
  set_available ({[id]} ∪ available rm) rm.

Definition removeStream (sp : stPtr) (rm : requestManager) : requestManager :=
  let id := stream_ID rm sp in
  let rm := set_available (available rm ∖ {[id]}) rm in
  let rm := set_streams (delete id (streams rm)) rm in
  match clearPendingRequest sp rm with
  | (Some cleared, rm) =>
      doneWithResponse cleared
        (mkResponseData None id (Some "stream removed when doing request")) rm
  | (None, rm) => rm
  end.

(** [checkStreamUpdates]: the targets that are not known yet, and the known
    streams that are no longer among the targets. *)
Definition checkStreamUpdates (exists_ : gmap string nat) (targets : list (StreamID * ProtoSpec))
  : list (StreamID * ProtoSpec) * list stPtr :=
  let added := filter (λ t, exists_ !! t.1 = None) targets in
  let removed := (map_to_list (filter (λ kv, kv.1 ∉ targets.*1) exists_)).*2 in
  (added, removed).

Definition refreshStreams (targets : list (StreamID * ProtoSpec)) (rm : requestManager)
  : requestManager :=
  let '(added, removed) := checkStreamUpdates (streams rm) targets in
  let rm := foldl (λ rm t, addNewStream t.1 t.2 rm) rm added in
  foldl (λ rm sp, removeStream sp rm) rm removed.

(** ** The event loop *)

Inductive event :=
| EvThrottle
| EvNewRequest (r : RawRequest) (wl : option (list StreamID))
| EvDelivery (d : deliveryData)
| EvCancel (rp : reqPtr) (e : string)
| EvStreams (targets : list (StreamID * ProtoSpec)).

(** One turn of the [select] in [loop]; [None] when [genReqID] does not come
    back within the ids at hand. *)
Definition step (throttleBatch : nat) (ev : event) (rm : requestManager)
  : option requestManager :=
  match ev with
  | EvThrottle => throttle throttleBatch rm
  | EvNewRequest r wl =>
      let '(rp, rm) := alloc_req (mkRequest r None [] false wl) rm in
      Some (snd (handleNewRequest rp rm))
  | EvDelivery d => Some (handleDeliverData d rm)
  | EvCancel rp e => Some (handleCancelRequest rp e rm)
  | EvStreams targets => Some (refreshStreams targets rm)
  end.

Fixpoint run (throttleBatch : nat) (evs : list event) (rm : requestManager)
  : option requestManager :=
  match evs with
  | [] => Some rm
  | ev :: evs =>
      match step throttleBatch ev rm with
      | None => None
      | Some rm => run throttleBatch evs rm
      end
  end.

(** The states the loop can be in. *)
Inductive reachable (throttleBatch cap : nat) : requestManager -> Prop :=
| reach_init ids : reachable throttleBatch cap (newRequestManager cap ids)
| reach_step ev rm rm' :
    reachable throttleBatch cap rm ->
    step throttleBatch ev rm = Some rm' ->
    reachable throttleBatch cap rm'.

(** ** The pendings contract *)

Definition in_pendings (rm : requestManager) (rp : reqPtr) : Prop :=
  ∃ id, pendings rm !! id = Some rp.

(** "its owner is non-nil and that owner's request pointer points back to
    this same request" *)
Definition owner_points_back (rm : requestManager) (rp : reqPtr) : Prop :=
  ∃ sp st, req_owner rm rp = Some sp ∧ heap_st rm !! sp = Some st ∧ st_req st = Some rp.

Definition pendings_invariant (rm : requestManager) : Prop :=
  ∀ rp, in_pendings rm rp ↔ owner_points_back rm rp.

(** ** close *)

(** [close]: every pending request is answered with [ErrClosed], then the
    three maps and the waiting queues are replaced by empty ones.  The
    subscriptions and the stop channel are outside the model; [ErrClosed]
    is declared outside this file and taken as a parameter. *)
Definition close (ErrClosed : string) (rm : requestManager) : requestManager :=
  let rm := foldl (fun rm (kv : Z * nat) =>
                     doneWithResponse kv.2 (mkResponseData None "" (Some ErrClosed)) rm)
                  rm (map_to_list (pendings rm)) in
  mkRM (heap_req rm) (heap_st rm) ∅ ∅ ∅ (newRequestQueues (q_cap (waitings rm))) (rng rm).


End RequestManager.

(* ===================================================================== *)
(** * The staged sync engine (staged_stream_sync.go)                      *)
(* ===================================================================== *)

Module Engine.

Abbreviation SyncStageID := string (only parsing).
(** common.Hash, 32 bytes read as one number; [common.Hash{}] is 0. *)
Abbreviation Hash := Z (only parsing).

Inductive error :=
| ErrStageNotFound
| ErrMsg (msg : string)
(** fmt.Errorf("[%s] %w", s.LogPrefix(), err): the prefix is that of the
    stage at the given position. *)
| ErrInStage (pos : nat) (e : error).

(** What makes a Go function panic here. *)
Inductive panic :=
| IndexOutOfRange (i : nat)
| NilDereference
| PanicError (e : error).

(** The result of running a piece of the engine: a value, a panic, or the
    model's fuel ran out before the loop ended. *)
Inductive res (A : Type) :=
| Val (a : A)
| Panic (p : panic)
| OutOfFuel.
Arguments Val {A} a.
Arguments Panic {A} p.
Arguments OutOfFuel {A}.

Record StageState := mkStageState {
  ss_ID : SyncStageID;
  ss_BlockNumber : Z
}.

Record RevertState := mkRevertState {
  rs_ID : SyncStageID;
  rs_RevertPoint : Z;
  rs_CurrentProgress : Z;
  rs_InvalidBlock : Hash
}.

Record CleanUpState := mkCleanUpState {
  cs_ID : SyncStageID;
  cs_ForwardProgress : Z;
  cs_CleanUpProgress : Z
}.

Record Timing := mkTiming {
  isRevert : bool;
  isCleanUp : bool;
  stage : SyncStageID;
  took : Z                      (* nanoseconds *)
}.

(** The calls the engine makes into the stage handlers, in order. *)
Inductive call :=
| CallExec (id : SyncStageID) (firstCycle invalidBlockRevert : bool) (s : StageState)
| CallRevert (id : SyncStageID) (firstCycle : bool) (u : RevertState) (s : StageState)
| CallCleanUp (id : SyncStageID) (firstCycle : bool) (p : CleanUpState).

Section WithWorld.

(** Everything outside the engine: the database behind [db] and [tx], the
    chain, the clock. *)
Variable World : Type.

(** GetStageProgress / GetStageCleanUpProgress (stage and beacon flag) as
    seen through [CreateView]; [tx.BucketSize]; the list [Buckets]; the time
    a handler took. *)
Variable GetStageProgress : World -> SyncStageID -> bool -> error + Z.
Variable GetStageCleanUpProgress : World -> SyncStageID -> bool -> error + Z.
Variable BucketSize : World -> string -> error + Z.
Variable Buckets : list string.
Variable since : World -> Z.

(** A forward handler is handed the engine as a [Reverter]: besides its
    effect on the world and its error it may have called [RevertTo]. *)
Record ExecResult := mkExecResult {
  ex_world : World;
  ex_err : option error;
  ex_revertTo : option (Z * Hash)
}.

Record StageHandler := mkHandler {
  Exec : bool -> bool -> StageState -> World -> ExecResult;
  Revert : bool -> RevertState -> StageState -> World -> World * option error;
  CleanUp : bool -> CleanUpState -> World -> World * option error
}.

Record Stage := mkStage {
  ID : SyncStageID;
  Handler : StageHandler;
  Disabled : bool
}.

Record StagedStreamSync := mkSync {
  isBeacon : bool;
  revertPoint : option Z;
  prevRevertPoint : option Z;
  invalidBlock : Hash;
  currentStage : nat;
  stages : list Stage;
  revertOrder : list (option Stage);     (* a nil entry is [None] *)
  pruningOrder : list (option Stage);
  timings : list Timing
}.

(** The engine, the world around it, and the handler calls made so far. *)
Record state := mkState {
  eng : StagedStreamSync;
  world : World;
  calls : list call
}.

Definition M (A : Type) : Type := state -> res A * state.

Definition ret {A} (a : A) : M A := fun st => (Val a, st).
Definition raise {A} (p : panic) : M A := fun st => (Panic p, st).
Definition bind {A B} (m : M A) (k : A -> M B) : M B :=
  fun st => match m st with
            | (Val a, st') => k a st'
            | (Panic p, st') => (Panic p, st')
            | (OutOfFuel, st') => (OutOfFuel, st')
            end.

Notation "x <- m ;; k" := (bind m (fun x => k))
  (at level 100, m at next level, right associativity).

Definition get_eng : M StagedStreamSync := fun st => (Val (eng st), st).
Definition get_world : M World := fun st => (Val (world st), st).
Definition modify_eng (f : StagedStreamSync -> StagedStreamSync) : M unit :=
  fun st => (Val tt, mkState (f (eng st)) (world st) (calls st)).
Definition put_world (w : World) : M unit :=
  fun st => (Val tt, mkState (eng st) w (calls st)).
Definition log_call (c : call) : M unit :=
  fun st => (Val tt, mkState (eng st) (world st) (calls st ++ [c])).

Definition set_revertPoint (v : option Z) (s : StagedStreamSync) :=
  mkSync (isBeacon s) v (prevRevertPoint s) (invalidBlock s) (currentStage s)
         (stages s) (revertOrder s) (pruningOrder s) (timings s).
Definition set_prevRevertPoint (v : option Z) (s : StagedStreamSync) :=
  mkSync (isBeacon s) (revertPoint s) v (invalidBlock s) (currentStage s)
         (stages s) (revertOrder s) (pruningOrder s) (timings s).
Definition set_invalidBlock (v : Hash) (s : StagedStreamSync) :=
  mkSync (isBeacon s) (revertPoint s) (prevRevertPoint s) v (currentStage s)
         (stages s) (revertOrder s) (pruningOrder s) (timings s).
Definition set_currentStage (v : nat) (s : StagedStreamSync) :=
  mkSync (isBeacon s) (revertPoint s) (prevRevertPoint s) (invalidBlock s) v
         (stages s) (revertOrder s) (pruningOrder s) (timings s).
Definition set_timings (v : list Timing) (s : StagedStreamSync) :=
  mkSync (isBeacon s) (revertPoint s) (prevRevertPoint s) (invalidBlock s) (currentStage s)
         (stages s) (revertOrder s) (pruningOrder s) v.

Definition NextStage (s : StagedStreamSync) : StagedStreamSync :=
  set_currentStage (S (currentStage s)) s.

Definition RevertTo (revertPoint : Z) (invalidBlock : Hash) (s : StagedStreamSync) :=
  set_invalidBlock invalidBlock (set_revertPoint (Some revertPoint) s).

Definition Done (s : StagedStreamSync) : StagedStreamSync :=
  set_revertPoint None (set_currentStage (length (stages s)) s).

Definition IsDone (s : StagedStreamSync) : bool :=
  (length (stages s) <=? currentStage s)%nat && bool_decide (revertPoint s = None).

(** The position of the first stage with the given id, as the [range]
    loop of [SetCurrentStage] finds it. *)
Fixpoint stage_index (id : SyncStageID) (l : list Stage) (i : nat) : option nat :=
  match l with
  | [] => None
  | st :: l => if String.eqb (ID st) id then Some i else stage_index id l (S i)
  end.

Definition SetCurrentStage (id : SyncStageID) : M (option error) :=
  s <- get_eng ;;
  match stage_index id (stages s) 0 with
  | Some i => _ <- modify_eng (set_currentStage i) ;; ret None
  | None => ret (Some ErrStageNotFound)
  end.

(** [StageState]: [inl] is the error branch. *)
Definition stageState (id : SyncStageID) : M (error + StageState) :=
  s <- get_eng ;;
  w <- get_world ;;
  match GetStageProgress w id (isBeacon s) with
  | inl e => ret (inl e)
  | inr blockNum => ret (inr (mkStageState id blockNum))
  end.

Definition CleanUpStageState (id : SyncStageID) (forwardProgress : Z)
  : M (error + CleanUpState) :=
  s <- get_eng ;;
  w <- get_world ;;
  match GetStageCleanUpProgress w id (isBeacon s) with
  | inl e => ret (inl e)
  | inr pruneProgress => ret (inr (mkCleanUpState id forwardProgress pruneProgress))
  end.

Definition append_timing (t : Timing) : M unit :=
  modify_eng (fun s => set_timings (timings s ++ [t]) s).

Definition LogPrefix : M nat :=
  s <- get_eng ;;
  if (currentStage s <? length (stages s))%nat then ret (currentStage s)
  else raise (IndexOutOfRange (currentStage s)).

Definition runStage (stage : Stage) (firstCycle invalidBlockRevert : bool)
  : M (option error) :=
  ss <- stageState (ID stage) ;;
  match ss with
  | inl e => ret (Some e)
  | inr stageState =>
      w <- get_world ;;
      _ <- log_call (CallExec (ID stage) firstCycle invalidBlockRevert stageState) ;;
      let r := Exec (Handler stage) firstCycle invalidBlockRevert stageState w in
      _ <- put_world (ex_world r) ;;
      _ <- match ex_revertTo r with
           | Some (p, h) => modify_eng (RevertTo p h)
           | None => ret tt
           end ;;
      match ex_err r with
      | Some e => pos <- LogPrefix ;; ret (Some (ErrInStage pos e))
      | None =>
          w <- get_world ;;
          _ <- append_timing (mkTiming false false (ID stage) (since w)) ;;
          ret None
      end
  end.

Definition revertStage (firstCycle : bool) (stage : Stage) : M (option error) :=
  ss <- stageState (ID stage) ;;
  match ss with
  | inl e => ret (Some e)
  | inr stageState =>
      s <- get_eng ;;
      match revertPoint s with
      | None => raise NilDereference
      | Some rp =>
          let revert :=
            mkRevertState (ID stage) rp (ss_BlockNumber stageState) (invalidBlock s) in
          if (ss_BlockNumber stageState <=? rs_RevertPoint revert)%Z then ret None
          else
            e <- SetCurrentStage (ID stage) ;;
            match e with
            | Some e => ret (Some e)
            | None =>
                w <- get_world ;;
                _ <- log_call (CallRevert (ID stage) firstCycle revert stageState) ;;
                let '(w', e) := Revert (Handler stage) firstCycle revert stageState w in
                _ <- put_world w' ;;
                match e with
                | Some e => pos <- LogPrefix ;; ret (Some (ErrInStage pos e))
                | None =>
                    _ <- append_timing (mkTiming true false (ID stage) (since w')) ;;
                    ret None
                end
            end
      end
  end.

Definition pruneStage (firstCycle : bool) (stage : Stage) : M (option error) :=
  ss <- stageState (ID stage) ;;
  match ss with
  | inl e => ret (Some e)
  | inr stageState =>
      ps <- CleanUpStageState (ID stage) (ss_BlockNumber stageState) ;;
      match ps with
      | inl e => ret (Some e)
      | inr prune =>
          e <- SetCurrentStage (ID stage) ;;
          match e with
          | Some e => ret (Some e)
          | None =>
              w <- get_world ;;
              _ <- log_call (CallCleanUp (ID stage) firstCycle prune) ;;
              let '(w', e) := CleanUp (Handler stage) firstCycle prune w in
              _ <- put_world w' ;;
              match e with
              | Some e => pos <- LogPrefix ;; ret (Some (ErrInStage pos e))
              | None =>
                  _ <- append_timing (mkTiming false true (ID stage) (since w')) ;;
                  ret None
              end
          end
      end
  end.

(** The [for] loop of [cleanUp].  The comparison reads
    [s.pruningOrder[i].ID] before it tests the entry against nil. *)
Fixpoint cleanUp_loop (fromStage : nat) (firstCycle found : bool)
    (l : list (option Stage)) : M unit :=
  match l with
  | [] => ret tt
  | None :: _ => raise NilDereference
  | Some p :: l =>
      s <- get_eng ;;
      match stages s !! fromStage with
      | None => raise (IndexOutOfRange fromStage)
      | Some from =>
          let found := found || String.eqb (ID p) (ID from) in
          if negb found || Disabled p then cleanUp_loop fromStage firstCycle found l
          else
            e <- pruneStage firstCycle p ;;
            match e with
            | Some e => raise (PanicError e)
            | None => cleanUp_loop fromStage firstCycle found l
            end
      end
  end.

Definition cleanUp (fromStage : nat) (firstCycle : bool) : M (option error) :=
  s <- get_eng ;;
  _ <- cleanUp_loop fromStage firstCycle false (pruningOrder s) ;;
  ret None.

(** [printLogs]: the timings of 50ms and more, at most 49 of them. *)
Fixpoint logCtx (ts : list Timing) (count : nat) : list (string * Z) :=
  match ts with
  | [] => []
  | t :: ts =>
      if (took t <? 50000000)%Z then logCtx ts count
      else
        let count := S count in
        if Nat.eqb count 50 then []
        else
          let label := if isRevert t then "Revert " +:+ stage t
                       else if isCleanUp t then "CleanUp " +:+ stage t
                       else stage t in
          (label, took t) :: logCtx ts count
  end.

Fixpoint bucketSizes (w : World) (buckets : list string) : option error :=
  match buckets with
  | [] => None
  | b :: buckets =>
      match BucketSize w b with
      | inl e => Some e
      | inr _ => bucketSizes w buckets
      end
  end.

(** [tx] is [true] when the caller passed a transaction. *)
Definition printLogs (tx : bool) (ts : list Timing) : M (option error) :=
  w <- get_world ;;
  if negb tx then ret None
  else
    match logCtx ts 0 with
    | [] => ret None
    | _ :: _ => ret (bucketSizes w Buckets)
    end.

(** The revert pass: the loop over [revertOrder]. *)
Fixpoint revertPass (firstCycle : bool) (l : list (option Stage)) : M (option error) :=
  match l with
  | [] => ret None
  | None :: l => revertPass firstCycle l
  | Some st :: l =>
      if Disabled st then revertPass firstCycle l
      else
        e <- revertStage firstCycle st ;;
        match e with
        | Some e => ret (Some e)
        | None => revertPass firstCycle l
        end
  end.

(** The block [if s.revertPoint != nil { ... }] of [Run].  [inl e]: [Run]
    returns [e]; [inr (firstCycle, invalidBlockRevert)]: the two locals as
    the rest of the loop body sees them. *)
Definition revertSection (firstCycle : bool) : M (error + bool * bool) :=
  s <- get_eng ;;
  match revertPoint s with
  | None => ret (inr (firstCycle, false))
  | Some _ =>
      e <- revertPass firstCycle (revertOrder s) ;;
      match e with
      | Some e => ret (inl e)
      | None =>
          _ <- modify_eng (fun s => set_prevRevertPoint (revertPoint s) s) ;;
          _ <- modify_eng (set_revertPoint None) ;;
          s <- get_eng ;;
          let invalidBlockRevert := bool_decide (invalidBlock s ≠ 0%Z) in
          _ <- modify_eng (set_invalidBlock 0%Z) ;;
          match stages s !! 0%nat with
          | None => raise (IndexOutOfRange 0)
          | Some first =>
              e <- SetCurrentStage (ID first) ;;
              match e with
              | Some e => ret (inl e)
              | None => ret (inr (false, invalidBlockRevert))
              end
          end
      end
  end.

(** The rest of the loop body: the current stage is run or, when disabled,
    skipped.  [Some e]: [Run] returns [e]. *)
Definition forwardSection (firstCycle invalidBlockRevert : bool) : M (option error) :=
  s <- get_eng ;;
  match stages s !! currentStage s with
  | None => raise (IndexOutOfRange (currentStage s))
  | Some stage =>
      if Disabled stage then _ <- modify_eng NextStage ;; ret None
      else
        e <- runStage stage firstCycle invalidBlockRevert ;;
        match e with
        | Some e => ret (Some e)
        | None => _ <- modify_eng NextStage ;; ret None
        end
  end.

(** [for !s.IsDone() { ... }].  [inl e]: [Run] returns [e] from inside the
    loop; [inr firstCycle]: the loop ended. *)
Fixpoint Run_loop (fuel : nat) (firstCycle : bool) : M (error + bool) :=
  fun st =>
    if IsDone (eng st) then (Val (inr firstCycle), st)
    else
      match fuel with
      | O => (OutOfFuel, st)
      | S fuel =>
          (r <- revertSection firstCycle ;;
           match r with
           | inl e => ret (inl e)
           | inr (firstCycle, invalidBlockRevert) =>
               e <- forwardSection firstCycle invalidBlockRevert ;;
               match e with
               | Some e => ret (inl e)
               | None => Run_loop fuel firstCycle
               end
           end) st
      end.

Definition Run (fuel : nat) (tx : bool) (firstCycle : bool) : M (option error) :=
  _ <- modify_eng (set_prevRevertPoint None) ;;
  _ <- modify_eng (set_timings []) ;;
  r <- Run_loop fuel firstCycle ;;
  match r with
  | inl e => ret (Some e)
  | inr firstCycle =>
      e <- cleanUp 0 firstCycle ;;
      match e with
      | Some e => ret (Some e)
      | None =>
          s <- get_eng ;;
          match stages s !! 0%nat with
          | None => raise (IndexOutOfRange 0)
          | Some first =>
              e <- SetCurrentStage (ID first) ;;
              match e with
              | Some e => ret (Some e)
              | None =>
                  s <- get_eng ;;
                  e <- printLogs tx (timings s) ;;
                  match e with
                  | Some e => ret (Some e)
                  | None => _ <- modify_eng (set_currentStage 0) ;; ret None
                  end
              end
          end
      end
  end.

End WithWorld.

Arguments ret {World A}.
Arguments raise {World A}.
Arguments bind {World A B}.
Arguments get_eng {World}.
Arguments get_world {World}.
Arguments modify_eng {World}.
Arguments put_world {World}.
Arguments log_call {World}.
Arguments set_revertPoint {World}.
Arguments set_prevRevertPoint {World}.
Arguments set_invalidBlock {World}.
Arguments set_currentStage {World}.
Arguments set_timings {World}.
Arguments NextStage {World}.
Arguments RevertTo {World}.
Arguments Done {World}.
Arguments IsDone {World}.
Arguments stage_index {World}.
Arguments SetCurrentStage {World}.
Arguments append_timing {World}.
Arguments LogPrefix {World}.
Arguments ex_world {World}.
Arguments ex_err {World}.
Arguments ex_revertTo {World}.
Arguments Exec {World}.
Arguments Revert {World}.
Arguments CleanUp {World}.
Arguments mkExecResult {World}.
Arguments mkHandler {World}.
Arguments mkStage {World}.
Arguments mkSync {World}.
Arguments mkState {World}.
Arguments ID {World}.
Arguments Disabled {World}.
Arguments Handler {World}.
Arguments eng {World}.
Arguments world {World}.
Arguments calls {World}.
Arguments revertPoint {World}.
Arguments prevRevertPoint {World}.
Arguments invalidBlock {World}.
Arguments currentStage {World}.
Arguments stages {World}.
Arguments revertOrder {World}.
Arguments pruningOrder {World}.
Arguments timings {World}.
Arguments isBeacon {World}.

(** ** Stage order queries, [New], and the Disabled flags *)

Section Stages.
Context {World : Type}.

(** The [range] loop shared by [IsBefore] and [IsAfter]: the positions of
    the two ids, -1 for an id that is not there; a later stage with the
    same id overwrites an earlier one. *)
Fixpoint positions (stage1 stage2 : SyncStageID) (l : list (Stage World)) (i : nat)
    (idx1 idx2 : Z) : Z * Z :=
  match l with
  | [] => (idx1, idx2)
  | st :: l =>
      let idx1 := if String.eqb (ID st) stage1 then Z.of_nat i else idx1 in
      let idx2 := if String.eqb (ID st) stage2 then Z.of_nat i else idx2 in
      positions stage1 stage2 l (S i) idx1 idx2
  end.

Definition IsBefore (s : StagedStreamSync World) (stage1 stage2 : SyncStageID) : bool :=
  let '(idx1, idx2) := positions stage1 stage2 (stages s) 0 (-1) (-1) in
  (idx1 <? idx2)%Z.

Definition IsAfter (s : StagedStreamSync World) (stage1 stage2 : SyncStageID) : bool :=
  let '(idx1, idx2) := positions stage1 stage2 (stages s) 0 (-1) (-1) in
  (idx2 <? idx1)%Z.

(** The inner loop of [New]: the first stage of [stagesList] with the id. *)
Fixpoint find_stage (id : SyncStageID) (l : list (Stage World)) : option (Stage World) :=
  match l with
  | [] => None
  | s :: l => if String.eqb (ID s) id then Some s else find_stage id l
  end.

(** The outer loop of [New] over an order, from position [i]: the write
    [revertStages[i] = s] into a slice of [len(stagesList)] entries is an
    index out of range when [i] is past its end. *)
Fixpoint orderStages_loop (order : list SyncStageID) (i : nat) (stagesList : list (Stage World))
    (acc : list (option (Stage World))) : res (list (option (Stage World))) :=
  match order with
  | [] => Val acc
  | id :: order =>
      match find_stage id stagesList with
      | Some s =>
          if (i <? length acc)%nat
          then orderStages_loop order (S i) stagesList (<[i := Some s]> acc)
          else Panic (IndexOutOfRange i)
      | None => orderStages_loop order (S i) stagesList acc
      end
  end.

Definition orderStages (order : list SyncStageID) (stagesList : list (Stage World))
  : res (list (option (Stage World))) :=
  orderStages_loop order 0 stagesList (replicate (length stagesList) None).

(** [New]; [DefaultRevertOrder] and [DefaultCleanUpOrder] are declared in
    another file of the package and taken as parameters.  The fields the
    model of the engine does not have (context, chain, protocol, logger,
    log prefixes) are left out. *)
Definition New (DefaultRevertOrder DefaultCleanUpOrder : list SyncStageID)
    (stagesList : list (Stage World)) (isBeacon : bool) : res (StagedStreamSync World) :=
  match orderStages DefaultRevertOrder stagesList with
  | Val revertStages =>
      match orderStages DefaultCleanUpOrder stagesList with
      | Val pruneStages =>
          Val (mkSync isBeacon None None 0%Z 0 stagesList revertStages pruneStages [])
      | Panic p => Panic p
      | OutOfFuel => OutOfFuel
      end
  | Panic p => Panic p
  | OutOfFuel => OutOfFuel
  end.

(** [s.stages[i].Disabled = d].  The stages are pointers, and [New] puts
    the same pointers into [revertOrder] and [pruningOrder]: a flag written
    through [s.stages] is seen through the other two orders.  The engine of
    the model holds stage values, so the write is made on the three lists. *)
Definition set_Disabled (d : bool) (st : Stage World) : Stage World :=
  mkStage (ID st) (Handler st) d.

Definition on_stages (f : Stage World -> Stage World) (s : StagedStreamSync World)
  : StagedStreamSync World :=
  mkSync (isBeacon s) (revertPoint s) (prevRevertPoint s) (invalidBlock s) (currentStage s)
         (map f (stages s))
         (map (option_map f) (revertOrder s))
         (map (option_map f) (pruningOrder s))
         (timings s).

(** [DisableAllStages]: the ids of the stages that were enabled, and the
    engine with every stage disabled. *)
Definition DisableAllStages (s : StagedStreamSync World)
  : list SyncStageID * StagedStreamSync World :=
  let backupEnabledIds := map ID (List.filter (fun st => negb (Disabled st)) (stages s)) in
  (backupEnabledIds, on_stages (set_Disabled true) s).

(** The inner loop over [ids] for one stage. *)
Definition mark (d : bool) (ids : list SyncStageID) (st : Stage World) : Stage World :=
  foldl (fun st id => if negb (String.eqb (ID st) id) then st else set_Disabled d st) st ids.

Definition DisableStages (ids : list SyncStageID) (s : StagedStreamSync World)
  : StagedStreamSync World :=
  on_stages (mark true ids) s.

Definition EnableStages (ids : list SyncStageID) (s : StagedStreamSync World)
  : StagedStreamSync World :=
  on_stages (mark false ids) s.

End Stages.

(** ** ByteCount *)

(** [const unit = 1024] of [ByteCount]. *)
Definition byteUnit : Z := 1024.

(** Multiplication of [uint64] wraps around. *)
Definition wrap64 (z : Z) : Z := z mod 2 ^ 64.

(** [for n := b / unit; n >= unit; n /= unit { div *= unit; exp++ }] *)
Fixpoint unit_loop (fuel : nat) (n div : Z) (exp : nat) : res (Z * nat) :=
  if (byteUnit <=? n)%Z then
    match fuel with
    | O => OutOfFuel
    | S fuel => unit_loop fuel (n / byteUnit) (wrap64 (div * byteUnit)) (S exp)
    end
  else Val (div, exp).

(** What [ByteCount] prints: the bytes themselves below 1024, else the
    quotient of [b] by [div] (with one decimal, not modelled) followed by
    the letter at position [exp] of the string KMGTPE; indexing the string
    past its end is a panic. *)
Inductive byteCount :=
| Bytes (b : Z)
| Scaled (b div : Z) (letter : Ascii.ascii).

Definition ByteCount (b : Z) : res byteCount :=
  if (b <? byteUnit)%Z then Val (Bytes b)
  else
    match unit_loop 64 (b / byteUnit) byteUnit 0 with
    | Val (div, exp) =>
        match String.get exp "KMGTPE" with
        | Some c => Val (Scaled b div c)
        | None => Panic (IndexOutOfRange exp)
        end
    | Panic p => Panic p
    | OutOfFuel => OutOfFuel
    end.


End Engine.

(* ===================================================================== *)
(** * The Bodies stage (StageBodies, package stagedstreamsync)           *)
(* ===================================================================== *)

Module Bodies.

Abbreviation StreamID := string (only parsing).
(** A Go [[]byte]: [None] is the nil slice. *)
Abbreviation bytes := (option (list Z)) (only parsing).
(** common.Hash: 32 bytes. *)
Abbreviation Hash := (list Z) (only parsing).

Definition len (b : bytes) : nat :=
  match b with
  | None => 0
  | Some l => length l
  end.

Inductive error :=
| ContextCanceled                      (* context.Canceled *)
| ContextDeadlineExceeded              (* context.DeadlineExceeded *)
| ErrReadBlockHashesFromDBFailed
| ErrSaveBlocksToDbFailed
| ErrSavingBodiesProgressFail
| ErrMsg (msg : string)                (* errors.New / errors.Errorf *)
| ErrWrap (e : error) (msg : string).  (* errors.Wrap(err, msg) *)

(** errors.Is(err, context.Canceled) and errors.Is(err,
    context.DeadlineExceeded): the chain of wrapped errors is searched. *)
Fixpoint isCanceled (e : error) : bool :=
  match e with
  | ContextCanceled => true
  | ErrWrap e _ => isCanceled e
  | _ => false
  end.

Fixpoint isDeadlineExceeded (e : error) : bool :=
  match e with
  | ContextDeadlineExceeded => true
  | ErrWrap e _ => isDeadlineExceeded e
  | _ => false
  end.

Inductive panic :=
| IndexOutOfRange (i : nat)
| PanicError (e : error).

(** A value, a panic (which takes the process down when it happens in a
    worker goroutine), a send that blocks for ever, or the model's fuel ran
    out. *)
Inductive res (A : Type) :=
| Val (a : A)
| Panic (p : panic)
| Blocked
| OutOfFuel.
Arguments Val {A} a.
Arguments Panic {A} p.
Arguments Blocked {A}.
Arguments OutOfFuel {A}.

(** The database a write goes to: the engine's, or a worker's block DB. *)
Inductive dbid :=
| MainDB
| BlockDB (workerID : nat).

Definition BlocksBucket : string := "BlocksBucket".
Definition BlockSignaturesBucket : string := "BlockSignaturesBucket".

(** What the stage does to the outside, in order. *)
Inductive event :=
(* the transport *)
| EvGetRawBlocksByHashes (hashes : list Hash)
| EvGetRawBlocksByNumber (bns : list Z)
| EvGetBlocksByNumber (bns : list Z)
| EvNumStreams
| EvStreamFailed (stid : StreamID) (reason : string)
| EvRemoveStream (stid : StreamID)
(* the download manager *)
| EvNewDownloadManager (from to : Z)
| EvGetNextBatch
| EvHandleRequestError (bns : list Z) (e : error) (stid : StreamID)
| EvHandleRequestResult (bns : list Z) (blockBytes sigBytes : list bytes)
                        (workerID : nat) (stid : StreamID)
| EvSetDownloadDetails (bns : list Z) (workerID : nat) (stid : StreamID)
(* writes *)
| EvPut (db : dbid) (bucket : string) (bn : Z) (v : bytes)
| EvClearBucket (db : dbid) (bucket : string)
| EvUpdateProgress (progress : Z).

(** A transport call: what the claim of "no transport call" rules out. *)
Definition is_transport_call (e : event) : bool :=
  match e with
  | EvGetRawBlocksByHashes _ | EvGetRawBlocksByNumber _ | EvGetBlocksByNumber _ => true
  | _ => false
  end.

(** What [GetRawBlocksByHashes] and [GetRawBlocksByNumber] return. *)
Record RawResponse := mkRawResponse {
  rr_blockBytes : option (list bytes);   (* [None] is nil *)
  rr_sigBytes : list bytes;
  rr_stid : StreamID;
  rr_err : option error
}.

(** Everything the stage reads from outside.  Answers of the transport, of
    the download manager and of the context may depend on what happened
    before (the events so far); the stores answer by key. *)
Record Env := mkEnv {
  (* the engine, s.state *)
  initSync : bool;
  isEpochChain : bool;
  targetBN : Z;                       (* s.state.status.GetTargetBN() *)
  currentBlockNumber : Z;             (* s.state.CurrentBlockNumber() *)
  targetHeight : Z;                   (* s.state.currentCycle.GetTargetHeight() *)
  invalidBlockNumber : Z;             (* s.state.invalidBlock.Number *)
  invalidBlockStreamID : list StreamID;
  Concurrency : nat;                  (* s.state.config.Concurrency *)
  (* b.configs *)
  concurrency : nat;
  numBlockDBs : nat;                  (* len(b.configs.blockDBs) *)
  (* the engine's database and the transaction on it *)
  BeginRw : option error;
  CurrentStageProgress : error + Z;
  GetOne : Z -> error + bytes;        (* BlockHashesBucket, by block number *)
  Update : Z -> option error;         (* s.Update(tx, progress) *)
  Commit : option error;
  Put : dbid -> string -> Z -> option error;
  (* the workers' block databases *)
  blockDB_BeginRw : nat -> option error;
  blockDB_ClearBucket : nat -> string -> option error;
  blockDB_Commit : nat -> option error;
  (* transport, download manager, context, scheduler *)
  GetRawBlocksByHashes : list event -> list Hash -> RawResponse;
  GetRawBlocksByNumber : list event -> list Z -> RawResponse;
  NumStreams : list event -> nat;
  GetNextBatch : list event -> list Z;
  ctxDone : list event -> bool;
  workerFor : list event -> nat       (* the worker that receives the batch *)
}.

Definition M (A : Type) : Type := list event -> res A * list event.

Definition ret {A} (a : A) : M A := fun tr => (Val a, tr).
Definition raise {A} (p : panic) : M A := fun tr => (Panic p, tr).
Definition bind {A B} (m : M A) (k : A -> M B) : M B :=
  fun tr => match m tr with
            | (Val a, tr') => k a tr'
            | (Panic p, tr') => (Panic p, tr')
            | (Blocked, tr') => (Blocked, tr')
            | (OutOfFuel, tr') => (OutOfFuel, tr')
            end.
Definition history : M (list event) := fun tr => (Val tr, tr).
Definition emit (e : event) : M unit := fun tr => (Val tt, tr ++ [e]).

Notation "x <- m ;; k" := (bind m (fun x => k))
  (at level 100, m at next level, right associativity).

Section WithEnv.
Variable env : Env.

(** [copy(h[:], hashBytes)] into a zeroed hash. *)
Definition toHash (b : bytes) : Hash :=
  let l := default [] b in
  take 32 l ++ replicate (32 - length l) 0%Z.

(** The [for] loop of [fetchBlockHashes], inside [CreateView]. *)
Fixpoint fetchLoop (bns : list Z) (hashes : list Hash) : list Hash * option error :=
  match bns with
  | [] => (hashes, None)
  | bn :: bns =>
      match GetOne env bn with
      | inl e => (hashes, Some e)
      | inr hashBytes => fetchLoop bns (hashes ++ [toHash hashBytes])
      end
  end.

Definition fetchBlockHashes (bns : list Z) : list Hash * option error :=
  match bns with
  | [] => ([], Some (ErrMsg "empty batch of block numbers"))
  | _ => fetchLoop bns []
  end.

(** The [for] loop of [saveBlocks] from position [i] on. *)
Fixpoint saveLoop (db : dbid) (bns : list Z) (sigBytes : list bytes) (i : nat)
    (blocks : list bytes) : M (option error) :=
  match blocks with
  | [] => ret None
  | block :: blocks =>
      match sigBytes !! i with
      | None => raise (IndexOutOfRange i)
      | Some sig =>
          match block with
          | None => saveLoop db bns sigBytes (S i) blocks
          | Some _ =>
              match bns !! i with
              | None => raise (IndexOutOfRange i)
              | Some bn =>
                  _ <- emit (EvPut db BlocksBucket bn block) ;;
                  match Put env db BlocksBucket bn with
                  | Some e => ret (Some e)
                  | None =>
                      _ <- emit (EvPut db BlockSignaturesBucket bn sig) ;;
                      match Put env db BlockSignaturesBucket bn with
                      | Some e => ret (Some e)
                      | None => saveLoop db bns sigBytes (S i) blocks
                      end
                  end
              end
          end
      end
  end.

(** [saveBlocks]; [tx] is [Some db] when the caller passes a transaction (on
    that database) and [None] for nil, in which case the worker's own block
    DB is opened and committed. *)
Definition saveBlocks (tx : option dbid) (bns : list Z) (blockBytes : list bytes)
    (sigBytes : list bytes) (workerID : nat) : M (option error) :=
  match tx with
  | Some db => saveLoop db bns sigBytes 0 blockBytes
  | None =>
      if negb (workerID <? numBlockDBs env)%nat then raise (IndexOutOfRange workerID)
      else
        match blockDB_BeginRw env workerID with
        | Some e => ret (Some e)
        | None =>
            e <- saveLoop (BlockDB workerID) bns sigBytes 0 blockBytes ;;
            match e with
            | Some e => ret (Some e)
            | None => ret (blockDB_Commit env workerID)
            end
        end
  end.

(** [runBlockWorker]: one batch. *)
Definition runBlockWorker (bns : list Z) (hashes : list Hash) (workerID : nat)
  : M (option error) :=
  if (length hashes =? 0)%nat then ret (Some (ErrMsg "empty hashes"))
  else
    tr <- history ;;
    _ <- emit (EvGetRawBlocksByHashes hashes) ;;
    let r := GetRawBlocksByHashes env tr hashes in
    let stid := rr_stid r in
    match rr_err r with
    | Some err =>
        _ <- (if negb (isCanceled err) && negb (isDeadlineExceeded err)
              then emit (EvStreamFailed stid "downloadRawBlocks failed")
              else ret tt) ;;
        let err := ErrWrap err "request error" in
        _ <- emit (EvHandleRequestError bns err stid) ;;
        ret (Some err)
    | None =>
        match rr_blockBytes r with
        | None =>
            let err := ErrMsg "downloadRawBlocks received invalid (nil) blockBytes" in
            _ <- emit (EvHandleRequestError bns err stid) ;;
            _ <- emit (EvStreamFailed stid "downloadRawBlocks failed") ;;
            ret (Some err)
        | Some blockBytes =>
            if (length blockBytes =? 0)%nat then
              let err := ErrMsg "downloadRawBlocks received empty blockBytes" in
              _ <- emit (EvHandleRequestError bns err stid) ;;
              _ <- emit (EvRemoveStream stid) ;;
              ret (Some err)
            else if negb (length blockBytes =? length bns)%nat then
              let err := ErrMsg "downloadRawBlocks received blockBytes length is not match with requested block numbers" in
              _ <- emit (EvHandleRequestError bns err stid) ;;
              _ <- emit (EvRemoveStream stid) ;;
              ret (Some err)
            else
              let validBlocks := forallb (fun bb => negb (len bb <=? 1)%nat) blockBytes in
              if negb validBlocks then
                let err := ErrMsg "downloadRawBlocks received blockBytes are not valid" in
                _ <- emit (EvHandleRequestError bns err stid) ;;
                _ <- emit (EvRemoveStream stid) ;;
                ret (Some err)
              else
                e <- saveBlocks None bns blockBytes (rr_sigBytes r) workerID ;;
                match e with
                | Some _ => raise (PanicError ErrSaveBlocksToDbFailed)
                | None =>
                    _ <- emit (EvHandleRequestResult bns blockBytes (rr_sigBytes r)
                                                     workerID stid) ;;
                    ret None
                end
        end
    end.

(** [runDownloadLoop].  The producer hands each batch to a worker over a
    channel; the model runs the worker on the batch at once, one batch at a
    time.  Without workers the send blocks. *)
Fixpoint runDownloadLoop (fuel : nat) : M unit :=
  match fuel with
  | O => fun tr => (OutOfFuel, tr)
  | S fuel =>
      tr <- history ;;
      if ctxDone env tr then ret tt
      else
        _ <- emit EvGetNextBatch ;;
        let batch := GetNextBatch env tr in
        if (length batch =? 0)%nat then ret tt
        else
          let '(hashes, err) := fetchBlockHashes batch in
          match err with
          | Some _ => raise (PanicError ErrReadBlockHashesFromDBFailed)
          | None =>
              if negb (length batch =? length hashes)%nat
              then raise (PanicError ErrReadBlockHashesFromDBFailed)
              else if (Concurrency env =? 0)%nat then fun tr => (Blocked, tr)
              else
                tr <- history ;;
                _ <- runBlockWorker batch hashes (workerFor env tr mod Concurrency env) ;;
                runDownloadLoop fuel
          end
  end.

(** [cleanBlocksDB] and [cleanAllBlockDBs]. *)
Definition cleanBlocksDB (workerID : nat) : M (option error) :=
  if negb (workerID <? numBlockDBs env)%nat then raise (IndexOutOfRange workerID)
  else
    match blockDB_BeginRw env workerID with
    | Some e => ret (Some e)
    | None =>
        _ <- emit (EvClearBucket (BlockDB workerID) BlocksBucket) ;;
        match blockDB_ClearBucket env workerID BlocksBucket with
        | Some e => ret (Some e)
        | None =>
            _ <- emit (EvClearBucket (BlockDB workerID) BlockSignaturesBucket) ;;
            match blockDB_ClearBucket env workerID BlockSignaturesBucket with
            | Some e => ret (Some e)
            | None => ret (blockDB_Commit env workerID)
            end
        end
    end.

Fixpoint cleanFrom (i n : nat) : M (option error) :=
  match n with
  | O => ret None
  | S n =>
      e <- cleanBlocksDB i ;;
      match e with
      | Some e => ret (Some e)
      | None => cleanFrom (S i) n
      end
  end.

Definition cleanAllBlockDBs : M (option error) := cleanFrom 0 (concurrency env).

(** [saveProgress]; [txNil] says that the caller passed no transaction. *)
Definition saveProgress (progress : Z) (txNil : bool) : M (option error) :=
  match (if txNil then BeginRw env else None) with
  | Some e => ret (Some e)
  | None =>
      _ <- emit (EvUpdateProgress progress) ;;
      match Update env progress with
      | Some _ => ret (Some ErrSavingBodiesProgressFail)
      | None => if txNil then ret (Commit env) else ret None
      end
  end.

(** [redownloadBadBlock]; the transaction it is handed is the engine's. *)
Fixpoint redownloadBadBlock (fuel : nat) : M (option error) :=
  match fuel with
  | O => fun tr => (OutOfFuel, tr)
  | S fuel =>
      let batch := [invalidBlockNumber env] in
      tr <- history ;;
      _ <- emit EvNumStreams ;;
      if (NumStreams env tr =? 0)%nat
      then ret (Some (ErrMsg "not enough streams to re-download bad block"))
      else
        tr <- history ;;
        _ <- emit (EvGetRawBlocksByNumber batch) ;;
        let r := GetRawBlocksByNumber env tr batch in
        let stid := rr_stid r in
        match rr_err r with
        | Some err =>
            _ <- (if negb (isCanceled err) && negb (isDeadlineExceeded err)
                  then emit (EvStreamFailed stid
                     "tried to re-download bad block from this stream, but downloadRawBlocks failed")
                  else ret tt) ;;
            redownloadBadBlock fuel
        | None =>
            if bool_decide (stid ∈ invalidBlockStreamID env) then
              _ <- emit (EvStreamFailed stid "re-download bad block from this stream failed") ;;
              redownloadBadBlock fuel
            else
              _ <- emit (EvSetDownloadDetails batch 0 stid) ;;
              if negb (0 <? numBlockDBs env)%nat then raise (IndexOutOfRange 0)
              else
                (* blockDBs[0].Update(...) around saveBlocks on [tx] *)
                match blockDB_BeginRw env 0 with
                | Some _ => redownloadBadBlock fuel
                | None =>
                    e <- saveBlocks (Some MainDB) batch
                           (default [] (rr_blockBytes r)) (rr_sigBytes r) 0 ;;
                    match e with
                    | Some _ => redownloadBadBlock fuel
                    | None =>
                        match blockDB_Commit env 0 with
                        | Some _ => redownloadBadBlock fuel
                        | None => ret None
                        end
                    end
                end
        end
  end.

(** [Exec]; [txNil] says that the engine passed no transaction. *)
Definition Exec (fuel : nat) (invalidBlockRevert : bool) (txNil : bool) : M (option error) :=
  if negb (initSync env) then ret None
  else if isEpochChain env then ret None
  else
    match (if txNil then BeginRw env else None) with
    | Some e => ret (Some e)
    | None =>
        if invalidBlockRevert then redownloadBadBlock fuel
        else
          let maxHeight := targetBN env in
          let currentHead := currentBlockNumber env in
          if (maxHeight <=? currentHead)%Z then ret None
          else
            match CurrentStageProgress env with
            | inl e => ret (Some e)
            | inr currProgress =>
                r <- (if (currProgress <=? currentHead)%Z then
                        e <- cleanAllBlockDBs ;;
                        match e with
                        | Some e => ret (inl e)
                        | None => ret (inr currentHead)
                        end
                      else ret (inr currProgress)) ;;
                match r with
                | inl e => ret (Some e)
                | inr currProgress =>
                    if (targetHeight env <=? currProgress)%Z then ret None
                    else
                      _ <- emit (EvNewDownloadManager currProgress (targetHeight env)) ;;
                      _ <- runDownloadLoop fuel ;;
                      _ <- saveProgress (targetHeight env) false ;;
                      if txNil then ret (Commit env) else ret None
                end
            end
    end.

End WithEnv.
(** ** downloadBlocks and validateGetBlocksResult *)

(** A decoded block is seen through its number ([NumberU64]); [None] is a
    nil block.  The loop of [validateGetBlocksResult] from position [i]. *)
Fixpoint validateLoop (requested : list Z) (i : nat) (result : list (option Z))
  : res (option error) :=
  match result with
  | [] => Val None
  | block :: result =>
      match block with
      | None => validateLoop requested (S i) result
      | Some number =>
          match requested !! i with
          | None => Panic (IndexOutOfRange i)
          | Some want =>
              if negb (number =? want)%Z
              then Val (Some (ErrMsg "block with unexpected number delivered"))
              else validateLoop requested (S i) result
          end
      end
  end.

Definition validateGetBlocksResult (requested : list Z) (result : list (option Z))
  : res (option error) :=
  if negb (length result =? length requested)%nat
  then Val (Some (ErrMsg "unexpected number of blocks delivered"))
  else validateLoop requested 0 result.

(** [downloadBlocks]; the protocol's [GetBlocksByNumber] answers from what
    has happened so far. *)
Definition downloadBlocks
    (GetBlocksByNumber : list event -> list Z -> list (option Z) * string * option error)
    (bns : list Z) : M (option (list (option Z)) * string * option error) :=
  tr <- history ;;
  _ <- emit (EvGetBlocksByNumber bns) ;;
  let '(blocks, stid, err) := GetBlocksByNumber tr bns in
  match err with
  | Some e => ret (None, stid, Some e)
  | None =>
      match validateGetBlocksResult bns blocks with
      | Val (Some e) => ret (None, stid, Some e)
      | Val None => ret (Some blocks, stid, None)
      | Panic p => raise p
      | Blocked => fun tr => (Blocked, tr)
      | OutOfFuel => fun tr => (OutOfFuel, tr)
      end
  end.


End Bodies.

(* ===================================================================== *)
(** * The Finish stage (stagedsync/stage_finish.go)                       *)
(* ===================================================================== *)

Module Finish.

(** A bucket of the key/value store, and the store: bucket name to
    contents.  A name that is not bound is an empty bucket. *)
Abbreviation bucket := (gmap (list Z) (list Z)) (only parsing).
Abbreviation store := (gmap string (gmap (list Z) (list Z))) (only parsing).

Definition contents (s : store) (name : string) : bucket := default ∅ (s !! name).

Section WithNames.

(** Declared elsewhere in the package: the bucket names and the function
    that qualifies a name for the beacon shard; the block cache of the
    engine and the function that empties it. *)
Variable GetBucketName : string -> bool -> string.
Variable BlockHashesBucket ExtraBlockHashesBucket DownloadedBlocksBucket : string.
Variable Cache : Type.
Variable purgeAllBlocksFromCache : Cache -> Cache.

(** The store's answers: whether opening and committing a transaction
    work, and whether clearing a bucket does. *)
Variable BeginRw : option string.
Variable Commit : option string.
Variable ClearBucket_err : string -> option string.

Record state := mkState {
  db : store;             (* what is committed *)
  tx : option store;      (* the caller's transaction, if any: its view *)
  cache : Cache
}.

(** What a reader of the transaction (or, without one, of the database)
    sees. *)
Definition view (st : state) : store := default (db st) (tx st).

(** [tx.ClearBucket(name)]: the error, and the transaction afterwards. *)
Definition ClearBucket (name : string) (t : store) : option string * store :=
  match ClearBucket_err name with
  | Some e => (Some e, t)
  | None => (None, <[name := ∅]> t)
  end.

(** The three calls of [Exec]; it drops what they return. *)
Definition clearAll (isBeacon : bool) (t : store) : store :=
  let hashesBucketName := GetBucketName BlockHashesBucket isBeacon in
  let t := snd (ClearBucket hashesBucketName t) in
  let extrahashesBucketName := GetBucketName ExtraBlockHashesBucket isBeacon in
  let t := snd (ClearBucket extrahashesBucketName t) in
  let blocksBucketName := GetBucketName DownloadedBlocksBucket isBeacon in
  snd (ClearBucket blocksBucketName t).

Definition Exec (isBeacon : bool) (st : state) : option string * state :=
  match tx st with
  | Some t =>
      (None, mkState (db st) (Some (clearAll isBeacon t))
                     (purgeAllBlocksFromCache (cache st)))
  | None =>
      match BeginRw with
      | Some e => (Some e, st)
      | None =>
          let t := clearAll isBeacon (db st) in
          let c := purgeAllBlocksFromCache (cache st) in
          match Commit with
          | Some e => (Some e, mkState (db st) None c)     (* rolled back *)
          | None => (None, mkState t None c)
          end
      end
  end.

(** [clearBucket] of the block-hashes stage, declared in this same file:
    unlike [Exec] it returns what [ClearBucket] returns.  Only its own
    transaction is rolled back: a transaction of the caller stays as
    [ClearBucket] left it, also when that failed. *)
Definition clearBucket (isBeacon : bool) (st : state) : option string * state :=
  match tx st with
  | Some t =>
      let bucketName := GetBucketName BlockHashesBucket isBeacon in
      let '(err, t) := ClearBucket bucketName t in
      (err, mkState (db st) (Some t) (cache st))
  | None =>
      match BeginRw with
      | Some e => (Some e, st)
      | None =>
          let bucketName := GetBucketName BlockHashesBucket isBeacon in
          match ClearBucket bucketName (db st) with
          | (Some e, _) => (Some e, st)                     (* rolled back *)
          | (None, t) =>
              match Commit with
              | Some e => (Some e, st)                      (* rolled back *)
              | None => (None, mkState t None (cache st))
              end
          end
      end
  end.


(** The names [Exec] clears. *)
Definition cleared (isBeacon : bool) : list string :=
  [GetBucketName BlockHashesBucket isBeacon;
   GetBucketName ExtraBlockHashesBucket isBeacon;
   GetBucketName DownloadedBlocksBucket isBeacon].

End WithNames.

Arguments mkState {Cache}.
Arguments db {Cache}.
Arguments tx {Cache}.
Arguments cache {Cache}.
Arguments view {Cache}.

End Finish.

(* ===================================================================== *)
(** * Properties of the request manager                                   *)
(* ===================================================================== *)

Module RequestManagerProps.
Import RequestManager.

(** ** genReqID *)

Lemma genReqID_from_first_unused (pend : gmap Z nat) (ids : list Z) :
  Exists (λ c, pend !! c = None) ids →
  ∃ rid pre rest,
    genReqID_from pend ids = Some (rid, rest) ∧ ids = pre ++ rid :: rest ∧
    pend !! rid = None ∧ Forall (λ c, is_Some (pend !! c)) pre.
Proof.
  induction ids as [|c ids IH]; intros Hex.
  - inversion Hex.
  - simpl. destruct (pend !! c) as [p|] eqn:Hc.
    + destruct IH as (rid & pre & rest & Hg & Hids & Hfresh & Hpre).
      { inversion Hex as [? ? Hh|]; subst; [congruence | done]. }
      exists rid, (c :: pre), rest. rewrite Hg, Hids. repeat split; auto.
    + exists c, [], ids. repeat split; auto.
Qed.

(** C8.  Whenever the generator yields some id that is not a key of
    [pendings], [genReqID] returns; the id it returns is not a key of
    [pendings], and it is the first such id of the sequence: every id drawn
    before it is a key of [pendings].  The generator is left after the
    returned id. *)
Theorem genReqID_first_unused (rm : requestManager) :
  Exists (λ c, pendings rm !! c = None) (rng rm) →
  ∃ rid pre rest,
    genReqID rm = Some (rid, set_rng rest rm) ∧ rng rm = pre ++ rid :: rest ∧
    pendings rm !! rid = None ∧ Forall (λ c, is_Some (pendings rm !! c)) pre.
Proof.
  intros Hex. destruct (genReqID_from_first_unused _ _ Hex) as (rid & pre & rest & Hg & H).
  exists rid, pre, rest. unfold genReqID. rewrite Hg. auto.
Qed.

(** Scenario S4: ids 1, 2, 3 pending, the generator yields 1, 2, 3, 4. *)
Definition rm_S4 : requestManager :=
  mkRM ∅ ∅ ∅ ∅ (<[1%Z := 0]> (<[2%Z := 1]> (<[3%Z := 2]> ∅))) (newRequestQueues 4)
       [1%Z; 2%Z; 3%Z; 4%Z].

Lemma genReqID_first_unused_S4 :
  ∃ rid pre rest,
    genReqID rm_S4 = Some (rid, set_rng rest rm_S4) ∧ rng rm_S4 = pre ++ rid :: rest ∧
    pendings rm_S4 !! rid = None ∧ Forall (λ c, is_Some (pendings rm_S4 !! c)) pre.
Proof.
  apply (genReqID_first_unused rm_S4).
  apply Exists_cons_tl, Exists_cons_tl, Exists_cons_tl, Exists_cons_hd.
  reflexivity.
Defined.

Example genReqID_S4_returns_4 : fst <$> genReqID rm_S4 = Some 4%Z.
Proof. reflexivity. Qed.

(** ** Stale deliveries *)

(** The design's description of a delivery that does not match: the stream
    is gone; or no request is pending under the response's id; or the pending
    request has no owner, or an owner with another id; or the stream's
    current request is missing or has another id. *)
Definition stale (rm : requestManager) (st : string) (r : Response) : Prop :=
  streams rm !! st = None
  ∨ pendings rm !! resp_reqID r = None
  ∨ (∃ rp, pendings rm !! resp_reqID r = Some rp ∧
           (req_owner rm rp = None ∨
            ∃ op, req_owner rm rp = Some op ∧ stream_ID rm op ≠ st))
  ∨ (∃ sp, streams rm !! st = Some sp ∧
           (heap_st rm !! sp ≫= st_req = None ∨
            ∃ srp, heap_st rm !! sp ≫= st_req = Some srp ∧ ReqID rm srp ≠ resp_reqID r)).

Lemma validateDelivery_stale rm st r :
  stale rm st r → is_Some (validateDelivery rm (mkDelivery r st None)).
Proof.
  unfold validateDelivery; simpl.
  intros H.
  destruct (streams rm !! st) as [sp|] eqn:Hs; [|eauto].
  destruct (pendings rm !! resp_reqID r) as [rp|] eqn:Hp; [|eauto].
  destruct (req_owner rm rp) as [op|] eqn:Ho; [|eauto].
  case_bool_decide as Hid; [eauto|].
  destruct (heap_st rm !! sp ≫= st_req) as [srp|] eqn:Hr; [|eauto].
  case_bool_decide as Hrid; [eauto|].
  exfalso.
  destruct H as [H|[H|[(rp' & H1 & H2)|(sp' & H1 & H2)]]]; try congruence.
  - simplify_eq. destruct H2 as [H2|(op' & H2 & H3)]; congruence.
  - simplify_eq. destruct H2 as [H2|(srp' & H2 & H3)]; congruence.
Qed.

(** A delivery that fails validation changes nothing. *)
Lemma handleDeliverData_invalid data rm :
  is_Some (validateDelivery rm data) → handleDeliverData data rm = rm.
Proof. unfold handleDeliverData. intros [e ->]. reflexivity. Qed.

(** C3.  A stale delivery is dropped: the manager after [DeliverResponse] is
    the manager before it -- the same [streams], [available], [pendings] and
    [waitings], and the same request objects, so that nothing was sent on
    any caller's response channel. *)
Theorem stale_delivery_dropped rm st r :
  stale rm st r → DeliverResponse st r rm = rm.
Proof.
  intros H. unfold DeliverResponse.
  apply handleDeliverData_invalid, validateDelivery_stale, H.
Qed.

(** After a cancellation no request is pending under the cancelled
    request's id, so a response for it that comes later is stale. *)
Lemma pendings_doneWithResponse rp d rm :
  pendings (doneWithResponse rp d rm) = pendings rm.
Proof.
  unfold doneWithResponse. destruct (heap_req rm !! rp) as [r|]; [|done].
  destruct (atmDone r); done.
Qed.

Lemma pendings_removePendingRequest rp rm :
  pendings (removePendingRequest rp rm) !! ReqID rm rp = None.
Proof.
  unfold removePendingRequest.
  destruct (pendings rm !! ReqID rm rp) eqn:E; [|done].
  match goal with
  | |- pendings (match ?o with _ => _ end) !! _ = _ => destruct o as [sp|]
  end; simpl.
  - unfold clearPendingRequest, set_st_req; simpl.
    destruct (heap_st rm !! sp) as [s|]; simpl; [|by rewrite lookup_delete_eq].
    destruct (st_req s); simpl; by rewrite lookup_delete_eq.
  - by rewrite lookup_delete_eq.
Qed.

Lemma delivery_after_cancel_dropped rm rp e st r :
  resp_reqID r = ReqID rm rp →
  DeliverResponse st r (handleCancelRequest rp e rm) = handleCancelRequest rp e rm.
Proof.
  intros Hid. unfold DeliverResponse.
  apply handleDeliverData_invalid, validateDelivery_stale.
  right; left. unfold handleCancelRequest.
  rewrite pendings_doneWithResponse, Hid.
  apply (pendings_removePendingRequest rp (set_waitings (Remove rp (waitings rm)) rm)).
Qed.

(** Scenario S5: one stream, one request in flight under id 7; the request
    is cancelled, then its stream delivers a response for id 7. *)
Definition getBlocks : RawRequest := mkRaw 0 "getBlocks" (λ _, true).

Definition rm_S5 : requestManager :=
  default (newRequestManager 4 [])
    (run 16 [EvStreams [("s1", "sync")]; EvNewRequest getBlocks None; EvThrottle;
             EvCancel 0 "context canceled"]
         (newRequestManager 4 [7%Z])).

Lemma stale_delivery_dropped_S5 :
  DeliverResponse "s1" (mkResponse 7 "blocks") rm_S5 = rm_S5.
Proof.
  apply (stale_delivery_dropped rm_S5 "s1" (mkResponse 7 "blocks")).
  right; left. vm_compute. reflexivity.
Defined.

(** ** The pendings contract and stream removal *)

Lemma run_reachable throttleBatch cap evs : ∀ rm rm',
  reachable throttleBatch cap rm →
  run throttleBatch evs rm = Some rm' →
  reachable throttleBatch cap rm'.
Proof.
  induction evs as [|ev evs IH]; intros rm rm' Hr; simpl.
  - intros [= <-]. exact Hr.
  - destruct (step throttleBatch ev rm) as [rm1|] eqn:E; [|discriminate].
    apply IH. eapply reach_step; eauto.
Qed.

(** [removeStream] never touches [pendings]. *)
Lemma removeStream_pendings sp rm : pendings (removeStream sp rm) = pendings rm.
Proof.
  unfold removeStream, clearPendingRequest, set_st_req; simpl.
  destruct (heap_st rm !! sp) as [s|]; simpl; [|done].
  destruct (st_req s); simpl; [|done].
  by rewrite pendings_doneWithResponse.
Qed.

(** In general: a request [rp] in flight on the stream [sp], pending and
    linked both ways, is still pending after [removeStream sp], but its
    owner no longer points back to it. *)
Lemma req_owner_doneWithResponse rp' d rm rp :
  req_owner (doneWithResponse rp' d rm) rp = req_owner rm rp.
Proof.
  unfold doneWithResponse, req_owner.
  destruct (heap_req rm !! rp') as [r|] eqn:E; [|done].
  destruct (atmDone r); [done|]. simpl.
  destruct (decide (rp = rp')) as [->|Hne].
  - by rewrite lookup_insert_eq, E.
  - by rewrite lookup_insert_ne.
Qed.

Lemma heap_st_doneWithResponse rp d rm :
  heap_st (doneWithResponse rp d rm) = heap_st rm.
Proof.
  unfold doneWithResponse. destruct (heap_req rm !! rp) as [r|]; [|done].
  destruct (atmDone r); done.
Qed.

Lemma removeStream_in_flight sp rp st rm :
  heap_st rm !! sp = Some st →
  st_req st = Some rp →
  ∃ d rm0,
    removeStream sp rm = doneWithResponse rp d rm0 ∧
    heap_req rm0 = heap_req rm ∧
    heap_st rm0 = <[sp := mkStream (st_id st) (st_spec st) None]> (heap_st rm).
Proof.
  intros Hst Hreq. unfold removeStream, clearPendingRequest, set_st_req. simpl.
  rewrite Hst. simpl. rewrite Hreq. simpl.
  eexists _, _. split; [reflexivity|]. split; reflexivity.
Qed.

Lemma removeStream_strands_request sp rp st rm :
  heap_st rm !! sp = Some st →
  st_req st = Some rp →
  req_owner rm rp = Some sp →
  in_pendings rm rp →
  in_pendings (removeStream sp rm) rp ∧ ¬ owner_points_back (removeStream sp rm) rp.
Proof.
  intros Hst Hreq Hown Hin. split.
  - unfold in_pendings. by rewrite removeStream_pendings.
  - destruct (removeStream_in_flight sp rp st rm Hst Hreq) as (d & rm0 & -> & Hh & Hs).
    intros (sp' & st' & Hown' & Hst' & Hreq').
    rewrite req_owner_doneWithResponse in Hown'.
    rewrite heap_st_doneWithResponse, Hs in Hst'.
    unfold req_owner in Hown', Hown. rewrite Hh, Hown in Hown'. injection Hown' as <-.
    rewrite lookup_insert_eq in Hst'. injection Hst' as <-.
    discriminate Hreq'.
Qed.

(** A stream comes up, a request is assigned to it under id 7, the stream
    goes away. *)
Definition churn : list event :=
  [EvStreams [("s1", "sync")]; EvNewRequest getBlocks None; EvThrottle; EvStreams []].

(** C1.  The contract does not survive the removal of a stream with a
    request in flight: in the state the loop reaches, the request (at
    address 0) is still in [pendings] under id 7, its owner is still the
    removed stream, and that stream's request pointer is nil. *)
Theorem removeStream_breaks_pendings_contract :
  ∃ rm,
    run 16 churn (newRequestManager 4 [7%Z]) = Some rm ∧
    reachable 16 4 rm ∧
    pendings rm !! 7%Z = Some 0 ∧
    req_owner rm 0 = Some 0 ∧
    (st_req <$> heap_st rm !! 0) = Some None ∧
    streams rm = ∅ ∧
    in_pendings rm 0 ∧ ¬ owner_points_back rm 0 ∧
    ¬ pendings_invariant rm.
Proof.
  destruct (run 16 churn (newRequestManager 4 [7%Z])) as [rm|] eqn:E;
    [|vm_compute in E; discriminate].
  exists rm.
  assert (reachable 16 4 rm) as Hreach.
  { eapply run_reachable; [apply reach_init | exact E]. }
  assert (pendings rm !! 7%Z = Some 0) as Hp.
  { vm_compute in E. injection E as <-. vm_compute. reflexivity. }
  assert (req_owner rm 0 = Some 0) as Ho.
  { vm_compute in E. injection E as <-. vm_compute. reflexivity. }
  assert ((st_req <$> heap_st rm !! 0) = Some None) as Hs.
  { vm_compute in E. injection E as <-. vm_compute. reflexivity. }
  assert (streams rm = ∅) as Hst.
  { vm_compute in E. injection E as <-. vm_compute. reflexivity. }
  assert (in_pendings rm 0) as Hin by (exists 7%Z; exact Hp).
  assert (¬ owner_points_back rm 0) as Hback.
  { intros (sp & st & Ho' & Hst' & Hreq). rewrite Ho in Ho'. injection Ho' as <-.
    rewrite Hst' in Hs. simpl in Hs. congruence. }
  repeat split; auto.
  intros Hinv. apply Hback, Hinv, Hin.
Qed.

End RequestManagerProps.

(* ===================================================================== *)
(** * Properties of the staged sync engine                                *)
(* ===================================================================== *)

Module EngineProps.
Import Engine.

Section EngineFacts.
Context {World : Type}.
Variable GetStageProgress : World -> string -> bool -> error + Z.
Variable GetStageCleanUpProgress : World -> string -> bool -> error + Z.
Variable BucketSize : World -> string -> error + Z.
Variable Buckets : list string.
Variable since : World -> Z.

Abbreviation M := (M World).
Abbreviation sync := (StagedStreamSync World).

(** A computation keeps an observation [f] of the engine when no run of it
    changes [f]. *)
Definition keeps {A B} (f : sync -> B) (m : M A) : Prop :=
  forall st r st', m st = (r, st') -> f (eng st') = f (eng st).

Lemma keeps_ret {A B} (f : sync -> B) (a : A) : keeps f (ret a).
Proof. intros st r st' H. injection H as <- <-. reflexivity. Qed.

Lemma keeps_raise {A B} (f : sync -> B) p : keeps f (raise (A:=A) p).
Proof. intros st r st' H. injection H as <- <-. reflexivity. Qed.

Lemma keeps_bind {A B C} (f : sync -> C) (m : M A) (k : A -> M B) :
  keeps f m -> (forall a, keeps f (k a)) -> keeps f (bind m k).
Proof.
  intros Hm Hk st r st' H. unfold bind in H.
  destruct (m st) as [[a|p|] st1] eqn:E.
  - rewrite (Hk a _ _ _ H). eapply Hm, E.
  - injection H as <- <-. eapply Hm, E.
  - injection H as <- <-. eapply Hm, E.
Qed.

Lemma keeps_get_eng {B} (f : sync -> B) : keeps f get_eng.
Proof. intros st r st' H. injection H as <- <-. reflexivity. Qed.

Lemma keeps_get_world {B} (f : sync -> B) : keeps f get_world.
Proof. intros st r st' H. injection H as <- <-. reflexivity. Qed.

Lemma keeps_put_world {B} (f : sync -> B) w : keeps f (put_world w).
Proof. intros st r st' H. injection H as <- <-. reflexivity. Qed.

Lemma keeps_log_call {B} (f : sync -> B) c : keeps f (log_call c).
Proof. intros st r st' H. injection H as <- <-. reflexivity. Qed.

Lemma keeps_modify {B} (f : sync -> B) g :
  (forall s, f (g s) = f s) -> keeps f (modify_eng g).
Proof. intros Hg st r st' H. injection H as <- <-. simpl. apply Hg. Qed.

Ltac keeps_step :=
  first
    [ apply keeps_ret | apply keeps_raise | apply keeps_get_eng
    | apply keeps_get_world | apply keeps_put_world | apply keeps_log_call
    | apply keeps_modify; intros; reflexivity
    | apply keeps_bind; [| intros ?]
    | match goal with
      | |- keeps _ (match ?x with _ => _ end) => destruct x
      | |- keeps _ (let '(_, _) := ?x in _) => destruct x
      | |- keeps _ (if ?x then _ else _) => destruct x
      end ].

Ltac keeps_auto := repeat keeps_step.

Lemma keeps_pruneStage_rp fc stage :
  keeps revertPoint (pruneStage World GetStageProgress GetStageCleanUpProgress since fc stage).
Proof.
  unfold pruneStage, stageState, CleanUpStageState, SetCurrentStage, LogPrefix, append_timing.
  keeps_auto.
Qed.

Lemma keeps_cleanUp_loop_rp from fc found l :
  keeps revertPoint
    (cleanUp_loop World GetStageProgress GetStageCleanUpProgress since from fc found l).
Proof.
  revert found. induction l as [|[p|] l IH]; intros found; cbn [cleanUp_loop].
  - keeps_auto.
  - apply keeps_bind; [keeps_auto|]. intros s.
    destruct (stages s !! from); [|keeps_auto].
    destruct (negb _ || _); [apply IH|].
    apply keeps_bind; [apply keeps_pruneStage_rp|].
    intros [e|]; [keeps_auto | apply IH].
  - keeps_auto.
Qed.

(** Inversion of a [bind] that produced a value. *)
Lemma bind_Val {A B} (m : M A) (k : A -> M B) st b st' :
  bind m k st = (Val b, st') ->
  exists a st1, m st = (Val a, st1) /\ k a st1 = (Val b, st').
Proof.
  unfold bind. destruct (m st) as [[a|p|] st1]; intros H; try discriminate.
  eauto.
Qed.

Lemma Run_loop_exit fuel : forall fc st fc' st',
  Run_loop World GetStageProgress since fuel fc st = (Val (inr fc'), st') ->
  IsDone (eng st') = true.
Proof.
  induction fuel as [|fuel IH]; intros fc st fc' st'; simpl.
  - destruct (IsDone (eng st)) eqn:E; intros H; [|discriminate].
    injection H as <- <-. exact E.
  - destruct (IsDone (eng st)) eqn:E; intros H.
    + injection H as <- <-. exact E.
    + apply bind_Val in H as (r & st1 & _ & H).
      destruct r as [e|[fc1 flag]]; [discriminate|].
      apply bind_Val in H as (e & st2 & _ & H).
      destruct e; [discriminate|]. eapply IH, H.
Qed.

Lemma IsDone_revertPoint (s : sync) : IsDone s = true -> revertPoint s = None.
Proof.
  unfold IsDone. intros H. apply andb_prop in H as [_ H].
  by apply bool_decide_eq_true in H.
Qed.

(** C4.  When [Run] returns nil -- the forward pass, the cleanup pass and
    the printing of the logs all went through -- the engine is left with
    [currentStage = 0] and no revert point. *)
Theorem Run_success_final_state fuel tx fc st st' :
  Run World GetStageProgress GetStageCleanUpProgress BucketSize Buckets since fuel tx fc st
    = (Val None, st') ->
  currentStage (eng st') = 0%nat /\ revertPoint (eng st') = None.
Proof.
  unfold Run. intros H.
  apply bind_Val in H as (? & st1 & _ & H).
  apply bind_Val in H as (? & st2 & _ & H).
  apply bind_Val in H as (r & st3 & Hloop & H).
  destruct r as [e|fc1]; [discriminate|].
  apply Run_loop_exit, IsDone_revertPoint in Hloop.
  apply bind_Val in H as (e & st4 & Hclean & H).
  assert (revertPoint (eng st4) = None) as Hrp4.
  { rewrite <- Hloop. revert Hclean. unfold cleanUp. apply keeps_bind; [keeps_auto|].
    intros s. apply keeps_bind; [apply keeps_cleanUp_loop_rp | intros; keeps_auto]. }
  destruct e; [discriminate|].
  apply bind_Val in H as (s & st5 & Hget & H). injection Hget as <- <-.
  destruct (stages (eng st4) !! 0%nat) as [first|]; [|discriminate].
  apply bind_Val in H as (e & st6 & Hset & H).
  assert (revertPoint (eng st6) = None) as Hrp6.
  { rewrite <- Hrp4. revert Hset. unfold SetCurrentStage. keeps_auto. }
  destruct e; [discriminate|].
  apply bind_Val in H as (s & st7 & Hget & H). injection Hget as <- <-.
  apply bind_Val in H as (e & st8 & Hpr & H).
  assert (revertPoint (eng st8) = None) as Hrp8.
  { rewrite <- Hrp6. revert Hpr. unfold printLogs. keeps_auto. }
  destruct e; [discriminate|].
  apply bind_Val in H as (? & st9 & Hmod & H).
  unfold modify_eng in Hmod. unfold ret in H. simplify_eq. simpl. auto.
Qed.


Lemma keeps_revertStage {B} (f : sync -> B) fc stage :
  (forall i s, f (set_currentStage i s) = f s) ->
  (forall t s, f (set_timings t s) = f s) ->
  keeps f (revertStage World GetStageProgress since fc stage).
Proof.
  intros H1 H2.
  unfold revertStage, stageState, SetCurrentStage, LogPrefix, append_timing.
  keeps_auto; apply keeps_modify; intros; auto.
Qed.

Lemma keeps_revertPass {B} (f : sync -> B) fc l :
  (forall i s, f (set_currentStage i s) = f s) ->
  (forall t s, f (set_timings t s) = f s) ->
  keeps f (revertPass World GetStageProgress since fc l).
Proof.
  intros H1 H2. induction l as [|[p|] l IH]; cbn [revertPass].
  - keeps_auto.
  - destruct (Disabled p); [apply IH|].
    apply keeps_bind; [by apply keeps_revertStage|].
    intros [e|]; [keeps_auto | apply IH].
  - apply IH.
Qed.

Lemma stage_index_head (first : Stage World) l i :
  stage_index (ID first) (first :: l) i = Some i.
Proof. simpl. by rewrite String.eqb_refl. Qed.

(** C9.  With a revert pending at [rp] and the stage's persisted progress
    read as [bn]: when [bn <= rp], [revertStage] returns nil and leaves
    everything as it was -- no handler call, the same current stage, no
    timing entry; and whenever [revertStage] does call a handler, it is this
    stage's Revert handler and [rp < bn]. *)
Theorem revertStage_skips_up_to_revert_point fc stage (st : state World) rp bn :
  revertPoint (eng st) = Some rp ->
  GetStageProgress (world st) (ID stage) (isBeacon (eng st)) = inr bn ->
  ((bn <= rp)%Z ->
     revertStage World GetStageProgress since fc stage st = (Val None, st)) /\
  (forall c, c ∈ calls (revertStage World GetStageProgress since fc stage st).2 ->
             c ∉ calls st ->
             (rp < bn)%Z /\
             c = CallRevert (ID stage) fc
                   (mkRevertState (ID stage) rp bn (invalidBlock (eng st)))
                   (mkStageState (ID stage) bn)).
Proof.
  intros Hrp Hbn. split.
  - intros Hle. unfold revertStage, stageState, bind, get_eng, get_world, ret. simpl.
    rewrite Hbn, Hrp. simpl.
    destruct (bn <=? rp)%Z eqn:E; [reflexivity | lia].
  - intros c. unfold revertStage, stageState, bind, get_eng, get_world, ret. simpl.
    rewrite Hbn, Hrp. simpl.
    destruct (bn <=? rp)%Z eqn:E; [simpl; intros; contradiction|].
    apply Z.leb_gt in E.
    unfold SetCurrentStage, bind, get_eng, modify_eng, ret. simpl.
    destruct (stage_index _ _ _); simpl; [|intros; contradiction].
    destruct (Revert _ _ _ _ _) as [w' [e|]]; simpl.
    + unfold LogPrefix, bind, get_eng, ret, raise; simpl.
      destruct (_ <? _)%nat; simpl;
        intros Hin Hnot; apply elem_of_app in Hin as [Hin|Hin]; try contradiction;
        apply list_elem_of_singleton in Hin; auto.
    + intros Hin Hnot; apply elem_of_app in Hin as [Hin|Hin]; try contradiction;
        apply list_elem_of_singleton in Hin; auto.
Qed.

(** The loop body is the revert block followed by the forward step, with
    the two locals handed from the one to the other. *)
Lemma Run_loop_body fuel fc st :
  IsDone (eng st) = false ->
  Run_loop World GetStageProgress since (S fuel) fc st =
    bind (revertSection World GetStageProgress since fc)
      (fun r =>
         match r with
         | inl e => ret (inl e)
         | inr (firstCycle, invalidBlockRevert) =>
             bind (forwardSection World GetStageProgress since firstCycle invalidBlockRevert)
               (fun e =>
                  match e with
                  | Some e => ret (inl e)
                  | None => Run_loop World GetStageProgress since fuel firstCycle
                  end)
         end) st.
Proof. intros H. cbn [Run_loop]. rewrite H. reflexivity. Qed.

(** Without a pending revert the flag of the iteration is false. *)
Lemma revertSection_no_revert fc (st : state World) :
  revertPoint (eng st) = None ->
  revertSection World GetStageProgress since fc st = (Val (inr (fc, false)), st).
Proof.
  intros H. unfold revertSection, bind, get_eng, ret. simpl. rewrite H. reflexivity.
Qed.

(** The resets after the revert pass.  With a revert pending at [rp],
    once the revert pass over the revert order has gone through, the
    engine has moved [rp] to
    [prevRevertPoint], has no revert point, has the zero hash as invalid
    block and stands at the first stage; [firstCycle] is false; the
    invalid-block-revert flag is true exactly when the invalid block was not
    zero; and when the first stage is enabled (and its progress can be
    read) the forward step of this same iteration calls its Exec with that
    flag. *)
Theorem revert_section_resets fc (st st' : state World) fc' flag rp :
  revertPoint (eng st) = Some rp ->
  revertSection World GetStageProgress since fc st = (Val (inr (fc', flag)), st') ->
  prevRevertPoint (eng st') = Some rp /\
  revertPoint (eng st') = None /\
  invalidBlock (eng st') = 0%Z /\
  currentStage (eng st') = 0%nat /\
  fc' = false /\
  flag = bool_decide (invalidBlock (eng st) ≠ 0%Z) /\
  (forall first bn,
     stages (eng st') !! 0%nat = Some first ->
     Disabled first = false ->
     GetStageProgress (world st') (ID first) (isBeacon (eng st')) = inr bn ->
     calls (forwardSection World GetStageProgress since fc' flag st').2
       = calls st' ++ [CallExec (ID first) false flag (mkStageState (ID first) bn)]).
Proof.
  intros Hrp H. unfold revertSection in H.
  apply bind_Val in H as (s & st0 & Hget & H). injection Hget as <- <-.
  rewrite Hrp in H.
  apply bind_Val in H as (e & st1 & Hpass & H).
  assert (revertPoint (eng st1) = Some rp) as Hrp1.
  { rewrite <- Hrp. revert Hpass. by apply keeps_revertPass. }
  assert (invalidBlock (eng st1) = invalidBlock (eng st)) as Hib1.
  { revert Hpass. by apply keeps_revertPass. }
  assert (stages (eng st1) = stages (eng st)) as Hst1.
  { revert Hpass. by apply keeps_revertPass. }
  destruct e; [discriminate|].
  unfold modify_eng, get_eng, bind, ret in H. simpl in H.
  destruct (stages (eng st1)) as [|first l] eqn:Hstages; simpl in H; [discriminate|].
  unfold SetCurrentStage, modify_eng, get_eng, bind, ret in H. simpl in H.
  rewrite Hstages, stage_index_head in H. simpl in H.
  injection H as <- <- <-. simpl. rewrite Hrp1, Hib1.
  repeat split; auto.
  intros first' bn Hfirst Hen Hbn.
  unfold forwardSection, bind, get_eng. simpl. rewrite Hfirst, Hen.
  unfold runStage, stageState, bind, get_eng, get_world, ret. simpl.
  rewrite Hbn. simpl.
  destruct (ex_revertTo _) as [[p h]|]; simpl;
    destruct (ex_err _); simpl; try reflexivity;
    unfold LogPrefix, bind, get_eng, ret, raise; simpl;
    destruct (_ <? _)%nat; reflexivity.
Qed.

End EngineFacts.

(** ** A two-stage engine

    The world counts the runs of the Bodies stage; at its first run the
    stage finds an invalid block and asks for a revert to 5. *)
Definition progress10 (w : nat) (id : string) (b : bool) : error + Z := inr 10%Z.
Definition progressHeads3 (w : nat) (id : string) (b : bool) : error + Z :=
  if String.eqb id "Heads" then inr 3%Z else inr 10%Z.
Definition size0 (w : nat) (b : string) : error + Z := inr 0%Z.
Definition instant (w : nat) : Z := 0%Z.

Definition headsHandler : StageHandler nat :=
  mkHandler (fun _ _ _ w => mkExecResult w None None)
            (fun _ _ _ w => (w, None))
            (fun _ _ w => (w, None)).

Definition bodiesHandler : StageHandler nat :=
  mkHandler (fun _ _ _ w =>
               mkExecResult (S w) None
                 (if (w =? 0)%nat then Some (5%Z, 2989%Z) else None))
            (fun _ _ _ w => (w, None))
            (fun _ _ w => (w, None)).

Definition Heads (disabled : bool) : Stage nat := mkStage "Heads" headsHandler disabled.
Definition BodiesStage : Stage nat := mkStage "Bodies" bodiesHandler false.

Definition engine (headsDisabled : bool) (revertPoint : option Z) (invalidBlock : Z)
  : StagedStreamSync nat :=
  mkSync false revertPoint None invalidBlock 0
         [Heads headsDisabled; BodiesStage]
         [Some BodiesStage; Some (Heads headsDisabled)]
         [Some (Heads headsDisabled); Some BodiesStage]
         [].

(** A fresh cycle. *)
Definition fresh_cycle (headsDisabled : bool) : state nat :=
  mkState (engine headsDisabled None 0%Z) 0 [].

(** A cycle entered with a revert to 5 pending for the invalid block 2989. *)
Definition revert_pending : state nat :=
  mkState (engine false (Some 5%Z) 2989%Z) 1 [].

Definition run_cycle (headsDisabled : bool) : res (option error) * state nat :=
  Run nat progress10 progress10 size0 [] instant 10 false true (fresh_cycle headsDisabled).

Lemma Run_success_final_state_cycle :
  (run_cycle false).1 = Val None /\
  currentStage (eng (run_cycle false).2) = 0%nat /\
  revertPoint (eng (run_cycle false).2) = None.
Proof.
  split; [reflexivity|].
  apply (Run_success_final_state progress10 progress10 size0 [] instant
           10 false true (fresh_cycle false) (run_cycle false).2).
  vm_compute. reflexivity.
Defined.

Lemma revertStage_skips_Heads :
  revertStage nat progressHeads3 instant true (Heads false) revert_pending
    = (Val None, revert_pending).
Proof.
  apply (revertStage_skips_up_to_revert_point progressHeads3 instant true (Heads false)
           revert_pending 5%Z 3%Z); [reflexivity | reflexivity | lia].
Defined.

Lemma revert_section_resets_pending :
  let st' := (revertSection nat progress10 instant true revert_pending).2 in
  prevRevertPoint (eng st') = Some 5%Z /\
  revertPoint (eng st') = None /\
  invalidBlock (eng st') = 0%Z /\
  currentStage (eng st') = 0%nat /\
  calls (forwardSection nat progress10 instant false true st').2
    = calls st' ++ [CallExec "Heads" false true (mkStageState "Heads" 10%Z)].
Proof.
  intros st'.
  assert (revertSection nat progress10 instant true revert_pending
            = (Val (inr (false, true)), st')) as Hrun by (vm_compute; reflexivity).
  destruct (revert_section_resets progress10 instant true revert_pending st'
              false true 5%Z eq_refl Hrun)
    as (H1 & H2 & H3 & H4 & _ & _ & H7).
  split; [exact H1|]. split; [exact H2|]. split; [exact H3|]. split; [exact H4|].
  apply (H7 (Heads false) 10%Z); vm_compute; reflexivity.
Defined.

(** The flag with the first stage disabled.  The
    Bodies stage asks for a revert with the invalid block 2989; the revert
    pass runs (the Revert call carries the invalid block); the forward pass
    that follows skips the disabled stage and runs Bodies with the flag
    unset: no Exec call of the cycle is given the invalid-block-revert
    flag. *)
Lemma invalid_block_flag_dropped :
  (run_cycle true).1 = Val None /\
  calls (run_cycle true).2 =
    [CallExec "Bodies" true false (mkStageState "Bodies" 10%Z);
     CallRevert "Bodies" true (mkRevertState "Bodies" 5%Z 10%Z 2989%Z)
                (mkStageState "Bodies" 10%Z);
     CallExec "Bodies" false false (mkStageState "Bodies" 10%Z);
     CallCleanUp "Bodies" false (mkCleanUpState "Bodies" 10%Z 10%Z)] /\
  prevRevertPoint (eng (run_cycle true).2) = Some 5%Z /\
  forall id fc s, CallExec id fc true s ∉ calls (run_cycle true).2.
Proof.
  split; [reflexivity|]. split; [reflexivity|]. split; [reflexivity|].
  intros id fc s H.
  change (calls (run_cycle true).2) with
    [CallExec "Bodies" true false (mkStageState "Bodies" 10%Z);
     CallRevert "Bodies" true (mkRevertState "Bodies" 5%Z 10%Z 2989%Z)
                (mkStageState "Bodies" 10%Z);
     CallExec "Bodies" false false (mkStageState "Bodies" 10%Z);
     CallCleanUp "Bodies" false (mkCleanUpState "Bodies" 10%Z 10%Z)] in H.
  repeat (apply elem_of_cons in H as [H|H]; [discriminate H|]).
  inversion H.
Qed.

End EngineProps.

(* ===================================================================== *)
(** * Properties of the Bodies stage                                      *)
(* ===================================================================== *)

Module BodiesProps.
Import Bodies.

Section BodiesFacts.
Variable env : Env.

(** The worker contract's check of a response, in the words of the design:
    no transport error; blocks non-nil; non-empty; as many as requested;
    each longer than one byte. *)
Definition valid_response (bns : list Z) (r : RawResponse) : bool :=
  match rr_err r, rr_blockBytes r with
  | None, Some blockBytes =>
      negb (length blockBytes =? 0)%nat
      && (length blockBytes =? length bns)%nat
      && forallb (fun bb => (1 <? len bb)%nat) blockBytes
  | _, _ => false
  end.

(** The event marks the stream failed or removes it. *)
Definition marks_stream (stid : string) (e : event) : bool :=
  match e with
  | EvStreamFailed s _ | EvRemoveStream s => String.eqb s stid
  | _ => false
  end.

(** The event writes to a bucket or reports a result to the download
    manager. *)
Definition is_write_or_result (e : event) : bool :=
  match e with
  | EvPut _ _ _ _ | EvHandleRequestResult _ _ _ _ _ => true
  | _ => false
  end.

(** The transport error is a cancellation or an expired deadline. *)
Definition cancelled (e : option error) : bool :=
  match e with
  | Some e => isCanceled e || isDeadlineExceeded e
  | None => false
  end.

Lemma forallb_len_valid (l : list (option (list Z))) :
  forallb (fun bb => negb (len bb <=? 1)%nat) l = forallb (fun bb => (1 <? len bb)%nat) l.
Proof.
  induction l as [|bb l IH]; simpl; [done|]. rewrite IH. f_equal.
  destruct (Nat.leb_spec (len bb) 1), (Nat.ltb_spec 1 (len bb)); simpl; auto; lia.
Qed.

(** What the worker does with a response that passes the check. *)
Lemma worker_on_valid bns hashes w tr blockBytes :
  hashes <> [] ->
  let r := GetRawBlocksByHashes env tr hashes in
  valid_response bns r = true ->
  rr_blockBytes r = Some blockBytes ->
  runBlockWorker env bns hashes w tr =
    (e <- saveBlocks env None bns blockBytes (rr_sigBytes r) w ;;
     match e with
     | Some _ => raise (PanicError ErrSaveBlocksToDbFailed)
     | None =>
         _ <- emit (EvHandleRequestResult bns blockBytes (rr_sigBytes r) w (rr_stid r)) ;;
         ret None
     end) (tr ++ [EvGetRawBlocksByHashes hashes]).
Proof.
  intros Hne r Hv Hbb. unfold runBlockWorker.
  destruct hashes as [|h hashes]; [done|]. cbn [length Nat.eqb].
  unfold bind at 1. unfold history. unfold bind at 1. unfold emit at 1.
  fold r. unfold valid_response in Hv.
  destruct (rr_err r); [discriminate|]. rewrite Hbb in Hv |- *.
  apply andb_prop in Hv as [Hv H3]. apply andb_prop in Hv as [H1 H2].
  apply negb_true_iff in H1. rewrite H1, H2. simpl negb. cbv iota.
  rewrite forallb_len_valid, H3. reflexivity.
Qed.

(** What the worker does with a response that fails it. *)
Lemma worker_on_invalid bns hashes w tr :
  hashes <> [] ->
  let r := GetRawBlocksByHashes env tr hashes in
  valid_response bns r = false ->
  exists err evs,
    runBlockWorker env bns hashes w tr
      = (Val (Some err), tr ++ EvGetRawBlocksByHashes hashes :: evs) /\
    EvHandleRequestError bns err (rr_stid r) ∈ evs /\
    existsb (marks_stream (rr_stid r)) evs = negb (cancelled (rr_err r)) /\
    forallb (fun e => negb (is_write_or_result e)) evs = true.
Proof.
  intros Hne r Hv. unfold runBlockWorker.
  destruct hashes as [|h hashes]; [done|]. cbn [length Nat.eqb].
  unfold bind at 1. unfold history. unfold bind at 1. unfold emit at 1.
  fold r. unfold valid_response in Hv. unfold cancelled.
  assert (forall (err : error) (evs : list event) tr0,
            EvHandleRequestError bns err (rr_stid r) ∈ evs ->
            existsb (marks_stream (rr_stid r)) evs = true ->
            forallb (fun e => negb (is_write_or_result e)) evs = true ->
            tr0 = (tr ++ [EvGetRawBlocksByHashes (h :: hashes)]) ++ evs ->
            exists err' evs',
              (Val (Some err), tr0)
                = (Val (Some err'), tr ++ EvGetRawBlocksByHashes (h :: hashes) :: evs') /\
              EvHandleRequestError bns err' (rr_stid r) ∈ evs' /\
              existsb (marks_stream (rr_stid r)) evs' = true /\
              forallb (fun e => negb (is_write_or_result e)) evs' = true) as Hfin.
  { intros err evs tr0 H1 H2 H3 ->. exists err, evs. rewrite <- app_assoc. auto. }
  destruct (rr_err r) as [e|].
  - destruct (isCanceled e || isDeadlineExceeded e) eqn:Hc.
    + apply orb_true_iff in Hc.
      replace (negb (isCanceled e) && negb (isDeadlineExceeded e)) with false
        by (destruct Hc as [-> | ->]; simpl; auto using andb_false_r).
      eexists _, [_]. unfold bind, emit, ret. rewrite <- app_assoc.
      repeat split; auto. apply list_elem_of_singleton; auto.
    + apply orb_false_iff in Hc as [-> ->]. cbn [negb andb].
      unfold bind, emit, ret. rewrite <- !app_assoc.
      eapply Hfin; [| | |by rewrite <- app_assoc]; cbn; rewrite ?String.eqb_refl; auto.
      set_solver.
  - cbn [negb].
    destruct (rr_blockBytes r) as [bbs|].
    + destruct (length bbs =? 0)%nat eqn:H1; cbn [negb andb] in Hv.
      { unfold bind, emit, ret. rewrite <- !app_assoc.
        eapply Hfin; [| | |by rewrite <- app_assoc]; cbn; rewrite ?String.eqb_refl; auto.
        set_solver. }
      destruct (length bbs =? length bns)%nat eqn:H2; cbn [negb andb] in Hv |- *.
      2:{ unfold bind, emit, ret. rewrite <- !app_assoc.
        eapply Hfin; [| | |by rewrite <- app_assoc]; cbn; rewrite ?String.eqb_refl; auto.
        set_solver. }
      rewrite forallb_len_valid, Hv. cbn [negb].
      unfold bind, emit, ret. rewrite <- !app_assoc.
      eapply Hfin; [| | |by rewrite <- app_assoc]; cbn; rewrite ?String.eqb_refl; auto.
      set_solver.
    + unfold bind, emit, ret. rewrite <- !app_assoc.
      eapply Hfin; [| | |by rewrite <- app_assoc]; cbn; rewrite ?String.eqb_refl; auto.
      set_solver.
Qed.


(** C7 (as amended).  For a batch with hashes, the worker asks the transport
    once.  A response that passes the check (no error, blocks non-nil,
    non-empty, as many as block numbers, each longer than one byte) is
    saved, and when the save goes through the download manager is told the
    result (a failed save is a panic).  Any other response makes the worker
    return an error after it has told the download manager of the error with
    the batch's block numbers and the serving stream; it marks the stream
    failed or removes it unless the transport error was a cancellation or an
    expired deadline; it writes nothing and reports no result. *)
Theorem worker_contract bns hashes w tr :
  hashes <> [] ->
  let r := GetRawBlocksByHashes env tr hashes in
  let tr1 := tr ++ [EvGetRawBlocksByHashes hashes] in
  if valid_response bns r then
    exists blockBytes,
      rr_blockBytes r = Some blockBytes /\
      match saveBlocks env None bns blockBytes (rr_sigBytes r) w tr1 with
      | (Val None, tr2) =>
          runBlockWorker env bns hashes w tr
            = (Val None,
               tr2 ++ [EvHandleRequestResult bns blockBytes (rr_sigBytes r) w (rr_stid r)])
      | (Val (Some _), tr2) =>
          runBlockWorker env bns hashes w tr
            = (Panic (PanicError ErrSaveBlocksToDbFailed), tr2)
      | (Panic p, tr2) => runBlockWorker env bns hashes w tr = (Panic p, tr2)
      | (Blocked, tr2) => runBlockWorker env bns hashes w tr = (Blocked, tr2)
      | (OutOfFuel, tr2) => runBlockWorker env bns hashes w tr = (OutOfFuel, tr2)
      end
  else
    exists err evs,
      runBlockWorker env bns hashes w tr = (Val (Some err), tr1 ++ evs) /\
      EvHandleRequestError bns err (rr_stid r) ∈ evs /\
      existsb (marks_stream (rr_stid r)) evs = negb (cancelled (rr_err r)) /\
      forallb (fun e => negb (is_write_or_result e)) evs = true.
Proof.
  intros Hne r tr1. destruct (valid_response bns r) eqn:Hv.
  - assert (exists blockBytes, rr_blockBytes r = Some blockBytes) as [bbs Hbb].
    { unfold valid_response in Hv. destruct (rr_err r); [discriminate|].
      destruct (rr_blockBytes r); [eauto | discriminate]. }
    exists bbs. split; [exact Hbb|].
    rewrite (worker_on_valid bns hashes w tr bbs Hne Hv Hbb). fold r tr1.
    unfold bind, emit, ret, raise.
    destruct (saveBlocks env None bns bbs (rr_sigBytes r) w tr1) as [[[e|]|p| |] tr2];
      reflexivity.
  - destruct (worker_on_invalid bns hashes w tr Hne Hv) as (err & evs & H1 & H2 & H3 & H4).
    exists err, evs. unfold tr1. rewrite <- app_assoc. auto.
Qed.

(** ** The download loop and storage failures *)

Lemma fetchLoop_length bns : forall acc hs,
  fetchLoop env bns acc = (hs, None) -> length hs = (length acc + length bns)%nat.
Proof.
  induction bns as [|bn bns IH]; intros acc hs; simpl.
  - intros [= <-]. lia.
  - destruct (GetOne env bn); [discriminate|].
    intros H. apply IH in H. rewrite H, length_app. simpl. lia.
Qed.

Lemma fetchLoop_fails bns : forall acc,
  (exists bn e, bn ∈ bns /\ GetOne env bn = inl e) ->
  exists hs e, fetchLoop env bns acc = (hs, Some e).
Proof.
  induction bns as [|bn bns IH]; intros acc (bn' & e & Hin & Hget).
  - inversion Hin.
  - simpl. destruct (GetOne env bn) as [e'|b] eqn:E; [eauto|].
    apply IH. exists bn', e. split; [|done].
    apply elem_of_cons in Hin as [->|Hin]; [congruence | done].
Qed.

(** The download loop, started with the events [tr] behind it, ends in the
    panic [q] because a read of the block hashes or a save of downloaded
    blocks failed, possibly after batches that went through. *)
Inductive storage_panic : nat -> list event -> panic -> list event -> Prop :=
| read_fails fuel tr :
    ctxDone env tr = false ->
    (exists bn e, bn ∈ GetNextBatch env tr /\ GetOne env bn = inl e) ->
    storage_panic (S fuel) tr (PanicError ErrReadBlockHashesFromDBFailed)
                  (tr ++ [EvGetNextBatch])
| save_fails fuel tr hashes blockBytes e tr' :
    let batch := GetNextBatch env tr in
    let tr1 := tr ++ [EvGetNextBatch] in
    let r := GetRawBlocksByHashes env tr1 hashes in
    ctxDone env tr = false ->
    batch <> [] ->
    fetchBlockHashes env batch = (hashes, None) ->
    Concurrency env <> 0%nat ->
    valid_response batch r = true ->
    rr_blockBytes r = Some blockBytes ->
    saveBlocks env None batch blockBytes (rr_sigBytes r)
               (workerFor env tr1 mod Concurrency env)
               (tr1 ++ [EvGetRawBlocksByHashes hashes]) = (Val (Some e), tr') ->
    storage_panic (S fuel) tr (PanicError ErrSaveBlocksToDbFailed) tr'
| after_batch fuel tr hashes x tr' q tr'' :
    let batch := GetNextBatch env tr in
    let tr1 := tr ++ [EvGetNextBatch] in
    ctxDone env tr = false ->
    batch <> [] ->
    fetchBlockHashes env batch = (hashes, None) ->
    Concurrency env <> 0%nat ->
    runBlockWorker env batch hashes (workerFor env tr1 mod Concurrency env) tr1
      = (Val x, tr') ->
    storage_panic fuel tr' q tr'' ->
    storage_panic (S fuel) tr q tr''.

Lemma length_eqb_0 {A} (l : list A) : l <> [] -> (length l =? 0)%nat = false.
Proof. destruct l; [done | reflexivity]. Qed.

Lemma fetch_ok_nonempty batch hashes :
  batch <> [] -> fetchBlockHashes env batch = (hashes, None) ->
  hashes <> [] /\ (length batch =? length hashes)%nat = true.
Proof.
  intros Hne H. destruct batch as [|bn batch]; [done|].
  unfold fetchBlockHashes in H. apply fetchLoop_length in H. simpl in H.
  split; [destruct hashes; [discriminate | done]|].
  apply Nat.eqb_eq. simpl. lia.
Qed.

Lemma storage_panic_loop fuel tr q tr' :
  storage_panic fuel tr q tr' -> runDownloadLoop env fuel tr = (Panic q, tr').
Proof.
  induction 1 as [fuel tr Hctx Hbad
                 |fuel tr hashes bbs e tr' batch tr1 r Hctx Hne Hfetch Hc Hv Hbb Hsave
                 |fuel tr hashes x tr' q tr'' batch tr1 Hctx Hne Hfetch Hc Hw _ IH].
  - cbn [runDownloadLoop]. unfold bind at 1, history. rewrite Hctx.
    unfold bind at 1, emit.
    assert (GetNextBatch env tr <> []) as Hne.
    { destruct Hbad as (bn & _ & Hin & _). intros E. rewrite E in Hin. inversion Hin. }
    rewrite (length_eqb_0 _ Hne).
    destruct (GetNextBatch env tr) as [|bn batch] eqn:Eb; [done|].
    destruct (fetchLoop_fails (bn :: batch) [] Hbad) as (hs & e & Hf).
    unfold fetchBlockHashes. rewrite Hf. reflexivity.
  - cbn [runDownloadLoop]. unfold bind at 1, history. rewrite Hctx.
    unfold bind at 1, emit. fold batch tr1.
    rewrite (length_eqb_0 _ Hne), Hfetch.
    destruct (fetch_ok_nonempty _ _ Hne Hfetch) as [Hh ->]. cbn [negb].
    apply Nat.eqb_neq in Hc. rewrite Hc.
    unfold bind at 1, history. unfold bind at 1.
    rewrite (worker_on_valid batch hashes _ tr1 bbs Hh Hv Hbb).
    unfold bind at 1. fold r. rewrite Hsave. reflexivity.
  - cbn [runDownloadLoop]. unfold bind at 1, history. rewrite Hctx.
    unfold bind at 1, emit. fold batch tr1.
    rewrite (length_eqb_0 _ Hne), Hfetch.
    destruct (fetch_ok_nonempty _ _ Hne Hfetch) as [Hh ->]. cbn [negb].
    apply Nat.eqb_neq in Hc. rewrite Hc.
    unfold bind at 1, history. unfold bind at 1. rewrite Hw. exact IH.
Qed.

(** [Exec] gets as far as the download loop: the stage is not skipped, its
    transaction is there, the head is below the target, the progress is
    read (and the block DBs are cleaned when it is not past the head), and
    there is something to download from [start] on.  [tr1] is the history
    at the point where the download manager is made. *)
Definition reaches_download (txNil : bool) (tr tr1 : list event) (start : Z) : Prop :=
  initSync env = true /\ isEpochChain env = false /\
  (txNil = true -> BeginRw env = None) /\
  (currentBlockNumber env < targetBN env)%Z /\
  exists currProgress,
    CurrentStageProgress env = inr currProgress /\
    (if (currProgress <=? currentBlockNumber env)%Z
     then cleanAllBlockDBs env tr = (Val None, tr1) /\ start = currentBlockNumber env
     else tr1 = tr /\ start = currProgress) /\
    (start < targetHeight env)%Z.

(** C2 (as amended).  When [Exec] gets as far as the download loop and the
    loop meets a failed read of the block hashes or a failed save of
    downloaded blocks, [Exec] does not return: it panics, with
    [ErrReadBlockHashesFromDBFailed] or [ErrSaveBlocksToDbFailed]. *)
Theorem Exec_storage_failure_panics fuel txNil tr tr1 start q tr2 :
  reaches_download txNil tr tr1 start ->
  storage_panic fuel (tr1 ++ [EvNewDownloadManager start (targetHeight env)]) q tr2 ->
  Exec env fuel false txNil tr = (Panic q, tr2) /\
  (q = PanicError ErrReadBlockHashesFromDBFailed \/ q = PanicError ErrSaveBlocksToDbFailed).
Proof.
  intros (Hinit & Hepoch & Htx & Hhead & p & Hprog & Hclean & Hstart) Hpanic.
  split.
  - apply storage_panic_loop in Hpanic.
    unfold Exec. rewrite Hinit, Hepoch. cbn [negb].
    replace (if txNil then BeginRw env else None) with (@None error)
      by (destruct txNil; [by rewrite Htx|done]).
    destruct (Z.leb_spec (targetBN env) (currentBlockNumber env)); [lia|].
    rewrite Hprog.
    destruct (p <=? currentBlockNumber env)%Z.
    + destruct Hclean as [Hclean ->]. unfold bind at 1. unfold bind at 1.
      rewrite Hclean. unfold ret at 1.
      destruct (Z.leb_spec (targetHeight env) (currentBlockNumber env)); [lia|].
      unfold bind at 1, emit. unfold bind at 1. rewrite Hpanic. reflexivity.
    + destruct Hclean as [-> ->]. unfold bind at 1, ret at 1.
      destruct (Z.leb_spec (targetHeight env) p); [lia|].
      unfold bind at 1, emit. unfold bind at 1. rewrite Hpanic. reflexivity.
  - clear -Hpanic. induction Hpanic; auto.
Qed.

(** The stage is skipped: not in long-range init-sync mode, or on the epoch
    chain, or (when no bad block is to be downloaded again) the head has
    reached the target: the target block number of the status, which
    [Exec] compares first, or the target height of the cycle. *)
Definition skips (invalidBlockRevert : bool) : Prop :=
  initSync env = false \/ isEpochChain env = true \/
  (invalidBlockRevert = false /\
   ((targetBN env <= currentBlockNumber env)%Z \/
    (targetHeight env <= currentBlockNumber env)%Z)).

(** The stage is skipped before it looks at its progress. *)
Definition skips_early (invalidBlockRevert : bool) : Prop :=
  initSync env = false \/ isEpochChain env = true \/
  (invalidBlockRevert = false /\ (targetBN env <= currentBlockNumber env)%Z).

(** Clearing a bucket of a worker's block database. *)
Definition clear_event (e : event) : Prop :=
  exists i bucket, e = EvClearBucket (BlockDB i) bucket.

(** [e] is an error of the block database of worker [i]. *)
Definition blockDB_error (i : nat) (e : error) : Prop :=
  blockDB_BeginRw env i = Some e \/
  (exists bucket, blockDB_ClearBucket env i bucket = Some e) \/
  blockDB_Commit env i = Some e.

(** What a skipped stage returns: nil; or the error of opening its own
    transaction, of reading the progress of the stage, or of clearing a
    worker's block database; with fewer block databases than workers the
    clearing indexes past the last one. *)
Inductive skip_result (txNil : bool) : res (option error) -> Prop :=
| skip_nil : skip_result txNil (Val None)
| skip_BeginRw e :
    txNil = true -> BeginRw env = Some e -> skip_result txNil (Val (Some e))
| skip_progress e :
    CurrentStageProgress env = inl e -> skip_result txNil (Val (Some e))
| skip_blockDB i e :
    (i < concurrency env)%nat -> blockDB_error i e -> skip_result txNil (Val (Some e))
| skip_range :
    (numBlockDBs env < concurrency env)%nat ->
    skip_result txNil (Panic (IndexOutOfRange (numBlockDBs env))).

Lemma cleanBlocksDB_cases i tr :
  exists r evs,
    cleanBlocksDB env i tr = (r, tr ++ evs) /\ Forall clear_event evs /\
    (r = Val None \/
     (exists e, r = Val (Some e) /\ blockDB_error i e) \/
     (r = Panic (IndexOutOfRange i) /\ (numBlockDBs env <= i)%nat)).
Proof.
  unfold cleanBlocksDB, blockDB_error, bind, emit, ret, raise.
  destruct (Nat.ltb_spec i (numBlockDBs env)); simpl.
  2: { exists (Panic (IndexOutOfRange i)), []. rewrite app_nil_r. split; [done|].
       split; [constructor|]. right; right. split; [done | lia]. }
  destruct (blockDB_BeginRw env i) as [e|] eqn:Hb.
  { exists (Val (Some e)), []. rewrite app_nil_r. split; [done|]. split; [constructor|].
    right; left. eauto. }
  assert (clear_event (EvClearBucket (BlockDB i) BlocksBucket)) as H1 by (do 2 eexists; done).
  assert (clear_event (EvClearBucket (BlockDB i) BlockSignaturesBucket)) as H2
    by (do 2 eexists; done).
  destruct (blockDB_ClearBucket env i BlocksBucket) as [e|] eqn:Hc1.
  { eexists _, [_]. split; [done|]. split; [by constructor|]. right; left. eauto 6. }
  destruct (blockDB_ClearBucket env i BlockSignaturesBucket) as [e|] eqn:Hc2.
  { eexists _, [_; _]. rewrite <- app_assoc. split; [done|].
    split; [by repeat constructor|]. right; left. eauto 6. }
  eexists _, [_; _]. rewrite <- app_assoc. split; [done|].
  split; [by repeat constructor|].
  destruct (blockDB_Commit env i) as [e|] eqn:Hcm; [right; left; eauto 6 | by left].
Qed.

Lemma cleanFrom_cases n : forall i tr,
  (i <= numBlockDBs env)%nat ->
  exists r evs,
    cleanFrom env i n tr = (r, tr ++ evs) /\ Forall clear_event evs /\
    (r = Val None \/
     (exists j e, (j < i + n)%nat /\ r = Val (Some e) /\ blockDB_error j e) \/
     (r = Panic (IndexOutOfRange (numBlockDBs env)) /\ (numBlockDBs env < i + n)%nat)).
Proof.
  induction n as [|n IH]; intros i tr Hi; cbn [cleanFrom].
  - exists (Val None), []. rewrite app_nil_r. unfold ret. auto.
  - destruct (cleanBlocksDB_cases i tr) as (r & evs & Hrun & Hevs & Hr).
    unfold bind at 1. rewrite Hrun.
    destruct Hr as [->|[(e & -> & He)|[-> Hge]]].
    + destruct (Nat.eq_dec i (numBlockDBs env)) as [E|E].
      * (* the next index is past the end *)
        destruct n as [|n]; cbn [cleanFrom].
        { exists (Val None), evs. unfold ret. auto. }
        destruct (cleanBlocksDB_cases (S i) (tr ++ evs)) as (r' & evs' & Hrun' & Hevs' & Hr').
        exfalso. clear IH Hrun' Hevs' Hr'. revert Hrun.
        unfold cleanBlocksDB. destruct (Nat.ltb_spec i (numBlockDBs env)); [lia|].
        simpl. unfold raise. discriminate.
      * destruct (IH (S i) (tr ++ evs) ltac:(lia)) as (r' & evs' & Hrun' & Hevs' & Hr').
        exists r', (evs ++ evs'). rewrite app_assoc. split; [exact Hrun'|].
        split; [by apply Forall_app|].
        destruct Hr' as [->|[(j & e & Hj & -> & He)|[-> Hlt]]].
        -- by left.
        -- right; left. exists j, e. split; [lia | done].
        -- right; right. split; [done | lia].
    + exists (Val (Some e)), evs. unfold ret. split; [done|]. split; [done|].
      right; left. exists i, e. split; [lia | done].
    + assert (i = numBlockDBs env) as -> by lia.
      exists (Panic (IndexOutOfRange (numBlockDBs env))), evs.
      split; [done|]. split; [done|]. right; right. split; [done | lia].
Qed.

Lemma classic_skips_early invalidBlockRevert :
  skips_early invalidBlockRevert \/ ~ skips_early invalidBlockRevert.
Proof.
  unfold skips_early.
  destruct (initSync env); [|by left; left].
  destruct (isEpochChain env); [by left; right; left|].
  destruct invalidBlockRevert.
  { right. intros [?|[?|[? _]]]; done. }
  destruct (Z.le_gt_cases (targetBN env) (currentBlockNumber env)).
  - left. right; right. done.
  - right. intros [?|[?|[_ ?]]]; [done | done | lia].
Qed.

(** The stage skipped before it reads its progress: nothing happens. *)
Lemma Exec_skip_early fuel invalidBlockRevert txNil tr :
  skips_early invalidBlockRevert ->
  Exec env fuel invalidBlockRevert txNil tr
    = (Val (if initSync env && negb (isEpochChain env) && txNil
            then BeginRw env else None), tr).
Proof.
  unfold skips_early, Exec. intros H.
  destruct (initSync env); [|reflexivity].
  destruct (isEpochChain env); [reflexivity|]. cbn [negb andb].
  destruct H as [H|[H|[-> H]]]; try discriminate.
  destruct txNil.
  - destruct (BeginRw env); [reflexivity|].
    destruct (Z.leb_spec (targetBN env) (currentBlockNumber env)); [reflexivity | lia].
  - destruct (Z.leb_spec (targetBN env) (currentBlockNumber env)); [reflexivity | lia].
Qed.

(** The stage skipped for the target height of the cycle only: it opens
    its transaction, reads its progress and, when that is not above the
    head, clears the workers' block databases; what it returns is what
    these return. *)
Definition skipped_late (txNil : bool) (tr : list event)
  : res (option error) * list event :=
  match (if txNil then BeginRw env else None) with
  | Some e => (Val (Some e), tr)
  | None =>
      match CurrentStageProgress env with
      | inl e => (Val (Some e), tr)
      | inr currProgress =>
          if (currProgress <=? currentBlockNumber env)%Z then cleanAllBlockDBs env tr
          else (Val None, tr)
      end
  end.

Lemma Exec_skip_late fuel txNil tr :
  initSync env = true -> isEpochChain env = false ->
  (currentBlockNumber env < targetBN env)%Z ->
  (targetHeight env <= currentBlockNumber env)%Z ->
  Exec env fuel false txNil tr = skipped_late txNil tr.
Proof.
  intros Hinit Hepoch Hbn Hcycle. unfold Exec, skipped_late. rewrite Hinit, Hepoch. cbn [negb].
  destruct (if txNil then BeginRw env else None) as [e|]; [reflexivity|].
  destruct (Z.leb_spec (targetBN env) (currentBlockNumber env)); [lia|].
  destruct (CurrentStageProgress env) as [e|p]; [reflexivity|].
  destruct (Z.leb_spec p (currentBlockNumber env)) as [Hp_le|Hp_gt].
  - unfold bind at 1. unfold bind at 1.
    destruct (cleanAllBlockDBs env tr) as [[[e|]|q| |] tr1]; try reflexivity.
    unfold ret at 1.
    destruct (Z.leb_spec (targetHeight env) (currentBlockNumber env)); [reflexivity | lia].
  - unfold bind at 1, ret at 1.
    destruct (Z.leb_spec (targetHeight env) p); [reflexivity | lia].
Qed.

(** C5 (as amended).  A skipped stage returns, whatever the fuel, and all it
    does to the outside is to clear buckets of the workers' block
    databases: it makes no transport call and starts no download manager
    or worker.  It returns nil, or the error of opening its own
    transaction, of reading the progress of the stage or of clearing a
    block database (or it panics on a block database that does not
    exist).  When it is skipped for the mode, the epoch chain or the
    target block number of the status, it does nothing at all and returns
    nil, except for the error of opening its own transaction; when it is
    skipped for the target height of the cycle only, it does and returns
    what [skipped_late] says. *)
Theorem Exec_skip_no_transport fuel invalidBlockRevert txNil tr :
  skips invalidBlockRevert ->
  exists r evs,
    Exec env fuel invalidBlockRevert txNil tr = (r, tr ++ evs) /\
    skip_result txNil r /\
    Forall clear_event evs /\
    existsb is_transport_call evs = false /\
    (forall start target, EvNewDownloadManager start target ∉ evs) /\
    (skips_early invalidBlockRevert ->
       evs = [] /\
       r = Val (if initSync env && negb (isEpochChain env) && txNil
                then BeginRw env else None)) /\
    (~ skips_early invalidBlockRevert -> (r, tr ++ evs) = skipped_late txNil tr).
Proof.
  intros Hskip.
  assert (forall evs, Forall clear_event evs ->
            existsb is_transport_call evs = false /\
            forall start target, EvNewDownloadManager start target ∉ evs) as Hquiet.
  { intros evs Hevs. induction Hevs as [|e evs (i & bucket & ->) _ [IH1 IH2]].
    - split; [done|]. intros start target Hin. inversion Hin.
    - split; [exact IH1|]. intros start target Hin.
      apply elem_of_cons in Hin as [Hin|Hin]; [discriminate | by eapply IH2]. }
  destruct (classic_skips_early invalidBlockRevert) as [He|Hnot].
  { eexists _, []. rewrite app_nil_r.
    split; [by apply Exec_skip_early|].
    split.
    { destruct (initSync env), (isEpochChain env), txNil; simpl; try constructor.
      destruct (BeginRw env) as [e|] eqn:Hb; [by eapply skip_BeginRw | constructor]. }
    split; [constructor|]. split; [done|].
    split; [intros start target Hin; inversion Hin|]. split; [done|]. by intros []. }
  assert (initSync env = true /\ isEpochChain env = false /\ invalidBlockRevert = false /\
          (currentBlockNumber env < targetBN env)%Z /\
          (targetHeight env <= currentBlockNumber env)%Z)
    as (Hinit & Hepoch & -> & Hbn & Hcycle).
  { unfold skips, skips_early in *.
    destruct (initSync env); [|tauto]. destruct (isEpochChain env); [tauto|].
    destruct Hskip as [?|[?|[-> [?|?]]]]; try done; [tauto|].
    repeat split; try done.
    destruct (Z.lt_ge_cases (currentBlockNumber env) (targetBN env)); [done|].
    exfalso. apply Hnot. right; right. split; [done | lia]. }
  rewrite (Exec_skip_late fuel txNil tr Hinit Hepoch Hbn Hcycle).
  assert (exists r evs,
            skipped_late txNil tr = (r, tr ++ evs) /\ skip_result txNil r /\
            Forall clear_event evs) as (r & evs & Hrun & Hr & Hevs).
  { unfold skipped_late.
    destruct txNil, (BeginRw env) as [e|] eqn:Hb; simpl;
      try (exists (Val (Some e)), []; rewrite app_nil_r; split; [done|];
           split; [by eapply skip_BeginRw | constructor]).
    all: destruct (CurrentStageProgress env) as [e'|p] eqn:Hp;
      [exists (Val (Some e')), []; rewrite app_nil_r; split; [done|];
       split; [by eapply skip_progress | constructor]|].
    all: destruct (p <=? currentBlockNumber env)%Z;
      [|exists (Val None), []; rewrite app_nil_r; split; [done|];
        split; constructor].
    all: destruct (cleanFrom_cases (concurrency env) 0 tr ltac:(lia))
           as (r & evs & Hrun & Hevs & Hr);
      exists r, evs; split; [exact Hrun|]; split; [|exact Hevs];
      destruct Hr as [->|[(j & e' & Hj & -> & He)|[-> Hlt]]];
      [constructor | by eapply (skip_blockDB _ j e') | apply skip_range; lia]. }
  destruct (Hquiet evs Hevs) as [Hq1 Hq2].
  exists r, evs. rewrite Hrun.
  split; [done|]. split; [done|]. split; [done|]. split; [done|]. split; [done|].
  split; [done | by intros _].
Qed.

End BodiesFacts.

(** ** A node two blocks behind

    One worker, one block DB.  The download manager hands out the batch
    11, 12 once.  The head is [head], the target 12, the stage progress
    10.  The peer "sA" answers requests by hash with [byHashes]; requests
    by number are answered by "sGood".  *)
Definition batches_asked (tr : list event) : nat :=
  length (List.filter (fun e => match e with EvGetNextBatch => true | _ => false end) tr).

Definition node (head : Z) (GetOne : Z -> error + option (list Z))
    (Put : dbid -> string -> Z -> option error) (Update : Z -> option error)
    (byHashes : RawResponse) : Env :=
  mkEnv true false 12 head 12
        105 ["sBad"]
        1 1 1
        None (inr 10%Z) GetOne Update None Put
        (fun _ => None) (fun _ _ => None) (fun _ => None)
        (fun _ _ => byHashes)
        (fun _ _ => mkRawResponse (Some [Some [248; 5]%Z]) [Some [9]%Z] "sGood" None)
        (fun _ => 1)
        (fun tr => if (batches_asked tr =? 0)%nat then [11; 12]%Z else [])
        (fun _ => false)
        (fun _ => 0).

Definition hashOf (bn : Z) : error + option (list Z) := inr (Some (replicate 32 bn)).
Definition putOk (d : dbid) (b : string) (bn : Z) : option error := None.
Definition updateOk (p : Z) : option error := None.
Definition goodBlocks : RawResponse :=
  mkRawResponse (Some [Some [248; 1]%Z; Some [248; 2]%Z]) [Some [7]%Z; Some [8]%Z] "sA" None.
Definition hashes_11_12 : list (list Z) := [replicate 32 11%Z; replicate 32 12%Z].

Definition cleaned : list event :=
  [EvClearBucket (BlockDB 0) BlocksBucket; EvClearBucket (BlockDB 0) BlockSignaturesBucket].

(** Scenario S1, with head 10: the two blocks are fetched, saved and
    reported, and the progress is set to 12. *)
Example Exec_happy_path :
  Exec (node 10 hashOf putOk updateOk goodBlocks) 5 false false [] =
    (Val None,
     cleaned ++
     [EvNewDownloadManager 10 12; EvGetNextBatch; EvGetRawBlocksByHashes hashes_11_12;
      EvPut (BlockDB 0) BlocksBucket 11 (Some [248; 1]%Z);
      EvPut (BlockDB 0) BlockSignaturesBucket 11 (Some [7]%Z);
      EvPut (BlockDB 0) BlocksBucket 12 (Some [248; 2]%Z);
      EvPut (BlockDB 0) BlockSignaturesBucket 12 (Some [8]%Z);
      EvHandleRequestResult [11; 12]%Z [Some [248; 1]%Z; Some [248; 2]%Z]
                            [Some [7]%Z; Some [8]%Z] 0 "sA";
      EvGetNextBatch; EvUpdateProgress 12]).
Proof. vm_compute. reflexivity. Qed.

(** *** Storage failures *)

Definition read_fails_at_12 (bn : Z) : error + option (list Z) :=
  if (bn =? 12)%Z then inl (ErrMsg "mdbx: read failed") else hashOf bn.
Definition disk_full (d : dbid) (b : string) (bn : Z) : option error :=
  Some (ErrMsg "disk full").

(** C2, the claim as it stands, fails.  The hash of block 12 cannot be read
    from the BlockHashes bucket: [Exec] does not return an error, it
    panics. *)
Lemma Exec_read_failure_is_a_panic :
  Exec (node 10 read_fails_at_12 putOk updateOk goodBlocks) 5 false false [] =
    (Panic (PanicError ErrReadBlockHashesFromDBFailed),
     cleaned ++ [EvNewDownloadManager 10 12; EvGetNextBatch]) /\
  forall e tr,
    Exec (node 10 read_fails_at_12 putOk updateOk goodBlocks) 5 false false []
      <> (Val (Some e), tr).
Proof.
  assert (Exec (node 10 read_fails_at_12 putOk updateOk goodBlocks) 5 false false [] =
            (Panic (PanicError ErrReadBlockHashesFromDBFailed),
             cleaned ++ [EvNewDownloadManager 10 12; EvGetNextBatch])) as H
    by (vm_compute; reflexivity).
  split; [exact H|]. intros e tr. rewrite H. discriminate.
Qed.

Lemma Exec_storage_failure_panics_disk_full :
  Exec (node 10 hashOf disk_full updateOk goodBlocks) 5 false false [] =
    (Panic (PanicError ErrSaveBlocksToDbFailed),
     cleaned ++
     [EvNewDownloadManager 10 12; EvGetNextBatch; EvGetRawBlocksByHashes hashes_11_12;
      EvPut (BlockDB 0) BlocksBucket 11 (Some [248; 1]%Z)]) /\
  (PanicError ErrSaveBlocksToDbFailed = PanicError ErrReadBlockHashesFromDBFailed \/
   PanicError ErrSaveBlocksToDbFailed = PanicError ErrSaveBlocksToDbFailed).
Proof.
  apply (Exec_storage_failure_panics (node 10 hashOf disk_full updateOk goodBlocks)
           5 false [] cleaned 10%Z).
  - unfold reaches_download. repeat split; try reflexivity; try discriminate.
    exists 10%Z. repeat split; reflexivity.
  - apply (save_fails (node 10 hashOf disk_full updateOk goodBlocks) 4
             (cleaned ++ [EvNewDownloadManager 10 12]) hashes_11_12
             [Some [248; 1]%Z; Some [248; 2]%Z] (ErrMsg "disk full")).
    + reflexivity.
    + discriminate.
    + reflexivity.
    + discriminate.
    + reflexivity.
    + reflexivity.
    + reflexivity.
Defined.

(** The third storage failure, a failed save of the stage progress, is only
    logged by [Exec]. *)
Example Exec_progress_failure_is_dropped :
  (Exec (node 10 hashOf putOk (fun _ => Some (ErrMsg "disk full")) goodBlocks)
        5 false false []).1 = Val None.
Proof. vm_compute. reflexivity. Qed.

(** *** Skipping *)

(** C5, the claim as it stands, fails.  The head (12) has reached the
    target (12), but the stage is entered for an invalid-block revert: it
    asks the transport for block 105 again. *)
Lemma Exec_at_target_redownloads_bad_block :
  (targetBN (node 12 hashOf putOk updateOk goodBlocks)
     <= currentBlockNumber (node 12 hashOf putOk updateOk goodBlocks))%Z /\
  Exec (node 12 hashOf putOk updateOk goodBlocks) 5 true false [] =
    (Val None,
     [EvNumStreams; EvGetRawBlocksByNumber [105%Z];
      EvSetDownloadDetails [105%Z] 0 "sGood";
      EvPut MainDB BlocksBucket 105 (Some [248; 5]%Z);
      EvPut MainDB BlockSignaturesBucket 105 (Some [9]%Z)]) /\
  existsb is_transport_call
    (Exec (node 12 hashOf putOk updateOk goodBlocks) 5 true false []).2 = true.
Proof. split; [vm_compute; discriminate|]. split; vm_compute; reflexivity. Qed.

(** The head (12) has reached the target height of the cycle (12) but not
    the target block number of the status (20); the progress of the stage
    is 10.  [openDB] says what opening a worker's block database gives. *)
Definition at_cycle_target (openDB : nat -> option error) : Env :=
  mkEnv true false 20 12 12
        105 ["sBad"]
        1 1 1
        None (inr 10%Z) hashOf updateOk None putOk
        openDB (fun _ _ => None) (fun _ => None)
        (fun _ _ => goodBlocks)
        (fun _ _ => mkRawResponse (Some [Some [248; 5]%Z]) [Some [9]%Z] "sGood" None)
        (fun _ => 1)
        (fun tr => if (batches_asked tr =? 0)%nat then [11; 12]%Z else [])
        (fun _ => false)
        (fun _ => 0).

Lemma Exec_skip_no_transport_at_target :
  exists r evs,
    Exec (at_cycle_target (fun _ => None)) 5 false true [] = (r, [] ++ evs) /\
    skip_result (at_cycle_target (fun _ => None)) true r /\
    Forall clear_event evs /\
    existsb is_transport_call evs = false /\
    (forall start target, EvNewDownloadManager start target ∉ evs).
Proof.
  destruct (Exec_skip_no_transport (at_cycle_target (fun _ => None)) 5 false true [])
    as (r & evs & H1 & H2 & H3 & H4 & H5 & _).
  { right; right. split; [reflexivity|]. right. vm_compute. discriminate. }
  exists r, evs. split; [exact H1|]. split; [exact H2|]. split; [exact H3|].
  split; [exact H4 | exact H5].
Defined.

(** At the target height of the cycle the stage clears the worker's block
    database (the progress is not above the head) and returns nil. *)
Example Exec_at_cycle_target_clears :
  Exec (at_cycle_target (fun _ => None)) 5 false true [] = (Val None, cleaned).
Proof. vm_compute. reflexivity. Qed.

(** There it returns the error of a block database that does not open. *)
Example Exec_at_cycle_target_returns_blockDB_error :
  Exec (at_cycle_target (fun _ => Some (ErrMsg "blockdb: cannot open"))) 5 false true []
    = (Val (Some (ErrMsg "blockdb: cannot open")), []).
Proof. vm_compute. reflexivity. Qed.

(** At the target block number of the status it does nothing. *)
Example Exec_at_status_target_does_nothing :
  Exec (node 12 hashOf putOk updateOk goodBlocks) 5 false true [] = (Val None, []).
Proof. vm_compute. reflexivity. Qed.

(** *** The worker *)

Definition cancelledRequest : RawResponse := mkRawResponse None [] "sA" (Some ContextCanceled).

(** C7, the claim as it stands, fails.  The request is cancelled: the
    worker tells the download manager of the error and returns it, but it
    neither marks the stream failed nor removes it. *)
Lemma worker_leaves_stream_on_cancel :
  runBlockWorker (node 10 hashOf putOk updateOk cancelledRequest)
                 [11; 12]%Z hashes_11_12 0 [] =
    (Val (Some (ErrWrap ContextCanceled "request error")),
     [EvGetRawBlocksByHashes hashes_11_12;
      EvHandleRequestError [11; 12]%Z (ErrWrap ContextCanceled "request error") "sA"]) /\
  existsb (marks_stream "sA")
    (runBlockWorker (node 10 hashOf putOk updateOk cancelledRequest)
                    [11; 12]%Z hashes_11_12 0 []).2 = false.
Proof. split; vm_compute; reflexivity. Qed.

Definition shortBlock : RawResponse :=
  mkRawResponse (Some [Some [248; 1]%Z; Some [0]%Z]) [Some [7]%Z; Some [8]%Z] "sA" None.

Lemma worker_contract_short_block :
  let env := node 10 hashOf putOk updateOk shortBlock in
  let r := GetRawBlocksByHashes env [] hashes_11_12 in
  let tr1 := [] ++ [EvGetRawBlocksByHashes hashes_11_12] in
  if valid_response [11; 12]%Z r then
    exists blockBytes,
      rr_blockBytes r = Some blockBytes /\
      match saveBlocks env None [11; 12]%Z blockBytes (rr_sigBytes r) 0 tr1 with
      | (Val None, tr2) =>
          runBlockWorker env [11; 12]%Z hashes_11_12 0 []
            = (Val None,
               tr2 ++ [EvHandleRequestResult [11; 12]%Z blockBytes (rr_sigBytes r) 0
                                             (rr_stid r)])
      | (Val (Some _), tr2) =>
          runBlockWorker env [11; 12]%Z hashes_11_12 0 []
            = (Panic (PanicError ErrSaveBlocksToDbFailed), tr2)
      | (Panic p, tr2) => runBlockWorker env [11; 12]%Z hashes_11_12 0 [] = (Panic p, tr2)
      | (Blocked, tr2) => runBlockWorker env [11; 12]%Z hashes_11_12 0 [] = (Blocked, tr2)
      | (OutOfFuel, tr2) => runBlockWorker env [11; 12]%Z hashes_11_12 0 [] = (OutOfFuel, tr2)
      end
  else
    exists err evs,
      runBlockWorker env [11; 12]%Z hashes_11_12 0 [] = (Val (Some err), tr1 ++ evs) /\
      EvHandleRequestError [11; 12]%Z err (rr_stid r) ∈ evs /\
      existsb (marks_stream (rr_stid r)) evs = negb (cancelled (rr_err r)) /\
      forallb (fun e => negb (is_write_or_result e)) evs = true.
Proof.
  apply (worker_contract (node 10 hashOf putOk updateOk shortBlock)
           [11; 12]%Z hashes_11_12 0 []).
  discriminate.
Defined.

Example worker_removes_stream_on_short_block :
  runBlockWorker (node 10 hashOf putOk updateOk shortBlock) [11; 12]%Z hashes_11_12 0 [] =
    (Val (Some (ErrMsg "downloadRawBlocks received blockBytes are not valid")),
     [EvGetRawBlocksByHashes hashes_11_12;
      EvHandleRequestError [11; 12]%Z
        (ErrMsg "downloadRawBlocks received blockBytes are not valid") "sA";
      EvRemoveStream "sA"]).
Proof. vm_compute. reflexivity. Qed.

End BodiesProps.

(* ===================================================================== *)
(** * Properties of the Finish stage                                      *)
(* ===================================================================== *)

Module FinishProps.
Import Finish.

Section FinishFacts.
Variable GetBucketName : string -> bool -> string.
Variable BlockHashesBucket ExtraBlockHashesBucket DownloadedBlocksBucket : string.
Variable Cache : Type.
Variable purgeAllBlocksFromCache : Cache -> Cache.
Variable BeginRw : option string.
Variable Commit : option string.
Variable ClearBucket_err : string -> option string.

Abbreviation ClearBucket' := (ClearBucket ClearBucket_err).
Abbreviation clearAll' :=
  (clearAll GetBucketName BlockHashesBucket ExtraBlockHashesBucket DownloadedBlocksBucket
            ClearBucket_err).
Abbreviation cleared' :=
  (cleared GetBucketName BlockHashesBucket ExtraBlockHashesBucket DownloadedBlocksBucket).
Abbreviation Exec' :=
  (Exec GetBucketName BlockHashesBucket ExtraBlockHashesBucket DownloadedBlocksBucket
        Cache purgeAllBlocksFromCache BeginRw Commit ClearBucket_err).








End FinishFacts.

(** ** A beacon-shard store with four buckets *)
Definition beaconName (name : string) (isBeacon : bool) : string :=
  if isBeacon then "Beacon" +:+ name else name.

Definition someHashes : gmap (list Z) (list Z) := {[ [0; 11]%Z := [170]%Z ]}.

Definition beaconStore : gmap string (gmap (list Z) (list Z)) :=
  <["BeaconBlockHashes" := someHashes]>
    (<["BeaconExtraBlockHashes" := someHashes]>
       (<["BeaconDownloadedBlocks" := someHashes]>
          (<["BeaconStageProgress" := someHashes]> ∅))).

Definition beaconState : state (list Z) := mkState beaconStore None [11; 12]%Z.

Definition finishExec : bool -> state (list Z) -> option string * state (list Z) :=
  Exec beaconName "BlockHashes" "ExtraBlockHashes" "DownloadedBlocks"
       (list Z) (fun _ => []) None None (fun _ => None).


Example Exec_empties_block_hashes :
  (finishExec true beaconState).1 = None /\
  contents (view beaconState) "BeaconBlockHashes" = someHashes /\
  contents (view (finishExec true beaconState).2) "BeaconBlockHashes" = ∅ /\
  contents (view (finishExec true beaconState).2) "BeaconExtraBlockHashes" = ∅ /\
  contents (view (finishExec true beaconState).2) "BeaconDownloadedBlocks" = ∅ /\
  contents (view (finishExec true beaconState).2) "BeaconStageProgress" = someHashes /\
  cache (finishExec true beaconState).2 = [].
Proof. repeat split; vm_compute; reflexivity. Qed.

(** [Exec] does not look at what ClearBucket returns: on a store that
    refuses to clear the block-hash index it still returns nil, with the
    index as it was. *)
Example Exec_drops_clear_errors :
  let failing :=
    Exec beaconName "BlockHashes" "ExtraBlockHashes" "DownloadedBlocks"
         (list Z) (fun _ => []) None None
         (fun name => if String.eqb name "BeaconBlockHashes"
                      then Some "mdbx: clear failed" else None) in
  (failing true beaconState).1 = None /\
  contents (view (failing true beaconState).2) "BeaconBlockHashes" = someHashes /\
  contents (view (failing true beaconState).2) "BeaconExtraBlockHashes" = ∅.
Proof. repeat split; vm_compute; reflexivity. Qed.

(** Without a transaction of the caller, a failure to open one is
    returned and nothing is cleared or purged. *)
Example Exec_returns_begin_error :
  let closed :=
    Exec beaconName "BlockHashes" "ExtraBlockHashes" "DownloadedBlocks"
         (list Z) (fun _ => []) (Some "mdbx: closed") None (fun _ => None) in
  closed true beaconState = (Some "mdbx: closed", beaconState).
Proof. vm_compute. reflexivity. Qed.

End FinishProps.

(* ===================================================================== *)
(** * More of the request manager: assignment, streams, close            *)
(* ===================================================================== *)

Module RequestManagerLaws.
Import RequestManager RequestManagerProps.

(** ** pickAvailableStream *)

Lemma pickFrom_sound rm rp ids sp :
  pickFrom rm rp ids = Some sp →
  ∃ id st r,
    id ∈ ids ∧ streams rm !! id = Some sp ∧ heap_st rm !! sp = Some st ∧
    st_req st = None ∧ isStreamAllowed rm rp id = true ∧
    heap_req rm !! rp = Some r ∧ raw_supported (raw r) (st_spec st) = true.
Proof.
  induction ids as [|id ids IH]; simpl; [discriminate|].
  assert (pickFrom rm rp ids = Some sp →
          ∃ id0 st r, id0 ∈ id :: ids ∧ streams rm !! id0 = Some sp ∧
            heap_st rm !! sp = Some st ∧ st_req st = None ∧
            isStreamAllowed rm rp id0 = true ∧ heap_req rm !! rp = Some r ∧
            raw_supported (raw r) (st_spec st) = true) as IH'.
  { intros H. destruct (IH H) as (id0 & st & r & Hin & Hrest).
    exists id0, st, r. split; [by right | done]. }
  destruct (isStreamAllowed rm rp id) eqn:Hal; simpl; [|done].
  destruct (streams rm !! id) as [sp'|] eqn:Hs; [|done].
  destruct (heap_st rm !! sp') as [st|] eqn:Hst; [|done].
  destruct (st_req st) eqn:Hreq; [done|].
  destruct (heap_req rm !! rp) as [r|] eqn:Hr; [|done].
  destruct (raw_supported (raw r) (st_spec st)) eqn:Hsup; [|done].
  intros [= <-]. exists id, st, r. repeat split; auto. by left.
Qed.

Lemma pickFrom_complete rm rp ids :
  pickFrom rm rp ids = None →
  ∀ id sp st r,
    id ∈ ids → streams rm !! id = Some sp → heap_st rm !! sp = Some st →
    heap_req rm !! rp = Some r → isStreamAllowed rm rp id = true →
    st_req st = None → raw_supported (raw r) (st_spec st) = false.
Proof.
  induction ids as [|id ids IH]; simpl; intros Hnone id0 sp st r Hin.
  { inversion Hin. }
  intros Hs Hst Hr Hal Hreq.
  apply elem_of_cons in Hin as [->|Hin].
  - rewrite Hal, Hs, Hst, Hreq, Hr in Hnone. simpl in Hnone.
    destruct (raw_supported (raw r) (st_spec st)); [discriminate | done].
  - eapply IH; eauto.
    destruct (isStreamAllowed rm rp id); simpl in Hnone; [|done].
    destruct (streams rm !! id) as [sp'|]; [|done].
    destruct (heap_st rm !! sp') as [st'|]; [|done].
    destruct (st_req st'); [done|].
    destruct (heap_req rm !! rp) as [r'|]; [|done].
    destruct (raw_supported (raw r') (st_spec st')); [discriminate | done].
Qed.

(** X1.  [pickAvailableStream] returns a stream only if its id is in
    [available], it is registered under that id, it is idle, the request
    allows it and supports its protocol; and it fails only if no stream
    that is available, registered, idle and allowed is supported by the
    request. *)
Theorem pickAvailableStream_spec rm rp :
  match pickAvailableStream rm rp with
  | Some sp =>
      ∃ id st r,
        id ∈ available rm ∧ streams rm !! id = Some sp ∧ heap_st rm !! sp = Some st ∧
        st_req st = None ∧ isStreamAllowed rm rp id = true ∧
        heap_req rm !! rp = Some r ∧ raw_supported (raw r) (st_spec st) = true
  | None =>
      ∀ id sp st r,
        id ∈ available rm → streams rm !! id = Some sp → heap_st rm !! sp = Some st →
        heap_req rm !! rp = Some r → isStreamAllowed rm rp id = true →
        st_req st = None → raw_supported (raw r) (st_spec st) = false
  end.
Proof.
  destruct (pickAvailableStream rm rp) as [sp|] eqn:H.
  - destruct (pickFrom_sound _ _ _ _ H) as (id & st & r & Hin & Hrest).
    exists id, st, r. split; [|done]. by apply elem_of_elements.
  - intros id sp st r Hin. eapply pickFrom_complete; eauto. by apply elem_of_elements.
Qed.

(** ** addPendingRequest and the delivery that answers it *)

Lemma genReqID_from_unused pend ids id rest :
  genReqID_from pend ids = Some (id, rest) → pend !! id = None.
Proof.
  induction ids as [|c ids IH]; simpl; [discriminate|].
  destruct (pend !! c) eqn:E; [exact IH|]. intros [= <- <-]. exact E.
Qed.

(** The manager after [addPendingRequest], written out. *)
Lemma addPendingRequest_closed rp sp rm rm' r st :
  heap_req rm !! rp = Some r →
  heap_st rm !! sp = Some st →
  addPendingRequest rp sp rm = Some rm' →
  ∃ id rest,
    genReqID_from (pendings rm) (rng rm) = Some (id, rest) ∧
    rm' = mkRM
            (<[rp := mkRequest (mkRaw id (raw_name (raw r)) (raw_supported (raw r)))
                               (Some sp) (respC r) (atmDone r) (whitelist r)]> (heap_req rm))
            (<[sp := mkStream (st_id st) (st_spec st) (Some rp)]> (heap_st rm))
            (streams rm)
            (available rm ∖ {[st_id st]})
            (<[id := rp]> (pendings rm))
            (waitings rm) rest.
Proof.
  intros Hr Hst. unfold addPendingRequest, genReqID.
  destruct (genReqID_from (pendings rm) (rng rm)) as [[id rest]|] eqn:Hg; [|discriminate].
  intros [= <-]. exists id, rest. split; [done|].
  unfold SetReqID, set_owner, set_st_req, stream_ID, ReqID. simpl.
  rewrite Hr. simpl. rewrite lookup_insert_eq. simpl. rewrite Hst. simpl.
  rewrite !lookup_insert_eq. simpl. rewrite insert_insert_eq. reflexivity.
Qed.


(** X3.  A request assigned to a registered stream and then answered by
    that stream under the id it was given: [pendings] is as before the
    assignment, the stream is idle and available again, and the request is
    done with exactly that response added. *)
Theorem assign_then_deliver rp sp rm rm1 r st body :
  heap_req rm !! rp = Some r →
  heap_st rm !! sp = Some st →
  streams rm !! st_id st = Some sp →
  atmDone r = false →
  addPendingRequest rp sp rm = Some rm1 →
  let resp := mkResponse (ReqID rm1 rp) body in
  let rm2 := DeliverResponse (st_id st) resp rm1 in
  pendings rm2 = pendings rm ∧
  heap_st rm2 !! sp = Some (mkStream (st_id st) (st_spec st) None) ∧
  st_id st ∈ available rm2 ∧
  (respC <$> heap_req rm2 !! rp) = Some (respC r ++ [mkResponseData (Some resp) (st_id st) None]) ∧
  isDone rm2 rp = true.
Proof.
  intros Hr Hst Hs Hdone Hadd.
  destruct (addPendingRequest_closed _ _ _ _ _ _ Hr Hst Hadd) as (id & rest & Hg & ->).
  apply genReqID_from_unused in Hg.
  unfold DeliverResponse, handleDeliverData, validateDelivery, ReqID, req_owner, stream_ID.
  simpl. rewrite !lookup_insert_eq. simpl. rewrite Hs. rewrite !lookup_insert_eq. simpl.
  rewrite !lookup_insert_eq. simpl.
  rewrite !bool_decide_eq_false_2 by (intros H; by apply H).
  unfold doneWithResponse. simpl. rewrite lookup_insert_eq. simpl. rewrite Hdone.
  unfold removePendingRequest, ReqID, req_owner, clearPendingRequest, set_st_req, stream_ID, isDone.
  repeat first [rewrite lookup_insert_eq | progress simpl].
  rewrite delete_insert_eq.
  repeat split; auto.
  - by apply delete_id.
  - set_solver.
Qed.

(** ** The streams map *)

(** Every key of [streams] leads to a stream object that carries that id. *)
Definition streams_wf (rm : requestManager) : Prop :=
  ∀ id sp, streams rm !! id = Some sp → ∃ st, heap_st rm !! sp = Some st ∧ st_id st = id.

Lemma addNewStream_heap id spec rm sp st :
  heap_st rm !! sp = Some st → heap_st (addNewStream id spec rm) !! sp = Some st.
Proof.
  intros H. unfold addNewStream. simpl.
  rewrite lookup_insert_ne; [done|].
  intros <-. apply (is_fresh (dom (heap_st rm))). apply elem_of_dom. eauto.
Qed.

Lemma addNewStream_wf id spec rm : streams_wf rm → streams_wf (addNewStream id spec rm).
Proof.
  intros Hwf id' sp'. unfold addNewStream at 1. simpl.
  destruct (decide (id' = id)) as [->|Hne].
  - rewrite lookup_insert_eq. intros [= <-]. exists (mkStream id spec None).
    split; [|reflexivity]. unfold addNewStream. simpl. by rewrite lookup_insert_eq.
  - rewrite lookup_insert_ne by done. intros H.
    destruct (Hwf _ _ H) as (st & Hst & Hid). exists st. split; [|done].
    by apply addNewStream_heap.
Qed.

Lemma add_fold added : ∀ rm,
  streams_wf rm →
  let rm' := foldl (λ rm (t : string * string), addNewStream t.1 t.2 rm) rm added in
  streams_wf rm' ∧
  dom (streams rm') = dom (streams rm) ∪ list_to_set added.*1 ∧
  (∀ sp st, heap_st rm !! sp = Some st → heap_st rm' !! sp = Some st).
Proof.
  induction added as [|[id spec] added IH]; intros rm Hwf; simpl.
  - repeat split; auto. set_solver.
  - destruct (IH (addNewStream id spec rm) (addNewStream_wf _ _ _ Hwf)) as (H1 & H2 & H3).
    repeat split; auto.
    + rewrite H2. unfold addNewStream at 1. simpl. rewrite dom_insert_L. set_solver.
    + intros sp st H. apply H3. by apply addNewStream_heap.
Qed.

Lemma stream_ID_doneWithResponse rp d rm sp :
  stream_ID (doneWithResponse rp d rm) sp = stream_ID rm sp.
Proof.
  unfold stream_ID. by rewrite heap_st_doneWithResponse.
Qed.

Lemma stream_ID_removeStream sp rm sp' :
  stream_ID (removeStream sp rm) sp' = stream_ID rm sp'.
Proof.
  unfold removeStream, clearPendingRequest, set_st_req. simpl.
  destruct (heap_st rm !! sp) as [s|] eqn:E; simpl; [|done].
  destruct (st_req s); simpl; [|done]. rewrite ?E.
  rewrite stream_ID_doneWithResponse. unfold stream_ID. simpl.
  destruct (decide (sp' = sp)) as [->|Hne].
  - by rewrite lookup_insert_eq, E.
  - by rewrite lookup_insert_ne.
Qed.

Lemma streams_removeStream sp rm :
  streams (removeStream sp rm) = delete (stream_ID rm sp) (streams rm).
Proof.
  unfold removeStream, clearPendingRequest, set_st_req. simpl.
  destruct (heap_st rm !! sp) as [s|] eqn:E; simpl; [|done].
  destruct (st_req s); simpl; [|done]. rewrite ?E.
  unfold doneWithResponse. simpl.
  match goal with |- streams (match ?o with _ => _ end) = _ => destruct o as [r|] end; [|done].
  destruct (atmDone r); done.
Qed.

Lemma remove_fold removed : ∀ rm,
  dom (streams (foldl (λ rm sp, removeStream sp rm) rm removed))
    = dom (streams rm) ∖ list_to_set (stream_ID rm <$> removed).
Proof.
  induction removed as [|sp removed IH]; intros rm; simpl.
  - set_solver.
  - rewrite IH, streams_removeStream, dom_delete_L.
    replace (stream_ID (removeStream sp rm) <$> removed) with (stream_ID rm <$> removed).
    + set_solver.
    + apply list_fmap_ext. intros _ sp' _. by rewrite stream_ID_removeStream.
Qed.

Lemma refreshStreams_reconciles targets rm :
  streams_wf rm →
  dom (streams (refreshStreams targets rm)) = list_to_set targets.*1.
Proof.
  intros Hwf. unfold refreshStreams, checkStreamUpdates.
  set (added := filter (λ t : string * string, streams rm !! t.1 = None) targets).
  set (removed := (map_to_list (filter (λ kv : string * nat, kv.1 ∉ targets.*1) (streams rm))).*2).
  destruct (add_fold added rm Hwf) as (HwfA & HdomA & HheapA).
  rewrite remove_fold, HdomA.
  apply set_eq. intros x.
  rewrite elem_of_difference, elem_of_union, !elem_of_list_to_set, elem_of_dom.
  rewrite !list_elem_of_fmap.
  split.
  - intros [[[sp Hsp]|([id spec] & -> & Hin)] Hnot].
    + destruct (decide (x ∈ targets.*1)) as [Hx|Hx].
      { by apply list_elem_of_fmap in Hx. }
      exfalso. apply Hnot. exists sp. split.
      * destruct (Hwf _ _ Hsp) as (st & Hst & Hid).
        unfold stream_ID. by rewrite (HheapA _ _ Hst).
      * unfold removed. apply list_elem_of_fmap. exists (x, sp). split; [done|].
        apply elem_of_map_to_list. apply map_lookup_filter_Some. done.
    + unfold added in Hin. apply list_elem_of_filter in Hin as [_ Hin]. eauto.
  - intros ([id spec] & -> & Hin). simpl. split.
    + destruct (streams rm !! id) as [sp|] eqn:E; [left; eauto|].
      right. exists (id, spec). split; [done|]. unfold added.
      apply list_elem_of_filter. done.
    + intros (sp & Hid & Hsp). unfold removed in Hsp.
      apply list_elem_of_fmap in Hsp as ([k sp'] & -> & Hsp). simpl in *.
      apply elem_of_map_to_list, map_lookup_filter_Some in Hsp as [Hk Hnot].
      simpl in Hnot. destruct (Hwf _ _ Hk) as (st & Hst & Hkid).
      unfold stream_ID in Hid. rewrite (HheapA _ _ Hst), Hkid in Hid. subst k.
      apply Hnot. apply list_elem_of_fmap. exists (id, spec). done.
Qed.


(** [rm'] has no stream entry that [rm] has not, and every stream object of
    [rm] is still there with its id. *)
Definition kept (rm rm' : requestManager) : Prop :=
  streams rm' ⊆ streams rm ∧
  ∀ sp st, heap_st rm !! sp = Some st →
           ∃ st', heap_st rm' !! sp = Some st' ∧ st_id st' = st_id st.

Lemma kept_refl rm : kept rm rm.
Proof. split; [done | eauto]. Qed.

Lemma kept_trans rm1 rm2 rm3 : kept rm1 rm2 → kept rm2 rm3 → kept rm1 rm3.
Proof.
  intros [S1 H1] [S2 H2]. split; [by etrans|].
  intros sp st H. destruct (H1 _ _ H) as (st' & H' & E').
  destruct (H2 _ _ H') as (st'' & H'' & E''). exists st''. split; [done | congruence].
Qed.

Lemma kept_same rm rm' :
  streams rm' = streams rm → heap_st rm' = heap_st rm → kept rm rm'.
Proof. intros S H. split; [by rewrite S | rewrite H; eauto]. Qed.

Lemma kept_wf rm rm' : kept rm rm' → streams_wf rm → streams_wf rm'.
Proof.
  intros [S H] Hwf id sp Hs.
  destruct (Hwf id sp) as (st & Hst & Hid); [by eapply lookup_weaken|].
  destruct (H _ _ Hst) as (st' & Hst' & E). exists st'. split; [done | congruence].
Qed.

Lemma kept_set_st_req sp o rm : kept rm (set_st_req sp o rm).
Proof.
  unfold set_st_req. destruct (heap_st rm !! sp) as [s|] eqn:E; [|apply kept_refl].
  split; [done|]. intros sp' st H. simpl.
  destruct (decide (sp' = sp)) as [->|Hne].
  - rewrite lookup_insert_eq. eexists. split; [reflexivity|]. simpl. congruence.
  - rewrite lookup_insert_ne by done. eauto.
Qed.

Lemma kept_doneWithResponse rp d rm : kept rm (doneWithResponse rp d rm).
Proof.
  unfold doneWithResponse. destruct (heap_req rm !! rp) as [r|]; [|apply kept_refl].
  destruct (atmDone r); [apply kept_refl | by apply kept_same].
Qed.

Lemma kept_SetReqID rp id rm : kept rm (SetReqID rp id rm).
Proof.
  unfold SetReqID. destruct (heap_req rm !! rp); [by apply kept_same | apply kept_refl].
Qed.

Lemma kept_set_owner rp o rm : kept rm (set_owner rp o rm).
Proof.
  unfold set_owner. destruct (heap_req rm !! rp); [by apply kept_same | apply kept_refl].
Qed.

Lemma kept_clearPendingRequest sp rm : kept rm (clearPendingRequest sp rm).2.
Proof.
  unfold clearPendingRequest. destruct (heap_st rm !! sp) as [s|] eqn:E; [|apply kept_refl].
  destruct (st_req s); [apply kept_set_st_req | apply kept_refl].
Qed.

Lemma kept_addPendingRequest rp sp rm rm' :
  addPendingRequest rp sp rm = Some rm' → kept rm rm'.
Proof.
  unfold addPendingRequest, genReqID.
  destruct (genReqID_from (pendings rm) (rng rm)) as [[id rest]|]; [|discriminate].
  intros [= <-].
  eapply kept_trans; [|by apply kept_same].
  eapply kept_trans; [|by apply kept_same].
  eapply kept_trans; [|apply kept_set_st_req].
  eapply kept_trans; [|apply kept_set_owner].
  eapply kept_trans; [|apply kept_SetReqID].
  by apply kept_same.
Qed.

Lemma kept_removePendingRequest rp rm : kept rm (removePendingRequest rp rm).
Proof.
  unfold removePendingRequest. destruct (pendings rm !! ReqID rm rp); [|apply kept_refl].
  match goal with |- kept _ (match ?o with _ => _ end) => destruct o as [sp|] end.
  - eapply kept_trans; [|by apply kept_same].
    eapply kept_trans; [|apply kept_clearPendingRequest]. by apply kept_same.
  - by apply kept_same.
Qed.

Lemma kept_handleDeliverData d rm : kept rm (handleDeliverData d rm).
Proof.
  unfold handleDeliverData. destruct (validateDelivery rm d); [apply kept_refl|].
  destruct (pendings rm !! _); [|apply kept_refl].
  eapply kept_trans; [apply kept_doneWithResponse | apply kept_removePendingRequest].
Qed.

Lemma kept_handleCancelRequest rp e rm : kept rm (handleCancelRequest rp e rm).
Proof.
  unfold handleCancelRequest.
  eapply kept_trans; [|apply kept_doneWithResponse].
  eapply kept_trans; [|apply kept_removePendingRequest]. by apply kept_same.
Qed.

Lemma kept_popNotDone fuel : ∀ rm, kept rm (popNotDone fuel rm).2.
Proof.
  induction fuel as [|fuel IH]; intros rm; simpl; [apply kept_refl|].
  destruct (Pop (waitings rm)) as [[rp|] q]; [|apply kept_refl]. simpl.
  match goal with |- kept _ (if ?b then _ else _).2 => destruct b end.
  - eapply kept_trans; [|apply IH]. by apply kept_same.
  - by apply kept_same.
Qed.

Lemma kept_getNextRequest rm : kept rm (getNextRequest rm).2.
Proof.
  unfold getNextRequest.
  pose proof (kept_popNotDone
                (S (length (q_high (waitings rm)) + length (q_low (waitings rm)))) rm) as H.
  destruct (popNotDone _ rm) as [[rp|] rm1]; simpl in *; [|done].
  destruct (pickAvailableStream rm1 rp); simpl; [done|].
  eapply kept_trans; [exact H|].
  unfold addRequestToWaitings. destruct (Push rp reqPriorityHigh (waitings rm1)).
  by apply kept_same.
Qed.

Lemma kept_throttle n : ∀ rm rm', throttle n rm = Some rm' → kept rm rm'.
Proof.
  induction n as [|n IH]; intros rm rm'; simpl.
  - intros [= <-]. apply kept_refl.
  - pose proof (kept_getNextRequest rm) as H.
    destruct (getNextRequest rm) as [[[rp sp]|] rm1]; simpl in H.
    + destruct (addPendingRequest rp sp rm1) as [rm2|] eqn:E; [|discriminate].
      intros H2. eapply kept_trans; [exact H|].
      eapply kept_trans; [eapply kept_addPendingRequest, E | by apply IH].
    + by intros [= <-].
Qed.

Lemma kept_removeStream sp rm : kept rm (removeStream sp rm).
Proof.
  split.
  - rewrite streams_removeStream. apply delete_subseteq.
  - unfold removeStream.
    pose proof (kept_clearPendingRequest sp
      (set_streams (delete (stream_ID rm sp) (streams rm))
         (set_available (available rm ∖ {[stream_ID rm sp]}) rm))) as [_ H].
    destruct (clearPendingRequest sp _) as [[cleared|] rm1]; simpl in H.
    + intros sp' st Hst. destruct (H _ _ Hst) as (st' & Hst' & E).
      destruct (kept_doneWithResponse cleared
                  (mkResponseData None (stream_ID rm sp)
                     (Some "stream removed when doing request")) rm1) as [_ H2].
      destruct (H2 _ _ Hst') as (st'' & Hst'' & E''). exists st''. split; [done|congruence].
    + exact H.
Qed.

Lemma remove_fold_wf removed : ∀ rm,
  streams_wf rm → streams_wf (foldl (λ rm sp, removeStream sp rm) rm removed).
Proof.
  induction removed as [|sp removed IH]; intros rm Hwf; simpl; [done|].
  apply IH. eapply kept_wf; [apply kept_removeStream | done].
Qed.

Lemma refreshStreams_wf targets rm : streams_wf rm → streams_wf (refreshStreams targets rm).
Proof.
  intros Hwf. unfold refreshStreams, checkStreamUpdates.
  apply remove_fold_wf.
  by destruct (add_fold (filter (λ t : string * string, streams rm !! t.1 = None) targets)
                 rm Hwf) as (H & _).
Qed.

Lemma step_wf n ev rm rm' : step n ev rm = Some rm' → streams_wf rm → streams_wf rm'.
Proof.
  destruct ev as [|r wl|d|rp e|targets]; simpl.
  - intros H. eapply kept_wf, kept_throttle, H.
  - unfold alloc_req. cbn beta iota zeta. intros [= <-]. apply kept_wf.
    unfold handleNewRequest, addRequestToWaitings.
    destruct (Push _ _ _) as [[e|] q]; simpl.
    + eapply kept_trans; [|apply kept_doneWithResponse]. by apply kept_same.
    + by apply kept_same.
  - intros [= <-]. apply kept_wf, kept_handleDeliverData.
  - intros [= <-]. apply kept_wf, kept_handleCancelRequest.
  - intros [= <-]. apply refreshStreams_wf.
Qed.

(** X4.  In every state the loop reaches, each key of [streams] leads to a
    stream object whose id is that key. *)
Theorem reachable_streams_wf n cap rm : reachable n cap rm → streams_wf rm.
Proof.
  induction 1 as [ids|ev rm rm' _ IH Hstep].
  - intros id sp H. unfold newRequestManager in H. simpl in H. by rewrite lookup_empty in H.
  - eapply step_wf; eauto.
Qed.

(** X5.  In every state the loop reaches, [refreshStreams] leaves exactly
    the streams of the snapshot registered: the keys of [streams] are the
    ids of the targets. *)
Theorem refreshStreams_tracks_snapshot n cap targets rm :
  reachable n cap rm →
  dom (streams (refreshStreams targets rm)) = list_to_set targets.*1.
Proof.
  intros H. apply refreshStreams_reconciles.
  induction H as [ids|ev rm rm' _ IH Hstep].
  - intros id sp Hs. unfold newRequestManager in Hs. simpl in Hs.
    by rewrite lookup_empty in Hs.
  - eapply step_wf; eauto.
Qed.

(** ** close *)

(** The request once it has been answered with [d]; a request that is done
    already is left as it is. *)
Definition answered (d : responseData) (r : request) : request :=
  if atmDone r then r
  else mkRequest (raw r) (owner r) (respC r ++ [d]) true (whitelist r).

Lemma heap_req_doneWithResponse rp d rm rp' :
  heap_req (doneWithResponse rp d rm) !! rp'
  = if decide (rp' = rp) then answered d <$> heap_req rm !! rp else heap_req rm !! rp'.
Proof.
  unfold doneWithResponse, answered.
  destruct (heap_req rm !! rp) as [r|] eqn:E.
  - destruct (atmDone r) eqn:Hd; simpl.
    + destruct (decide (rp' = rp)) as [->|]; [simpl; by rewrite Hd | done].
    + destruct (decide (rp' = rp)) as [->|].
      * rewrite lookup_insert_eq. simpl. by rewrite Hd.
      * by rewrite lookup_insert_ne.
  - destruct (decide (rp' = rp)) as [->|]; [by rewrite ?E | done].
Qed.

Lemma answered_twice d r : answered d (answered d r) = answered d r.
Proof. unfold answered. destruct (atmDone r) eqn:E; simpl; by rewrite ?E. Qed.

Lemma close_fold d (l : list (Z * nat)) : ∀ rm rp,
  heap_req (foldl (fun rm (kv : Z * nat) => doneWithResponse kv.2 d rm) rm l) !! rp
  = if decide (rp ∈ l.*2) then answered d <$> heap_req rm !! rp else heap_req rm !! rp.
Proof.
  induction l as [|[k p] l IH]; intros rm rp.
  - simpl. destruct (decide (rp ∈ [])) as [H|]; [inversion H | done].
  - cbn [foldl]. rewrite fmap_cons. cbn [snd].
    rewrite IH, heap_req_doneWithResponse.
    destruct (decide (rp ∈ p :: l.*2)) as [Hin|Hnin];
      destruct (decide (rp ∈ l.*2)) as [Hin'|Hnin'];
      destruct (decide (rp = p)) as [Heq|Hne]; try done.
    all: try (subst rp; destruct (heap_req rm !! p); simpl; by rewrite ?answered_twice).
    all: exfalso; set_solver.
Qed.

(** X6.  [close] empties [streams], [available], [pendings] and the
    waiting queues; each request that was pending is answered with
    [ErrClosed] (unless it was done already), and every other request, the
    waiting ones included, is left as it was: it gets no response. *)
Theorem close_answers_pendings ErrClosed rm rp :
  let rm' := close ErrClosed rm in
  let d := mkResponseData None "" (Some ErrClosed) in
  streams rm' = ∅ ∧ available rm' = ∅ ∧ pendings rm' = ∅ ∧
  q_high (waitings rm') = [] ∧ q_low (waitings rm') = [] ∧
  (in_pendings rm rp → heap_req rm' !! rp = answered d <$> heap_req rm !! rp) ∧
  (¬ in_pendings rm rp → heap_req rm' !! rp = heap_req rm !! rp).
Proof.
  intros rm' d. unfold rm', close. simpl. repeat split; auto.
  - intros [id Hid]. rewrite close_fold. rewrite decide_True; [done|].
    apply list_elem_of_fmap. exists (id, rp). split; [done|]. by apply elem_of_map_to_list.
  - intros Hn. rewrite close_fold. rewrite decide_False; [done|].
    intros ([id p] & -> & Hin)%list_elem_of_fmap. apply Hn. exists id.
    by apply elem_of_map_to_list in Hin.
Qed.

(** ** Concrete runs *)

(** One stream, one request waiting. *)
Definition rm_waiting : requestManager :=
  default (newRequestManager 4 [])
    (run 16 [EvStreams [("s1", "sync")]; EvNewRequest getBlocks None]
         (newRequestManager 4 [7%Z])).


Lemma assign_then_deliver_s1 :
  ∃ rm1, addPendingRequest 0 0 rm_waiting = Some rm1 ∧
    let rm2 := DeliverResponse "s1" (mkResponse (ReqID rm1 0) "blocks") rm1 in
    pendings rm2 = pendings rm_waiting ∧ "s1" ∈ available rm2 ∧ isDone rm2 0 = true.
Proof.
  destruct (addPendingRequest 0 0 rm_waiting) as [rm1|] eqn:E; [|by vm_compute in E].
  exists rm1. split; [done|].
  assert (heap_req rm_waiting !! 0 = Some (mkRequest getBlocks None [] false None)) as Hr
    by (vm_compute; reflexivity).
  assert (heap_st rm_waiting !! 0 = Some (mkStream "s1" "sync" None)) as Hs
    by (vm_compute; reflexivity).
  assert (streams rm_waiting !! "s1" = Some 0) as Hreg by (vm_compute; reflexivity).
  destruct (assign_then_deliver 0 0 rm_waiting rm1 _ _ "blocks" Hr Hs Hreg eq_refl E)
    as (H1 & _ & H3 & _ & H5).
  auto.
Defined.

Lemma reachable_streams_wf_churn :
  ∃ rm, run 16 churn (newRequestManager 4 [7%Z]) = Some rm ∧ streams_wf rm.
Proof.
  destruct (run 16 churn (newRequestManager 4 [7%Z])) as [rm|] eqn:E; [|by vm_compute in E].
  exists rm. split; [done|].
  apply (reachable_streams_wf 16 4 rm).
  eapply run_reachable; [apply reach_init | exact E].
Defined.

Lemma refreshStreams_tracks_snapshot_churn :
  ∃ rm, run 16 churn (newRequestManager 4 [7%Z]) = Some rm ∧
    dom (streams (refreshStreams [("s2", "sync"); ("s3", "sync")] rm))
      = list_to_set ["s2"; "s3"].
Proof.
  destruct (run 16 churn (newRequestManager 4 [7%Z])) as [rm|] eqn:E; [|by vm_compute in E].
  exists rm. split; [done|].
  apply (refreshStreams_tracks_snapshot 16 4 [("s2", "sync"); ("s3", "sync")] rm).
  eapply run_reachable; [apply reach_init | exact E].
Defined.

End RequestManagerLaws.

(* ===================================================================== *)
(** * More of the engine: stage order, New, cleanup, logs                *)
(* ===================================================================== *)

Module EngineLaws.
Import Engine EngineProps.

Section StageFacts.
Context {World : Type}.

(** ** SetCurrentStage *)
Lemma stage_index_Some id (l : list (Stage World)) : ∀ i0 i,
  stage_index id l i0 = Some i →
  ∃ k stg, i = (i0 + k)%nat ∧ l !! k = Some stg ∧ ID stg = id ∧
           ∀ j s', (j < k)%nat → l !! j = Some s' → ID s' ≠ id.
Proof.
  induction l as [|st l IH]; intros i0 i; simpl; [discriminate|].
  destruct (String.eqb_spec (ID st) id) as [E|E].
  - intros [= <-]. exists 0%nat, st.
    split; [lia|]. split; [done|]. split; [done|]. intros j s' Hj. lia.
  - intros H. destruct (IH _ _ H) as (k & stg & -> & Hk & Hid & Hfirst).
    exists (S k), stg.
    split; [lia|]. split; [done|]. split; [done|].
    intros [|j] s' Hj; simpl.
    + intros [= <-]. done.
    + apply Hfirst. lia.
Qed.

Lemma stage_index_None id (l : list (Stage World)) : ∀ i0,
  stage_index id l i0 = None ↔ id ∉ map ID l.
Proof.
  induction l as [|st l IH]; intros i0; simpl.
  - split; [intros _; apply not_elem_of_nil | done].
  - destruct (String.eqb_spec (ID st) id) as [E|E].
    + split; [discriminate|]. intros H. exfalso. apply H. rewrite E. by left.
    + rewrite IH. rewrite not_elem_of_cons. naive_solver.
Qed.

(** X7.  [SetCurrentStage] moves to the first stage with the id and returns
    nil; when no stage has the id it returns ErrStageNotFound and leaves
    the engine as it is. *)
Theorem SetCurrentStage_first_match id (st : state World) :
  (id ∈ map ID (stages (eng st)) →
   ∃ i stg,
     SetCurrentStage id st
       = (Val None, mkState (set_currentStage i (eng st)) (world st) (calls st)) ∧
     stages (eng st) !! i = Some stg ∧ ID stg = id ∧
     ∀ j s', (j < i)%nat → stages (eng st) !! j = Some s' → ID s' ≠ id) ∧
  (id ∉ map ID (stages (eng st)) →
   SetCurrentStage id st = (Val (Some ErrStageNotFound), st)).
Proof.
  unfold SetCurrentStage, bind, get_eng, modify_eng, ret. simpl. split.
  - intros Hin. destruct (stage_index id (stages (eng st)) 0) as [i|] eqn:E.
    + destruct (stage_index_Some _ _ _ _ E) as (k & stg & -> & Hk & Hid & Hfirst).
      exists k, stg. simpl. auto.
    + apply stage_index_None in E. done.
  - intros Hn. apply (stage_index_None id _ 0%nat) in Hn. by rewrite Hn.
Qed.

(** ** IsBefore and IsAfter *)

Fixpoint last_pos (id : string) (l : list (Stage World)) (i : nat) (idx : Z) : Z :=
  match l with
  | [] => idx
  | st :: l => last_pos id l (S i) (if String.eqb (ID st) id then Z.of_nat i else idx)
  end.

Lemma positions_last_pos a b l : ∀ i x y,
  positions a b l i x y = (last_pos a l i x, last_pos b l i y).
Proof. induction l as [|st l IH]; intros i x y; simpl; [done | apply IH]. Qed.

Lemma last_pos_absent id l : ∀ i idx, id ∉ map ID l → last_pos id l i idx = idx.
Proof.
  induction l as [|st l IH]; intros i idx Hn; simpl; [done|].
  simpl in Hn. apply not_elem_of_cons in Hn as [Hne Hn].
  rewrite IH by done. destruct (String.eqb_spec (ID st) id); [congruence | done].
Qed.

Lemma last_pos_at id l : ∀ i idx k st,
  NoDup (map ID l) → l !! k = Some st → ID st = id →
  last_pos id l i idx = Z.of_nat (i + k).
Proof.
  induction l as [|st0 l IH]; intros i idx k st Hnd Hk Hid; [done|].
  simpl in Hnd. apply NoDup_cons in Hnd as [Hnotin Hnd]. simpl.
  destruct k as [|k]; simpl in Hk.
  - injection Hk as ->. rewrite Hid, String.eqb_refl.
    rewrite last_pos_absent by congruence. f_equal. lia.
  - rewrite (IH (S i) _ k st Hnd Hk Hid). f_equal. lia.
Qed.

(** X8.  When the ids of the stages are pairwise different, [IsBefore] and
    [IsAfter] compare the positions of the two stages in the forward
    order. *)
Theorem IsBefore_by_position (s : StagedStreamSync World) i j sa sb :
  NoDup (map ID (stages s)) →
  stages s !! i = Some sa → stages s !! j = Some sb →
  IsBefore s (ID sa) (ID sb) = (i <? j)%nat ∧ IsAfter s (ID sa) (ID sb) = (j <? i)%nat.
Proof.
  intros Hnd Hi Hj. unfold IsBefore, IsAfter. rewrite positions_last_pos.
  rewrite (last_pos_at _ _ 0 _ i sa Hnd Hi eq_refl).
  rewrite (last_pos_at _ _ 0 _ j sb Hnd Hj eq_refl). simpl.
  split.
  - destruct (Nat.ltb_spec i j), (Z.ltb_spec (Z.of_nat i) (Z.of_nat j)); auto; lia.
  - destruct (Nat.ltb_spec j i), (Z.ltb_spec (Z.of_nat j) (Z.of_nat i)); auto; lia.
Qed.

Lemma last_pos_ge id l : ∀ i idx, (-1 <= idx)%Z → (-1 <= last_pos id l i idx)%Z.
Proof.
  induction l as [|st l IH]; intros i idx H; simpl; [done|].
  apply IH. destruct (String.eqb _ _); lia.
Qed.

Lemma last_pos_present id l : ∀ i idx, id ∈ map ID l → (Z.of_nat i <= last_pos id l i idx)%Z.
Proof.
  induction l as [|st l IH]; intros i idx Hin; simpl in *; [inversion Hin|].
  destruct (decide (id ∈ map ID l)) as [Hl|Hl].
  - specialize (IH (S i) (if String.eqb (ID st) id then Z.of_nat i else idx) Hl). lia.
  - rewrite last_pos_absent by done.
    apply elem_of_cons in Hin as [->|Hin]; [|done]. rewrite String.eqb_refl. lia.
Qed.

(** X9.  A stage id that is not in the forward order is at position -1:
    it is after no stage, no stage is before it, and it is before exactly
    the stages that are there. *)
Theorem IsBefore_missing_stage (s : StagedStreamSync World) a b :
  a ∉ map ID (stages s) →
  IsAfter s a b = false ∧
  IsBefore s b a = false ∧
  IsBefore s a b = bool_decide (b ∈ map ID (stages s)).
Proof.
  intros Ha. unfold IsBefore, IsAfter. rewrite !positions_last_pos.
  rewrite !(last_pos_absent a) by done.
  pose proof (last_pos_ge b (stages s) 0 (-1)%Z ltac:(lia)) as Hge.
  repeat split.
  - apply Z.ltb_ge. exact Hge.
  - apply Z.ltb_ge. exact Hge.
  - case_bool_decide as Hb.
    + apply Z.ltb_lt. pose proof (last_pos_present b _ 0 (-1)%Z Hb). lia.
    + rewrite last_pos_absent by done. reflexivity.
Qed.

(** ** DisableAllStages and EnableStages *)

Lemma mark_ID d ids : ∀ st : Stage World, ID (mark d ids st) = ID st.
Proof.
  unfold mark. induction ids as [|id ids IH]; intros st; simpl; [done|].
  rewrite IH. destruct (negb _); done.
Qed.

Lemma mark_Handler d ids : ∀ st : Stage World, Handler (mark d ids st) = Handler st.
Proof.
  unfold mark. induction ids as [|id ids IH]; intros st; simpl; [done|].
  rewrite IH. destruct (negb _); done.
Qed.

Lemma mark_Disabled d ids : ∀ st : Stage World,
  Disabled (mark d ids st) = if bool_decide (ID st ∈ ids) then d else Disabled st.
Proof.
  unfold mark. induction ids as [|id ids IH]; intros st; simpl.
  - done.
  - rewrite IH.
    destruct (String.eqb_spec (ID st) id) as [E|E]; simpl.
    + rewrite (bool_decide_eq_true_2 (ID st ∈ id :: ids)) by (rewrite E; left).
      case_bool_decide; done.
    + case_bool_decide as H1; case_bool_decide as H2; try done.
      * exfalso. apply H2. by right.
      * exfalso. apply elem_of_cons in H2 as [?|?]; done.
Qed.

Lemma Stage_eq (a b : Stage World) :
  ID a = ID b → Handler a = Handler b → Disabled a = Disabled b → a = b.
Proof. destruct a, b; simpl; intros; subst; done. Qed.

(** Every entry of the revert and cleanup orders is one of the stages, as
    [New] builds them. *)
Definition shared (s : StagedStreamSync World) : Prop :=
  (∀ p, Some p ∈ revertOrder s → p ∈ stages s) ∧
  (∀ p, Some p ∈ pruningOrder s → p ∈ stages s).

Lemma restore_stage (l : list (Stage World)) st :
  NoDup (map ID l) → st ∈ l →
  mark false (map ID (List.filter (fun st => negb (Disabled st)) l)) (set_Disabled true st) = st.
Proof.
  intros Hnd Hin. apply Stage_eq.
  - by rewrite mark_ID.
  - by rewrite mark_Handler.
  - rewrite mark_Disabled. simpl.
    case_bool_decide as Hm.
    + apply list_elem_of_In, in_map_iff in Hm as (st' & Hid & Hin').
      apply filter_In in Hin' as [Hin' Hen].
      assert (st' = st) as ->.
      { apply list_elem_of_In in Hin'.
        apply list_elem_of_lookup in Hin as [i Hi].
        apply list_elem_of_lookup in Hin' as [j Hj].
        assert (i = j) as ->.
        { eapply NoDup_lookup; [exact Hnd| |].
          - by rewrite list_lookup_fmap, Hi.
          - rewrite list_lookup_fmap, Hj. simpl. by rewrite Hid. }
        congruence. }
      destruct (Disabled st); done.
    + destruct (Disabled st) eqn:Hd; [done|].
      exfalso. apply Hm. apply list_elem_of_In, in_map_iff. exists st. split; [done|].
      apply filter_In. split; [by apply list_elem_of_In|]. by rewrite Hd.
Qed.

Lemma restore_entries (l : list (Stage World)) (o : list (option (Stage World))) :
  NoDup (map ID l) → (∀ p, Some p ∈ o → p ∈ l) →
  map (option_map (mark false (map ID (List.filter (fun st => negb (Disabled st)) l))))
      (map (option_map (set_Disabled true)) o) = o.
Proof.
  intros Hnd Hin. rewrite map_map. etrans; [|apply map_id].
  apply map_ext_in. intros [p|] Hp; simpl; [|done].
  f_equal. apply restore_stage; [done|]. apply Hin. by apply list_elem_of_In.
Qed.

(** X10.  [DisableAllStages] disables every stage, also as seen through the
    revert and cleanup orders, and [EnableStages] on the ids it returned
    gives the engine back as it was, when the ids of the stages are
    pairwise different. *)
Theorem DisableAll_then_Enable (s : StagedStreamSync World) :
  NoDup (map ID (stages s)) → shared s →
  let '(ids, s') := DisableAllStages s in
  Forall (fun p => Disabled p = true) (stages s') ∧
  (∀ p, Some p ∈ revertOrder s' ∨ Some p ∈ pruningOrder s' → Disabled p = true) ∧
  EnableStages ids s' = s.
Proof.
  intros Hnd [Hr Hp]. unfold DisableAllStages, EnableStages, on_stages. cbn [fst snd].
  split; [|split].
  - cbn [stages]. apply Forall_forall. intros p Hin.
    apply list_elem_of_In, in_map_iff in Hin as (q & <- & _). done.
  - cbn [revertOrder pruningOrder]. intros p [Hin|Hin];
      apply list_elem_of_In, in_map_iff in Hin as ([q|] & Hq & _); simpl in Hq;
      simplify_eq; done.
  - destruct s as [b rp prp ib cs sts ro po ts]. cbn in *. f_equal.
    + rewrite map_map. etrans; [|apply map_id].
      apply map_ext_in. intros st Hin. apply restore_stage; [done|].
      by apply list_elem_of_In.
    + by apply restore_entries.
    + by apply restore_entries.
Qed.

(** ** New *)

Lemma find_stage_Some id (l : list (Stage World)) s :
  find_stage id l = Some s → s ∈ l ∧ ID s = id.
Proof.
  induction l as [|s0 l IH]; simpl; [discriminate|].
  destruct (String.eqb_spec (ID s0) id).
  - intros [= <-]. split; [by left | done].
  - intros H. destruct (IH H). split; [by right | done].
Qed.

Lemma find_stage_None id (l : list (Stage World)) : find_stage id l = None ↔ id ∉ map ID l.
Proof.
  induction l as [|s0 l IH]; simpl.
  - split; [intros _; apply not_elem_of_nil | done].
  - destruct (String.eqb_spec (ID s0) id) as [E|E].
    + split; [discriminate|]. intros H. exfalso. apply H. rewrite E. by left.
    + rewrite IH, not_elem_of_cons. naive_solver.
Qed.

Lemma orderStages_loop_spec (stagesList : list (Stage World)) order : ∀ i acc,
  (i + length order <= length acc)%nat →
  ∃ l, orderStages_loop order i stagesList acc = Val l ∧
       length l = length acc ∧
       (∀ j, (j < i ∨ i + length order <= j)%nat → l !! j = acc !! j) ∧
       (∀ k id, order !! k = Some id →
                l !! (i + k)%nat =
                  match find_stage id stagesList with
                  | Some s => Some (Some s)
                  | None => acc !! (i + k)%nat
                  end).
Proof.
  induction order as [|id order IH]; intros i acc Hlen; simpl in *.
  - exists acc. repeat split; auto. intros k id H. done.
  - destruct (find_stage id stagesList) as [s|] eqn:Hf.
    + destruct (Nat.ltb_spec i (length acc)); [|lia].
      destruct (IH (S i) (<[i := Some s]> acc)) as (l & Hrun & Hl & Hout & Hin).
      { rewrite length_insert. lia. }
      exists l. rewrite length_insert in Hl. repeat split; auto.
      * intros j Hj. rewrite Hout by lia. apply list_lookup_insert_ne. lia.
      * intros [|k] id' Hk; simpl in Hk.
        -- injection Hk as <-. rewrite Hf, Nat.add_0_r, Hout by lia.
           by apply list_lookup_insert_eq.
        -- replace (i + S k)%nat with (S i + k)%nat by lia.
           rewrite (Hin k id' Hk). destruct (find_stage id' stagesList); [done|].
           apply list_lookup_insert_ne. lia.
    + destruct (IH (S i) acc) as (l & Hrun & Hl & Hout & Hin); [lia|].
      exists l. repeat split; auto.
      * intros j Hj. apply Hout. lia.
      * intros [|k] id' Hk; simpl in Hk.
        -- injection Hk as <-. rewrite Hf, Nat.add_0_r. apply Hout. lia.
        -- replace (i + S k)%nat with (S i + k)%nat by lia. apply (Hin k id' Hk).
Qed.

Lemma orderStages_entries order (stagesList : list (Stage World)) :
  (length order <= length stagesList)%nat →
  ∃ l, orderStages order stagesList = Val l ∧
       length l = length stagesList ∧
       (∀ k id, order !! k = Some id → l !! k = Some (find_stage id stagesList)) ∧
       (∀ j, (length order <= j < length stagesList)%nat → l !! j = Some None).
Proof.
  intros Hlen. unfold orderStages.
  destruct (orderStages_loop_spec stagesList order 0 (replicate (length stagesList) None))
    as (l & Hrun & Hl & Hout & Hin).
  { rewrite length_replicate. lia. }
  rewrite length_replicate in Hl.
  exists l. repeat split; auto.
  - intros k id Hk. specialize (Hin k id Hk). simpl in Hin. rewrite Hin.
    destruct (find_stage id stagesList); [done|].
    apply lookup_replicate_2. apply lookup_lt_Some in Hk. lia.
  - intros j Hj. rewrite Hout by lia. apply lookup_replicate_2. lia.
Qed.

(** The entry of an order is the stage with the id at that place. *)
Definition entry_for (stagesList : list (Stage World)) (id : SyncStageID) (o : option (Stage World)) : Prop :=
  ∃ s, o = Some s ∧ ID s = id ∧ s ∈ stagesList.

Lemma orderStages_full order (stagesList : list (Stage World)) :
  order ≡ₚ map ID stagesList →
  ∃ l, orderStages order stagesList = Val l ∧ Forall2 (entry_for stagesList) order l.
Proof.
  intros Hperm.
  assert (length order = length stagesList) as Hlen.
  { rewrite (Permutation_length Hperm). apply length_map. }
  destruct (orderStages_entries order stagesList) as (l & Hrun & Hl & Hin & _); [lia|].
  exists l. split; [done|].
  apply Forall2_same_length_lookup. split; [lia|].
  intros k id o Hk Ho. rewrite (Hin _ _ Hk) in Ho. injection Ho as <-.
  destruct (find_stage id stagesList) as [s|] eqn:E.
  - apply find_stage_Some in E as [? ?]. exists s. auto.
  - apply find_stage_None in E. exfalso. apply E. rewrite <- Hperm.
    by eapply list_elem_of_lookup_2.
Qed.

(** X11.  When the revert order and the cleanup order each list the ids of
    the stages once, [New] returns an engine at its first stage, with no
    revert point, whose two orders hold at each place the stage with the
    id the order names there: none of their entries is nil. *)
Theorem New_with_full_orders revertIDs cleanUpIDs (stagesList : list (Stage World)) isBeacon :
  revertIDs ≡ₚ map ID stagesList →
  cleanUpIDs ≡ₚ map ID stagesList →
  ∃ r p,
    New revertIDs cleanUpIDs stagesList isBeacon
      = Val (mkSync isBeacon None None 0%Z 0 stagesList r p []) ∧
    Forall2 (entry_for stagesList) revertIDs r ∧
    Forall2 (entry_for stagesList) cleanUpIDs p.
Proof.
  intros Hr Hp.
  destruct (orderStages_full _ _ Hr) as (r & Hrun & HR).
  destruct (orderStages_full _ _ Hp) as (p & Hrun' & HP).
  exists r, p. unfold New. rewrite Hrun, Hrun'. auto.
Qed.

(** An order with more entries than there are stages: the write for an
    entry past the end that names a stage is out of range. *)
Lemma orderStages_loop_panic (stagesList : list (Stage World)) order : ∀ i acc k id s,
  order !! k = Some id →
  find_stage id stagesList = Some s →
  (length acc <= i + k)%nat →
  ∃ j, orderStages_loop order i stagesList acc = Panic (IndexOutOfRange j).
Proof.
  induction order as [|id0 order IH]; intros i acc k id s Hk Hf Hlen; [done|].
  simpl. destruct k as [|k]; simpl in Hk.
  - injection Hk as ->. rewrite Hf.
    destruct (Nat.ltb_spec i (length acc)); [lia | eauto].
  - destruct (find_stage id0 stagesList) as [s0|].
    + destruct (Nat.ltb_spec i (length acc)); [|eauto].
      apply (IH (S i) _ k id s Hk Hf). rewrite length_insert. lia.
    + apply (IH (S i) _ k id s Hk Hf). lia.
Qed.

Lemma orderStages_too_long order (stagesList : list (Stage World)) k id :
  order !! k = Some id →
  id ∈ map ID stagesList →
  (length stagesList <= k)%nat →
  ∃ j, orderStages order stagesList = Panic (IndexOutOfRange j).
Proof.
  intros Hk Hin Hlen.
  destruct (find_stage id stagesList) as [s|] eqn:E.
  - apply (orderStages_loop_panic stagesList order 0 _ k id s Hk E).
    rewrite length_replicate. lia.
  - apply find_stage_None in E. done.
Qed.


Lemma orderStages_loop_cases stagesList order : ∀ i (acc : list (option (Stage World))),
  (∃ l, orderStages_loop order i stagesList acc = Val l) ∨
  (∃ j, orderStages_loop order i stagesList acc = Panic (IndexOutOfRange j) ∧
        (length acc <= j)%nat).
Proof.
  induction order as [|id order IH]; intros i acc; simpl; [eauto|].
  destruct (find_stage id stagesList) as [s|]; [|apply IH].
  destruct (Nat.ltb_spec i (length acc)); [|eauto].
  destruct (IH (S i) (<[i := Some s]> acc)) as [?|(j & ? & Hj)]; [by left|].
  right. exists j. rewrite length_insert in Hj. done.
Qed.

Lemma orderStages_cases order (stagesList : list (Stage World)) :
  (∃ l, orderStages order stagesList = Val l) ∨
  (∃ j, orderStages order stagesList = Panic (IndexOutOfRange j) ∧
        (length stagesList <= j)%nat).
Proof.
  unfold orderStages.
  destruct (orderStages_loop_cases stagesList order 0 (replicate (length stagesList) None))
    as [?|(j & ? & Hj)]; [by left|].
  right. exists j. rewrite length_replicate in Hj. done.
Qed.

(** X12.  With orders that are not longer than the list of stages, [New]
    returns an engine whose revert and cleanup orders have as many entries
    as there are stages: entry [k] is the first stage with the id the order
    names at [k], nil when no stage has that id, and the entries past the
    end of the order are nil. *)
Theorem New_short_orders revertIDs cleanUpIDs (stagesList : list (Stage World)) isBeacon :
  (length revertIDs <= length stagesList)%nat →
  (length cleanUpIDs <= length stagesList)%nat →
  ∃ r p,
    New revertIDs cleanUpIDs stagesList isBeacon
      = Val (mkSync isBeacon None None 0%Z 0 stagesList r p []) ∧
    length r = length stagesList ∧ length p = length stagesList ∧
    (∀ k id, revertIDs !! k = Some id → r !! k = Some (find_stage id stagesList)) ∧
    (∀ j, (length revertIDs <= j < length stagesList)%nat → r !! j = Some None) ∧
    (∀ k id, cleanUpIDs !! k = Some id → p !! k = Some (find_stage id stagesList)) ∧
    (∀ j, (length cleanUpIDs <= j < length stagesList)%nat → p !! j = Some None).
Proof.
  intros Hr Hp.
  destruct (orderStages_entries _ _ Hr) as (r & Hrun & Hlen & Hin & Hout).
  destruct (orderStages_entries _ _ Hp) as (p & Hrun' & Hlen' & Hin' & Hout').
  exists r, p. unfold New. rewrite Hrun, Hrun'.
  split; [done|]. split; [done|]. split; [done|]. split; [done|]. split; [done|].
  split; done.
Qed.

(** X13.  When one of the two orders names a stage at a place past the
    number of stages, [New] panics with an index out of range. *)
Theorem New_order_too_long revertIDs cleanUpIDs (stagesList : list (Stage World)) isBeacon k id :
  revertIDs !! k = Some id ∨ cleanUpIDs !! k = Some id →
  id ∈ map ID stagesList →
  (length stagesList <= k)%nat →
  ∃ j, New revertIDs cleanUpIDs stagesList isBeacon = Panic (IndexOutOfRange j) ∧
       (length stagesList <= j)%nat.
Proof.
  intros Hk Hin Hlen. unfold New.
  destruct (orderStages_cases revertIDs stagesList) as [[r Hr]|(j & Hr & Hj)].
  - destruct Hk as [Hk|Hk].
    + destruct (orderStages_too_long _ _ _ _ Hk Hin Hlen) as [j Hj]. congruence.
    + rewrite Hr.
      destruct (orderStages_cases cleanUpIDs stagesList) as [[p Hp]|(j & Hp & Hj)].
      * destruct (orderStages_too_long _ _ _ _ Hk Hin Hlen) as [j Hj]. congruence.
      * rewrite Hp. eauto.
  - rewrite Hr. eauto.
Qed.

End StageFacts.

Section RunFacts.
Context {World : Type}.
Variable GetStageProgress : World -> string -> bool -> error + Z.
Variable GetStageCleanUpProgress : World -> string -> bool -> error + Z.
Variable BucketSize : World -> string -> error + Z.
Variable Buckets : list string.
Variable since : World -> Z.

Abbreviation sync := (StagedStreamSync World).

(** ** What no part of [Run] touches *)
Definition static {B} (f : sync -> B) : Prop :=
  (∀ v s, f (set_revertPoint v s) = f s) ∧
  (∀ v s, f (set_prevRevertPoint v s) = f s) ∧
  (∀ v s, f (set_invalidBlock v s) = f s) ∧
  (∀ v s, f (set_currentStage v s) = f s) ∧
  (∀ v s, f (set_timings v s) = f s).

Lemma static_stages : static (@stages World).
Proof. repeat split. Qed.
Lemma static_pruningOrder : static (@pruningOrder World).
Proof. repeat split. Qed.
Lemma static_revertOrder : static (@revertOrder World).
Proof. repeat split. Qed.

Ltac keeps_go Hs :=
  repeat first
    [ apply keeps_ret | apply keeps_raise | apply keeps_get_eng
    | apply keeps_get_world | apply keeps_put_world | apply keeps_log_call
    | apply keeps_modify; intros;
      unfold NextStage, RevertTo;
      destruct Hs as (?H1 & ?H2 & ?H3 & ?H4 & ?H5); congruence
    | apply keeps_bind; [| intros ?]
    | match goal with
      | |- keeps _ (match ?x with _ => _ end) => destruct x
      | |- keeps _ (let '(_, _) := ?x in _) => destruct x
      | |- keeps _ (if ?x then _ else _) => destruct x
      end ].

Lemma keeps_runStage {B} (f : sync -> B) stage fc flag :
  static f → keeps f (runStage World GetStageProgress since stage fc flag).
Proof.
  intros Hs. unfold runStage, stageState, LogPrefix, append_timing. keeps_go Hs.
Qed.


Lemma keeps_revertStage_static {B} (f : sync -> B) fc stage :
  static f → keeps f (revertStage World GetStageProgress since fc stage).
Proof.
  intros Hs. unfold revertStage, stageState, SetCurrentStage, LogPrefix, append_timing.
  keeps_go Hs.
Qed.

Lemma keeps_pruneStage_static {B} (f : sync -> B) fc stage :
  static f →
  keeps f (pruneStage World GetStageProgress GetStageCleanUpProgress since fc stage).
Proof.
  intros Hs.
  unfold pruneStage, stageState, CleanUpStageState, SetCurrentStage, LogPrefix, append_timing.
  keeps_go Hs.
Qed.

Lemma keeps_revertPass_static {B} (f : sync -> B) fc l :
  static f → keeps f (revertPass World GetStageProgress since fc l).
Proof.
  intros Hs. induction l as [|[p|] l IH]; cbn [revertPass].
  - keeps_go Hs.
  - destruct (Disabled p); [apply IH|].
    apply keeps_bind; [by apply keeps_revertStage_static|].
    intros [e|]; [keeps_go Hs | apply IH].
  - apply IH.
Qed.

Lemma keeps_revertSection_static {B} (f : sync -> B) fc :
  static f → keeps f (revertSection World GetStageProgress since fc).
Proof.
  intros Hs. unfold revertSection.
  apply keeps_bind; [keeps_go Hs|]. intros s.
  destruct (revertPoint s); [|keeps_go Hs].
  apply keeps_bind; [by apply keeps_revertPass_static|].
  intros [e|]; [keeps_go Hs|].
  unfold SetCurrentStage. keeps_go Hs.
Qed.

Lemma keeps_forwardSection_static {B} (f : sync -> B) fc flag :
  static f → keeps f (forwardSection World GetStageProgress since fc flag).
Proof.
  intros Hs. unfold forwardSection.
  apply keeps_bind; [keeps_go Hs|]. intros s.
  destruct (stages s !! currentStage s) as [stage|]; [|keeps_go Hs].
  destruct (Disabled stage); [keeps_go Hs|].
  apply keeps_bind; [by apply keeps_runStage|].
  intros [e|]; keeps_go Hs.
Qed.

Lemma keeps_Run_loop_static {B} (f : sync -> B) fuel : ∀ fc,
  static f → keeps f (Run_loop World GetStageProgress since fuel fc).
Proof.
  induction fuel as [|fuel IH]; intros fc Hs st r st'; cbn [Run_loop].
  - destruct (IsDone (eng st)); intros [= <- <-]; reflexivity.
  - destruct (IsDone (eng st)); [intros [= <- <-]; reflexivity|].
    revert st r st'. change (keeps f
      (bind (revertSection World GetStageProgress since fc)
         (fun r => match r with
                   | inl e => ret (inl e)
                   | inr (firstCycle, invalidBlockRevert) =>
                       bind (forwardSection World GetStageProgress since firstCycle
                               invalidBlockRevert)
                         (fun e => match e with
                                   | Some e => ret (inl e)
                                   | None => Run_loop World GetStageProgress since fuel
                                               firstCycle
                                   end)
                   end))).
    apply keeps_bind; [by apply keeps_revertSection_static|].
    intros [e|[fc1 flag]]; [keeps_go Hs|].
    apply keeps_bind; [by apply keeps_forwardSection_static|].
    intros [e|]; [keeps_go Hs | by apply IH].
Qed.

Lemma keeps_cleanUp_loop_static {B} (f : sync -> B) from fc found l :
  static f →
  keeps f (cleanUp_loop World GetStageProgress GetStageCleanUpProgress since from fc found l).
Proof.
  intros Hs. revert found. induction l as [|[p|] l IH]; intros found; cbn [cleanUp_loop].
  - keeps_go Hs.
  - apply keeps_bind; [keeps_go Hs|]. intros s.
    destruct (stages s !! from); [|keeps_go Hs].
    destruct (negb _ || _); [apply IH|].
    apply keeps_bind; [by apply keeps_pruneStage_static|].
    intros [e|]; [keeps_go Hs | apply IH].
  - keeps_go Hs.
Qed.

(** The cleanup loop comes back only from an order without nil entries. *)
Lemma cleanUp_loop_Val from fc l : ∀ found st st',
  cleanUp_loop World GetStageProgress GetStageCleanUpProgress since from fc found l st
    = (Val tt, st') →
  Forall is_Some l ∧ (l ≠ [] → is_Some (stages (eng st) !! from)).
Proof.
  induction l as [|[p|] l IH]; intros found st st'; cbn [cleanUp_loop].
  - intros _. split; [constructor | done].
  - intros H. apply bind_Val in H as (s & st0 & Hget & H). injection Hget as <- <-.
    destruct (stages (eng st) !! from) as [first|] eqn:Hf; [|discriminate].
    assert (Forall is_Some l) as Hl.
    { destruct (negb _ || _).
      - by apply IH in H as [? _].
      - apply bind_Val in H as (e & st1 & _ & H). destruct e; [discriminate|].
        by apply IH in H as [? _]. }
    split; [constructor; eauto | eauto].
  - discriminate.
Qed.

(** X14.  [Run] returns nil only for an engine that has a stage and whose
    cleanup order has no nil entry: with no stage, or with a nil entry in
    the cleanup order, it panics instead. *)
Theorem Run_nil_needs_stages_and_full_cleanup_order fuel tx fc (st st' : state World) :
  Run World GetStageProgress GetStageCleanUpProgress BucketSize Buckets since fuel tx fc st
    = (Val None, st') →
  stages (eng st) ≠ [] ∧ Forall is_Some (pruningOrder (eng st)).
Proof.
  unfold Run. intros H.
  apply bind_Val in H as (? & st1 & H1 & H). unfold modify_eng in H1.
  apply bind_Val in H as (? & st2 & H2 & H). unfold modify_eng in H2. simplify_eq.
  apply bind_Val in H as (r & st3 & Hloop & H).
  destruct r as [e|fc1]; [discriminate|].
  assert (stages (eng st3) = stages (eng st)) as Hst3.
  { apply (keeps_Run_loop_static stages fuel fc static_stages) in Hloop. exact Hloop. }
  assert (pruningOrder (eng st3) = pruningOrder (eng st)) as Hpr3.
  { apply (keeps_Run_loop_static pruningOrder fuel fc static_pruningOrder) in Hloop.
    exact Hloop. }
  apply bind_Val in H as (e & st4 & Hclean & H).
  assert (stages (eng st4) = stages (eng st)) as Hst4.
  { rewrite <- Hst3. revert Hclean. unfold cleanUp.
    apply keeps_bind; [apply keeps_get_eng|]. intros s.
    apply keeps_bind; [apply keeps_cleanUp_loop_static, static_stages|].
    intros; apply keeps_ret. }
  destruct e; [discriminate|].
  apply bind_Val in H as (s & st5 & Hget & H). injection Hget as <- <-.
  split.
  - intros E. rewrite <- Hst4 in E. rewrite E in H. discriminate.
  - unfold cleanUp in Hclean.
    apply bind_Val in Hclean as (s & st0 & Hget & Hclean). injection Hget as <- <-.
    apply bind_Val in Hclean as ([] & st6 & Hc & _).
    apply cleanUp_loop_Val in Hc as [Hc _]. by rewrite <- Hpr3.
Qed.


(** ** The order of the cleanup pass *)

Definition call_stage (c : call) : string :=
  match c with
  | CallExec id _ _ _ | CallRevert id _ _ _ | CallCleanUp id _ _ => id
  end.

Definition is_cleanup_call (c : call) : Prop :=
  match c with
  | CallCleanUp _ _ _ => True
  | _ => False
  end.

(** The part of an order from the first entry with the given id on. *)
Fixpoint from_first (id : SyncStageID) (l : list (Stage World)) : list (Stage World) :=
  match l with
  | [] => []
  | p :: l => if String.eqb (ID p) id then p :: l else from_first id l
  end.

Definition enabled (l : list (Stage World)) : list (Stage World) :=
  List.filter (fun p => negb (Disabled p)) l.

Lemma pruneStage_done fc p (st st' : state World) :
  pruneStage World GetStageProgress GetStageCleanUpProgress since fc p st = (Val None, st') →
  (∃ prune, calls st' = calls st ++ [CallCleanUp (ID p) fc prune]) ∧
  (∃ t, timings (eng st') = timings (eng st) ++ [mkTiming false true (ID p) t]).
Proof.
  unfold pruneStage, stageState, CleanUpStageState, SetCurrentStage, LogPrefix,
    append_timing, bind, get_eng, get_world, modify_eng, put_world, log_call, ret, raise.
  simpl. intros H.
  repeat (case_match; simplify_eq; simpl in * ); eauto.
Qed.

Lemma cleanUp_loop_order from fc first l : ∀ found (st st' : state World),
  stages (eng st) !! from = Some first →
  cleanUp_loop World GetStageProgress GetStageCleanUpProgress since from fc found
    (Some <$> l) st = (Val tt, st') →
  let cleaned := enabled (if found then l else from_first (ID first) l) in
  ∃ cs ts,
    calls st' = calls st ++ cs ∧ Forall is_cleanup_call cs ∧
    map call_stage cs = map ID cleaned ∧
    timings (eng st') = timings (eng st) ++ ts ∧
    Forall (fun t => isCleanUp t = true ∧ isRevert t = false) ts ∧
    map stage ts = map ID cleaned.
Proof.
  induction l as [|p l IH]; intros found st st' Hfirst; cbn [cleanUp_loop fmap list_fmap].
  - intros [= <-]. exists [], []. rewrite !app_nil_r. destruct found; repeat split; constructor.
  - intros H. apply bind_Val in H as (s & st0 & Hget & H). injection Hget as <- <-.
    rewrite Hfirst in H.
    destruct (found || String.eqb (ID p) (ID first)) eqn:Hfound; simpl in H.
    + assert ((if found then p :: l else from_first (ID first) (p :: l)) = p :: l) as ->.
      { destruct found; [done|]. simpl in *. by rewrite Hfound. }
      destruct (Disabled p) eqn:Hd.
      * destruct (IH true st st' Hfirst H) as (cs & ts & H1 & H2 & H3 & H4 & H5 & H6).
        exists cs, ts. unfold enabled in *. simpl. rewrite Hd. simpl. repeat split; assumption.
      * apply bind_Val in H as (e & st1 & Hp & H). destruct e; [discriminate|].
        assert (stages (eng st1) = stages (eng st)) as Hst1.
        { revert Hp. apply keeps_pruneStage_static, static_stages. }
        destruct (pruneStage_done _ _ _ _ Hp) as [(prune & Hc) (t & Ht)].
        rewrite <- Hst1 in Hfirst.
        destruct (IH true st1 st' Hfirst H) as (cs & ts & H1 & H2 & H3 & H4 & H5 & H6).
        exists (CallCleanUp (ID p) fc prune :: cs), (mkTiming false true (ID p) t :: ts).
        unfold enabled in *. simpl. rewrite Hd. simpl.
        rewrite H1, Hc, H4, Ht, <- !app_assoc. simpl.
        repeat split; auto; try (by f_equal); try (by constructor).
    + apply orb_false_iff in Hfound as [-> Hne]. simpl. rewrite Hne.
      apply (IH false st st' Hfirst H).
Qed.

(** X15.  The cleanup pass of [Run] starts at the place of the first
    forward stage in the cleanup order: the cleanup handlers called, and
    the timings recorded, are those of the enabled stages from that place
    on, in the order of the cleanup order; the stages before it are not
    cleaned. *)
Theorem cleanUp_runs_from_first_stage fc first l (st st' : state World) r :
  stages (eng st) !! 0%nat = Some first →
  pruningOrder (eng st) = Some <$> l →
  cleanUp World GetStageProgress GetStageCleanUpProgress since 0 fc st = (Val r, st') →
  let cleaned := enabled (from_first (ID first) l) in
  r = None ∧
  ∃ cs ts,
    calls st' = calls st ++ cs ∧ Forall is_cleanup_call cs ∧
    map call_stage cs = map ID cleaned ∧
    timings (eng st') = timings (eng st) ++ ts ∧
    Forall (fun t => isCleanUp t = true ∧ isRevert t = false) ts ∧
    map stage ts = map ID cleaned.
Proof.
  intros Hfirst Hl H. unfold cleanUp in H.
  apply bind_Val in H as (s & st0 & Hget & H). injection Hget as <- <-.
  apply bind_Val in H as ([] & st1 & Hloop & H). injection H as <- <-.
  split; [done|]. rewrite Hl in Hloop.
  apply (cleanUp_loop_order 0 fc first l false st st1 Hfirst Hloop).
Qed.

Lemma bind_eq {A B} (m : M World A) (k : A -> M World B) st a st1 :
  m st = (Val a, st1) → bind m k st = k a st1.
Proof. intros H. unfold bind. by rewrite H. Qed.

(** ** A cycle with every stage disabled *)

(** The two engines differ at most in the current stage. *)
Definition same_but_stage (s s' : sync) : Prop :=
  isBeacon s' = isBeacon s ∧ revertPoint s' = revertPoint s ∧
  prevRevertPoint s' = prevRevertPoint s ∧ invalidBlock s' = invalidBlock s ∧
  stages s' = stages s ∧ revertOrder s' = revertOrder s ∧
  pruningOrder s' = pruningOrder s ∧ timings s' = timings s.

Lemma Run_loop_all_disabled fc fuel : ∀ (st : state World),
  revertPoint (eng st) = None →
  Forall (fun p => Disabled p = true) (stages (eng st)) →
  (length (stages (eng st)) <= fuel + currentStage (eng st))%nat →
  ∃ st', Run_loop World GetStageProgress since fuel fc st = (Val (inr fc), st') ∧
         world st' = world st ∧ calls st' = calls st ∧ same_but_stage (eng st) (eng st').
Proof.
  induction fuel as [|fuel IH]; intros st Hrp Hdis Hfuel.
  - exists st. cbn [Run_loop]. unfold IsDone. rewrite Hrp.
    replace (length (stages (eng st)) <=? currentStage (eng st))%nat with true
      by (symmetry; apply Nat.leb_le; lia).
    rewrite bool_decide_eq_true_2 by done. simpl. repeat split; auto.
  - destruct (IsDone (eng st)) eqn:Hdone.
    + exists st. cbn [Run_loop]. rewrite Hdone. repeat split; auto.
    + rewrite (Run_loop_body GetStageProgress since fuel fc st Hdone).
      unfold bind at 1. rewrite (revertSection_no_revert GetStageProgress since fc st Hrp).
      unfold IsDone in Hdone. rewrite Hrp, bool_decide_eq_true_2, andb_true_r in Hdone by done.
      apply Nat.leb_gt in Hdone.
      destruct (lookup_lt_is_Some_2 _ _ Hdone) as [stage Hstage].
      assert (Disabled stage = true) as Hd.
      { eapply Forall_lookup_1 in Hdis; eauto. }
      unfold bind at 1. unfold forwardSection at 1.
      unfold bind at 1, get_eng at 1. rewrite Hstage, Hd.
      unfold bind at 1, modify_eng at 1, ret at 1.
      destruct (IH (mkState (NextStage (eng st)) (world st) (calls st)))
        as (st' & Hrun & Hw & Hc & Hsame); simpl; auto; [lia|].
      exists st'. split; [exact Hrun|]. simpl in *. auto.
Qed.

Lemma cleanUp_loop_all_disabled fc first l : ∀ found (st : state World),
  stages (eng st) !! 0%nat = Some first →
  Forall (fun o => ∃ p, o = Some p ∧ Disabled p = true) l →
  cleanUp_loop World GetStageProgress GetStageCleanUpProgress since 0 fc found l st
    = (Val tt, st).
Proof.
  induction l as [|o l IH]; intros found st Hfirst Hl; cbn [cleanUp_loop]; [done|].
  apply Forall_cons in Hl as [(p & -> & Hd) Hl].
  unfold bind, get_eng. rewrite Hfirst, Hd, orb_true_r. by apply IH.
Qed.

(** X16.  With no revert pending and every stage disabled, also in the
    cleanup order, [Run] calls no handler and leaves the world alone: it
    returns nil with the timings and the previous revert point cleared and
    the engine at its first stage. *)
Theorem Run_all_disabled fuel tx fc (st : state World) first :
  revertPoint (eng st) = None →
  stages (eng st) !! 0%nat = Some first →
  Forall (fun p => Disabled p = true) (stages (eng st)) →
  Forall (fun o => ∃ p, o = Some p ∧ Disabled p = true) (pruningOrder (eng st)) →
  (length (stages (eng st)) <= fuel + currentStage (eng st))%nat →
  Run World GetStageProgress GetStageCleanUpProgress BucketSize Buckets since fuel tx fc st
    = (Val None,
       mkState (set_currentStage 0 (set_timings [] (set_prevRevertPoint None (eng st))))
               (world st) (calls st)).
Proof.
  intros Hrp Hfirst Hdis Hpr Hfuel. unfold Run.
  rewrite (bind_eq (modify_eng (set_prevRevertPoint None)) _ st tt _ eq_refl).
  rewrite (bind_eq (modify_eng (set_timings [])) _ _ tt _ eq_refl).
  set (st0 := mkState (set_timings [] (set_prevRevertPoint None (eng st))) (world st)
                      (calls st)).
  destruct (Run_loop_all_disabled fc fuel st0) as (st3 & Hrun & Hw & Hc & Hsame); auto.
  destruct Hsame as (Hb & Hr3 & Hp3 & Hi3 & Hs3 & Ho3 & Hpo3 & Ht3). simpl in *.
  change (mkState (set_timings [] (eng (mkState (set_prevRevertPoint None (eng st))
            (world st) (calls st)))) (world st) (calls st)) with st0.
  rewrite (bind_eq _ _ _ _ _ Hrun).
  assert (cleanUp World GetStageProgress GetStageCleanUpProgress since 0 fc st3
            = (Val None, st3)) as Hclean.
  { unfold cleanUp. rewrite (bind_eq get_eng _ st3 (eng st3) st3 eq_refl).
    rewrite (bind_eq _ _ st3 tt st3); [done|].
    apply (cleanUp_loop_all_disabled fc first); rewrite ?Hs3, ?Hpo3; auto. }
  rewrite (bind_eq _ _ _ _ _ Hclean).
  rewrite (bind_eq get_eng _ st3 (eng st3) st3 eq_refl). rewrite Hs3, Hfirst.
  destruct (stages (eng st)) as [|f rest] eqn:Hst; [discriminate|].
  injection Hfirst as ->.
  assert (SetCurrentStage (ID first) st3
            = (Val None, mkState (set_currentStage 0 (eng st3)) (world st3) (calls st3)))
    as Hset.
  { unfold SetCurrentStage. rewrite (bind_eq get_eng _ st3 (eng st3) st3 eq_refl).
    by rewrite Hs3, stage_index_head. }
  rewrite (bind_eq _ _ _ _ _ Hset).
  rewrite (bind_eq get_eng _ _ _ _ eq_refl). simpl.
  unfold printLogs, bind, get_world, modify_eng, ret. simpl. rewrite Ht3. simpl.
  destruct tx; simpl; rewrite Hw, Hc; f_equal; f_equal;
    unfold set_currentStage, set_timings, set_prevRevertPoint; simpl; congruence.
Qed.

(** ** printLogs *)

Lemma logCtx_slow ts : ∀ c e, e ∈ logCtx ts c → ∃ t, t ∈ ts ∧ e.2 = took t ∧ (50000000 <= took t)%Z.
Proof.
  induction ts as [|t ts IH]; intros c e; cbn [logCtx]; [by intros ?%elem_of_nil|].
  destruct (Z.ltb_spec (took t) 50000000).
  - intros H'. destruct (IH _ _ H') as (t' & ? & ?). exists t'. split; [by right | done].
  - destruct (Nat.eqb_spec (S c) 50); [by intros ?%elem_of_nil|].
    intros [->|H']%elem_of_cons.
    + exists t. split; [by left | done].
    + destruct (IH _ _ H') as (t' & ? & ?). exists t'. split; [by right | done].
Qed.

Lemma bucketSizes_Some w bs e :
  bucketSizes World BucketSize w bs = Some e → ∃ b, b ∈ bs ∧ BucketSize w b = inl e.
Proof.
  induction bs as [|b bs IH]; simpl; [discriminate|].
  destruct (BucketSize w b) as [e'|] eqn:E.
  - intros [= <-]. exists b. split; [by left | done].
  - intros H. destruct (IH H) as (b' & ? & ?). exists b'. split; [by right | done].
Qed.

(** X17.  [printLogs] returns an error only when it was given a
    transaction, some timing took 50ms or more, and reading the size of
    one of the buckets failed with that error; the engine is left as it
    was. *)
Theorem printLogs_error tx ts (st st' : state World) e :
  printLogs World BucketSize Buckets tx ts st = (Val (Some e), st') →
  tx = true ∧ st' = st ∧
  (∃ t, t ∈ ts ∧ (50000000 <= took t)%Z) ∧
  ∃ b, b ∈ Buckets ∧ BucketSize (world st) b = inl e.
Proof.
  unfold printLogs, bind, get_world, ret. simpl.
  destruct tx; simpl; [|discriminate].
  destruct (logCtx ts 0) as [|x l] eqn:E; [discriminate|].
  intros [= H <-]. repeat split; auto.
  - destruct (logCtx_slow ts 0 x) as (t & ? & _ & ?); [rewrite E; by left|]. eauto.
  - by apply bucketSizes_Some.
Qed.

(** ** Who is handed the invalid-block-revert flag *)

(** [c] is not an Exec call with the invalid-block-revert flag set of a
    stage other than [id]. *)
Definition flag_only_for (id : SyncStageID) (c : call) : Prop :=
  match c with
  | CallExec id' _ true _ => id' = id
  | _ => True
  end.

(** Every handler call a computation makes satisfies [P]. *)
Definition logs {A} (P : call -> Prop) (m : M World A) : Prop :=
  ∀ st r st', m st = (r, st') → ∃ cs, calls st' = calls st ++ cs ∧ Forall P cs.

Lemma logs_silent {A} (P : call -> Prop) (m : M World A) :
  (∀ st, calls (m st).2 = calls st) → logs P m.
Proof.
  intros H st r st' E. exists []. rewrite app_nil_r. split; [|constructor].
  specialize (H st). by rewrite E in H.
Qed.

Lemma logs_ret {A} P (a : A) : logs P (ret (World:=World) a).
Proof. by apply logs_silent. Qed.
Lemma logs_raise {A} P p : logs P (raise (World:=World) (A:=A) p).
Proof. by apply logs_silent. Qed.
Lemma logs_get_eng P : logs P (get_eng (World:=World)).
Proof. by apply logs_silent. Qed.
Lemma logs_get_world P : logs P (get_world (World:=World)).
Proof. by apply logs_silent. Qed.
Lemma logs_put_world P (w : World) : logs P (put_world w).
Proof. by apply logs_silent. Qed.
Lemma logs_modify P (g : StagedStreamSync World -> StagedStreamSync World) :
  logs P (modify_eng g).
Proof. by apply logs_silent. Qed.

Lemma logs_log_call (P : call -> Prop) c : P c → logs P (log_call (World:=World) c).
Proof.
  intros Hc st r st' [= <- <-]. exists [c]. split; [done|]. by constructor.
Qed.

Lemma logs_bind {A B} P (m : M World A) (k : A -> M World B) :
  logs P m → (∀ a, logs P (k a)) → logs P (bind m k).
Proof.
  intros Hm Hk st r st' H. unfold bind in H.
  destruct (m st) as [[a|p|] st1] eqn:E.
  - destruct (Hm _ _ _ E) as (cs1 & H1 & HP1). destruct (Hk a _ _ _ H) as (cs2 & H2 & HP2).
    exists (cs1 ++ cs2). rewrite H2, H1, app_assoc. split; [done|]. by apply Forall_app.
  - injection H as <- <-. eapply Hm, E.
  - injection H as <- <-. eapply Hm, E.
Qed.

Lemma logs_bind_run {A B} P (m : M World A) (k : A -> M World B) st r st' :
  bind m k st = (r, st') → logs P m → (∀ a, logs P (k a)) →
  ∃ cs, calls st' = calls st ++ cs ∧ Forall P cs.
Proof. intros H Hm Hk. exact (logs_bind P m k Hm Hk st r st' H). Qed.

Ltac logs_go :=
  repeat first
    [ apply logs_ret | apply logs_raise | apply logs_get_eng
    | apply logs_get_world | apply logs_put_world | apply logs_modify
    | apply logs_log_call; first [solve [auto] | exact I]
    | apply logs_bind; [| intros ?]
    | match goal with
      | |- logs _ (match ?x with _ => _ end) => destruct x
      | |- logs _ (let '(_, _) := ?x in _) => destruct x
      | |- logs _ (if ?x then _ else _) => destruct x
      end ].

Lemma logs_runStage id stage fc flag :
  flag = false ∨ ID stage = id →
  logs (flag_only_for id) (runStage World GetStageProgress since stage fc flag).
Proof.
  intros H. unfold runStage, stageState, LogPrefix, append_timing.
  assert (∀ s, flag_only_for id (CallExec (ID stage) fc flag s)) as Hc.
  { intros s. destruct H as [->|<-]; simpl; [done|]. by destruct flag. }
  logs_go.
Qed.

Lemma logs_revertStage id fc stage :
  logs (flag_only_for id) (revertStage World GetStageProgress since fc stage).
Proof.
  unfold revertStage, stageState, SetCurrentStage, LogPrefix, append_timing. logs_go.
Qed.

Lemma logs_pruneStage id fc stage :
  logs (flag_only_for id)
       (pruneStage World GetStageProgress GetStageCleanUpProgress since fc stage).
Proof.
  unfold pruneStage, stageState, CleanUpStageState, SetCurrentStage, LogPrefix,
    append_timing.
  logs_go.
Qed.

Lemma logs_revertPass id fc l :
  logs (flag_only_for id) (revertPass World GetStageProgress since fc l).
Proof.
  induction l as [|[p|] l IH]; cbn [revertPass].
  - logs_go.
  - destruct (Disabled p); [apply IH|].
    apply logs_bind; [apply logs_revertStage|]. intros [e|]; [logs_go | apply IH].
  - apply IH.
Qed.

Lemma logs_revertSection id fc :
  logs (flag_only_for id) (revertSection World GetStageProgress since fc).
Proof.
  unfold revertSection.
  apply logs_bind; [logs_go|]. intros s.
  destruct (revertPoint s); [|logs_go].
  apply logs_bind; [apply logs_revertPass|].
  intros [e|]; [logs_go|]. unfold SetCurrentStage. logs_go.
Qed.

Lemma logs_cleanUp_loop id from fc found l :
  logs (flag_only_for id)
       (cleanUp_loop World GetStageProgress GetStageCleanUpProgress since from fc found l).
Proof.
  revert found. induction l as [|[p|] l IH]; intros found; cbn [cleanUp_loop].
  - logs_go.
  - apply logs_bind; [logs_go|]. intros s.
    destruct (stages s !! from); [|logs_go].
    destruct (negb _ || _); [apply IH|].
    apply logs_bind; [apply logs_pruneStage|].
    intros [e|]; [logs_go | apply IH].
  - logs_go.
Qed.

(** The forward step hands the flag to the current stage. *)
Lemma forwardSection_flag (first : Stage World) fc flag (st : state World) r st' :
  stages (eng st) !! 0%nat = Some first →
  (flag = true → currentStage (eng st) = 0%nat) →
  forwardSection World GetStageProgress since fc flag st = (r, st') →
  ∃ cs, calls st' = calls st ++ cs ∧ Forall (flag_only_for (ID first)) cs.
Proof.
  intros Hfirst Hcur. unfold forwardSection. unfold bind at 1, get_eng at 1.
  destruct (stages (eng st) !! currentStage (eng st)) as [stage|] eqn:Hstage.
  2: { intros [= <- <-]. exists []. by rewrite app_nil_r. }
  destruct (Disabled stage).
  { intros [= <- <-]. exists []. simpl. by rewrite app_nil_r. }
  assert (flag = false ∨ ID stage = ID first) as Hflag.
  { destruct flag; [right | by left]. rewrite Hcur in Hstage by done. congruence. }
  intros H. refine (logs_bind (flag_only_for (ID first)) _ _ _ _ st r st' H).
  - by apply logs_runStage.
  - intros [e|]; logs_go.
Qed.

(** Whatever the loop does, it hands the flag to the first stage only. *)
Lemma Run_loop_flag (first : Stage World) fuel : ∀ fc (st : state World) r st',
  stages (eng st) !! 0%nat = Some first →
  Run_loop World GetStageProgress since fuel fc st = (r, st') →
  ∃ cs, calls st' = calls st ++ cs ∧ Forall (flag_only_for (ID first)) cs.
Proof.
  induction fuel as [|fuel IH]; intros fc st r st' Hfirst.
  - cbn [Run_loop]. destruct (IsDone (eng st)); intros [= <- <-];
      exists []; by rewrite app_nil_r.
  - destruct (IsDone (eng st)) eqn:Hdone.
    { cbn [Run_loop]. rewrite Hdone. intros [= <- <-]. exists []. by rewrite app_nil_r. }
    rewrite (Run_loop_body GetStageProgress since fuel fc st Hdone).
    unfold bind at 1.
    destruct (revertSection World GetStageProgress since fc st) as [r1 st1] eqn:Hrev.
    destruct (logs_revertSection (ID first) fc _ _ _ Hrev) as (cs1 & Hc1 & HP1).
    assert (stages (eng st1) = stages (eng st)) as Hst1.
    { revert Hrev. apply keeps_revertSection_static, static_stages. }
    destruct r1 as [[e|[fc1 flag]]|p|];
      try (intros [= <- <-]; exists cs1; done).
    assert (flag = true → currentStage (eng st1) = 0%nat) as Hcur.
    { intros ->. destruct (revertPoint (eng st)) as [rp|] eqn:Hrp.
      - by destruct (revert_section_resets GetStageProgress since fc st st1 fc1 true rp
                       Hrp Hrev) as (_ & _ & _ & ? & _).
      - rewrite (revertSection_no_revert GetStageProgress since fc st Hrp) in Hrev.
        discriminate. }
    unfold bind at 1.
    destruct (forwardSection World GetStageProgress since fc1 flag st1) as [r2 st2] eqn:Hfw.
    rewrite <- Hst1 in Hfirst.
    destruct (forwardSection_flag first fc1 flag st1 r2 st2 Hfirst Hcur Hfw)
      as (cs2 & Hc2 & HP2).
    assert (stages (eng st2) = stages (eng st1)) as Hst2.
    { revert Hfw. apply keeps_forwardSection_static, static_stages. }
    assert (calls st2 = calls st ++ cs1 ++ cs2) as Hc12 by (rewrite Hc2, Hc1, app_assoc; done).
    destruct r2 as [[e|]|p|];
      try (intros [= <- <-]; exists (cs1 ++ cs2); split; [done | by apply Forall_app]).
    intros H. rewrite <- Hst2 in Hfirst.
    destruct (IH fc1 st2 r st' Hfirst H) as (cs3 & Hc3 & HP3).
    exists (cs1 ++ cs2 ++ cs3). rewrite Hc3, Hc12, <- !app_assoc. split; [done|].
    apply Forall_app. split; [done|]. by apply Forall_app.
Qed.

(** In every execution of [Run], whatever it returns, each Exec call
    with the invalid-block-revert flag set is a call of the first stage
    of the forward order: no later stage is ever handed the flag. *)
Lemma Run_flag_first_stage_only (first : Stage World) fuel tx fc (st : state World) r st' :
  stages (eng st) !! 0%nat = Some first →
  Run World GetStageProgress GetStageCleanUpProgress BucketSize Buckets since fuel tx fc st
    = (r, st') →
  ∃ cs, calls st' = calls st ++ cs ∧
        ∀ id fc' s, CallExec id fc' true s ∈ cs → id = ID first.
Proof.
  intros Hfirst Hrun.
  assert (∃ cs, calls st' = calls st ++ cs ∧ Forall (flag_only_for (ID first)) cs)
    as (cs & Hcs & HP).
  { revert Hrun. unfold Run.
    unfold bind at 1, modify_eng at 1. unfold bind at 1, modify_eng at 1.
    unfold bind at 1.
    match goal with
    | |- context [Run_loop _ _ _ _ _ ?st0] =>
        destruct (Run_loop World GetStageProgress since fuel fc st0) as [r1 st1] eqn:Hloop
    end.
    apply (Run_loop_flag first) in Hloop as (cs1 & Hc1 & HP1); [|exact Hfirst].
    simpl in Hc1.
    destruct r1 as [[e|fc1]|p|]; try (intros [= <- <-]; exists cs1; done).
    intros H.
    eapply logs_bind_run in H as (cs2 & Hc2 & HP2).
    2: { unfold cleanUp. apply logs_bind; [logs_go|]. intros s.
         apply logs_bind; [apply logs_cleanUp_loop | intros; logs_go]. }
    2: { intros [e|]; [logs_go|]. unfold SetCurrentStage, printLogs. logs_go. }
    exists (cs1 ++ cs2). rewrite Hc2, Hc1, app_assoc. split; [done|]. by apply Forall_app. }
  exists cs. split; [exact Hcs|]. intros id fc' s Hin.
  eapply Forall_forall in HP; [|exact Hin]. exact HP.
Qed.

End RunFacts.

(** ** ByteCount *)

Lemma unit_loop_inv b fuel : ∀ n div exp,
  (0 <= b < 2 ^ 64)%Z →
  div = (1024 ^ Z.of_nat (S exp))%Z →
  n = (b / div)%Z → (1 <= n)%Z →
  (n < 1024 ^ Z.of_nat (S fuel))%Z →
  ∃ div' exp',
    unit_loop fuel n div exp = Val (div', exp') ∧
    div' = (1024 ^ Z.of_nat (S exp'))%Z ∧ (div' <= b < 1024 * div')%Z.
Proof.
  induction fuel as [|fuel IH]; intros n div exp Hb Hdiv Hn H1 Hfuel.
  - cbn [unit_loop]. unfold byteUnit.
    assert (0 < div)%Z as Hpos by (subst div; apply Z.pow_pos_nonneg; lia).
    destruct (Z.leb_spec 1024 n).
    + change (1024 ^ Z.of_nat 1)%Z with 1024%Z in Hfuel. lia.
    + exists div, exp. split; [done|]. split; [done|].
      subst n. split.
      * pose proof (Z.mul_div_le b div Hpos). nia.
      * pose proof (Z.mul_succ_div_gt b div Hpos). nia.
  - cbn [unit_loop]. unfold byteUnit.
    assert (0 < div)%Z as Hpos by (subst div; apply Z.pow_pos_nonneg; lia).
    destruct (Z.leb_spec 1024 n).
    + assert (1024 * div <= b)%Z as Hle.
      { subst n. pose proof (Z.mul_div_le b div Hpos). nia. }
      assert (wrap64 (div * 1024) = (div * 1024)%Z) as ->.
      { unfold wrap64. apply Z.mod_small. lia. }
      apply IH; auto.
      * rewrite Hdiv. rewrite (Nat2Z.inj_succ (S exp)), Z.pow_succ_r by lia. lia.
      * subst n. rewrite Z.div_div by lia. reflexivity.
      * apply Z.div_le_lower_bound; lia.
      * apply Z.div_lt_upper_bound; [lia|].
        rewrite (Nat2Z.inj_succ (S fuel)), Z.pow_succ_r in Hfuel by lia. lia.
    + exists div, exp. split; [done|]. split; [done|].
      subst n. split.
      * pose proof (Z.mul_div_le b div Hpos). nia.
      * pose proof (Z.mul_succ_div_gt b div Hpos). nia.
Qed.

(** X18.  For every [uint64] value [ByteCount] returns: below 1024 the
    bytes themselves, and else a power [div] of 1024 with
    [div <= b < 1024 * div] and the letter of that power in KMGTPE; the
    index into the letters is never out of range. *)
Theorem ByteCount_unit_in_range b :
  (0 <= b < 2 ^ 64)%Z →
  ((b < 1024)%Z ∧ ByteCount b = Val (Bytes b)) ∨
  ∃ div exp c,
    ByteCount b = Val (Scaled b div c) ∧
    String.get exp "KMGTPE" = Some c ∧
    div = (1024 ^ Z.of_nat (S exp))%Z ∧ (div <= b < 1024 * div)%Z.
Proof.
  intros Hb. destruct (Z.ltb_spec b 1024) as [Hlt|Hge].
  { left. split; [done|]. unfold ByteCount, byteUnit.
    destruct (Z.ltb_spec b 1024); [done | lia]. }
  right.
  destruct (unit_loop_inv b 64 (b / byteUnit) byteUnit 0 Hb)
    as (div & exp & Hrun & Hdiv & Hrange).
  - reflexivity.
  - reflexivity.
  - unfold byteUnit. apply Z.div_le_lower_bound; lia.
  - unfold byteUnit. apply Z.div_lt_upper_bound; [lia|].
    assert (2 ^ 64 < 1024 * 1024 ^ Z.of_nat 65)%Z by (vm_compute; reflexivity). lia.
  - assert (exp < 6)%nat as Hexp.
    { destruct (Nat.lt_ge_cases exp 6) as [|Hge6]; [done|]. exfalso.
      assert (1024 ^ 7 <= 1024 ^ Z.of_nat (S exp))%Z by (apply Z.pow_le_mono_r; lia).
      assert (2 ^ 64 < 1024 ^ 7)%Z by (vm_compute; reflexivity). lia. }
    assert (∃ c, String.get exp "KMGTPE" = Some c) as [c Hc].
    { do 6 (destruct exp as [|exp]; [simpl; eauto|]). lia. }
    exists div, exp, c. unfold ByteCount.
    destruct (Z.ltb_spec b byteUnit); [unfold byteUnit in *; lia|].
    rewrite Hrun, Hc. auto.
Qed.

(** ** Concrete engines *)

Definition twoStages : list (Stage nat) := [Heads false; BodiesStage].

(** All stages of the two-stage engine switched off. *)
Definition all_off : state nat :=
  mkState (DisableAllStages (engine false None 0%Z)).2 0 [].

(** The two-stage engine with Bodies first in the cleanup order. *)
Definition bodies_cleaned_first : state nat :=
  mkState (mkSync false None None 0%Z 0 twoStages
             [Some BodiesStage; Some (Heads false)]
             [Some BodiesStage; Some (Heads false)] []) 0 [].

Definition noSize (w : nat) (b : string) : error + Z := inl (ErrMsg "no such bucket").

Lemma twoStages_NoDup : NoDup (map ID twoStages).
Proof.
  apply NoDup_cons. split; [|apply NoDup_singleton].
  intros H. apply list_elem_of_singleton in H. discriminate H.
Qed.

Lemma engine_shared : shared (engine false None 0%Z).
Proof.
  split; intros p H; simpl in *;
    repeat (apply elem_of_cons in H as [H|H]; [injection H as ->|]);
    try (by inversion H); unfold twoStages; set_solver.
Qed.

Lemma IsBefore_by_position_Heads_Bodies :
  IsBefore (engine false None 0%Z) "Heads" "Bodies" = true ∧
  IsAfter (engine false None 0%Z) "Heads" "Bodies" = false.
Proof.
  apply (IsBefore_by_position (engine false None 0%Z) 0 1 (Heads false) BodiesStage).
  - exact twoStages_NoDup.
  - reflexivity.
  - reflexivity.
Defined.

Lemma IsBefore_missing_stage_Finish :
  IsAfter (engine false None 0%Z) "Finish" "Heads" = false ∧
  IsBefore (engine false None 0%Z) "Heads" "Finish" = false ∧
  IsBefore (engine false None 0%Z) "Finish" "Heads"
    = bool_decide ("Heads" ∈ map ID (stages (engine false None 0%Z))).
Proof.
  apply (IsBefore_missing_stage (engine false None 0%Z) "Finish" "Heads").
  intros H. simpl in H.
  repeat (apply elem_of_cons in H as [H|H]; [discriminate H|]). inversion H.
Defined.

Lemma DisableAll_then_Enable_engine :
  EnableStages ["Heads"; "Bodies"] (eng all_off) = engine false None 0%Z.
Proof.
  apply (DisableAll_then_Enable (engine false None 0%Z) twoStages_NoDup engine_shared).
Defined.

Lemma New_with_full_orders_two :
  ∃ r p,
    New ["Bodies"; "Heads"] ["Heads"; "Bodies"] twoStages false
      = Val (mkSync false None None 0%Z 0 twoStages r p []) ∧
    Forall2 (entry_for twoStages) ["Bodies"; "Heads"] r ∧
    Forall2 (entry_for twoStages) ["Heads"; "Bodies"] p.
Proof.
  apply (New_with_full_orders ["Bodies"; "Heads"] ["Heads"; "Bodies"] twoStages false).
  - apply perm_swap.
  - reflexivity.
Defined.

Lemma New_short_orders_two :
  ∃ r p,
    New ["Bodies"] [] twoStages false = Val (mkSync false None None 0%Z 0 twoStages r p []) ∧
    r !! 0%nat = Some (Some BodiesStage) ∧ r !! 1%nat = Some None ∧
    p !! 0%nat = Some None ∧ p !! 1%nat = Some None.
Proof.
  destruct (New_short_orders ["Bodies"] [] twoStages false) as
    (r & p & Hnew & _ & _ & Hr & Hr' & _ & Hp'); [simpl; lia | simpl; lia |].
  exists r, p. split; [exact Hnew|].
  split; [apply (Hr 0%nat "Bodies" eq_refl)|].
  split; [apply Hr'; simpl; lia|].
  split; apply Hp'; simpl; lia.
Defined.

Lemma New_order_too_long_three :
  ∃ j, New ["Heads"; "Bodies"; "Heads"] [] twoStages false = Panic (IndexOutOfRange j) ∧
       (2 <= j)%nat.
Proof.
  apply (New_order_too_long ["Heads"; "Bodies"; "Heads"] [] twoStages false 2 "Heads").
  - left. reflexivity.
  - simpl. apply elem_of_cons. by left.
  - simpl. lia.
Defined.

Lemma Run_nil_needs_stages_cycle :
  stages (eng (fresh_cycle false)) ≠ [] ∧
  Forall is_Some (pruningOrder (eng (fresh_cycle false))).
Proof.
  apply (Run_nil_needs_stages_and_full_cleanup_order progress10 progress10 size0 [] instant
           10 false true (fresh_cycle false) (run_cycle false).2).
  vm_compute. reflexivity.
Defined.

Lemma cleanUp_skips_Bodies :
  let st' := (cleanUp nat progress10 progress10 instant 0 true bodies_cleaned_first).2 in
  ∃ cs ts,
    calls st' = cs ∧ Forall is_cleanup_call cs ∧ map call_stage cs = ["Heads"] ∧
    timings (eng st') = ts ∧ map stage ts = ["Heads"].
Proof.
  intros st'.
  assert (cleanUp nat progress10 progress10 instant 0 true bodies_cleaned_first
            = (Val None, st')) as Hrun by (vm_compute; reflexivity).
  destruct (cleanUp_runs_from_first_stage progress10 progress10 instant true
              (Heads false) [BodiesStage; Heads false] bodies_cleaned_first st' None
              eq_refl eq_refl Hrun)
    as (_ & cs & ts & H1 & H2 & H3 & H4 & _ & H6).
  exists cs, ts. split; [exact H1|]. split; [exact H2|]. split; [exact H3|].
  split; [exact H4 | exact H6].
Defined.

Lemma Run_all_disabled_all_off :
  Run nat progress10 progress10 size0 [] instant 2 false true all_off
    = (Val None, all_off).
Proof.
  apply (Run_all_disabled progress10 progress10 size0 [] instant 2 false true all_off
           (set_Disabled true (Heads false))).
  - reflexivity.
  - reflexivity.
  - simpl. repeat constructor.
  - simpl. repeat (constructor; [eexists; split; reflexivity|]). constructor.
  - simpl. lia.
Defined.

Lemma printLogs_error_noSize :
  true = true ∧ fresh_cycle false = fresh_cycle false ∧
  (∃ t, t ∈ [mkTiming false false "Heads" 60000000%Z] ∧ (50000000 <= took t)%Z) ∧
  ∃ b, b ∈ ["BlockHashes"] ∧ noSize (world (fresh_cycle false)) b = inl (ErrMsg "no such bucket").
Proof.
  apply (printLogs_error noSize ["BlockHashes"] true
           [mkTiming false false "Heads" 60000000%Z] (fresh_cycle false) (fresh_cycle false)
           (ErrMsg "no such bucket")).
  vm_compute. reflexivity.
Defined.

Lemma ByteCount_1536 :
  ((1536 < 1024)%Z ∧ ByteCount 1536 = Val (Bytes 1536)) ∨
  ∃ div exp c,
    ByteCount 1536 = Val (Scaled 1536 div c) ∧
    String.get exp "KMGTPE" = Some c ∧
    div = (1024 ^ Z.of_nat (S exp))%Z ∧ (div <= 1536 < 1024 * div)%Z.
Proof.
  apply (ByteCount_unit_in_range 1536). split; [lia | by vm_compute].
Defined.


(** ** The invalid-block-revert flag *)

(** C6.  A cycle of the two-stage engine with both stages enabled.  Bodies,
    at its first run, finds the invalid block 2989 and asks for a revert
    to 5.  The revert pass runs in the revert order and the engine is
    reset as described: the revert point has moved to [prevRevertPoint]
    and the invalid block is the zero hash.  But the flag is a local of
    the loop body: it is set in the iteration that runs the revert pass
    and handed to the stage that iteration runs, Heads, the first stage.
    When the loop comes to Bodies, the stage that acts on the flag, it is
    a fresh local again: Bodies is called with the flag unset, and no
    Exec call of a stage other than the first ever has it set. *)
Theorem invalid_block_flag_misses_Bodies :
  (run_cycle false).1 = Val None ∧
  calls (run_cycle false).2 =
    [CallExec "Heads" true false (mkStageState "Heads" 10%Z);
     CallExec "Bodies" true false (mkStageState "Bodies" 10%Z);
     CallRevert "Bodies" true (mkRevertState "Bodies" 5%Z 10%Z 2989%Z)
                (mkStageState "Bodies" 10%Z);
     CallRevert "Heads" true (mkRevertState "Heads" 5%Z 10%Z 2989%Z)
                (mkStageState "Heads" 10%Z);
     CallExec "Heads" false true (mkStageState "Heads" 10%Z);
     CallExec "Bodies" false false (mkStageState "Bodies" 10%Z);
     CallCleanUp "Heads" false (mkCleanUpState "Heads" 10%Z 10%Z);
     CallCleanUp "Bodies" false (mkCleanUpState "Bodies" 10%Z 10%Z)] ∧
  prevRevertPoint (eng (run_cycle false).2) = Some 5%Z ∧
  revertPoint (eng (run_cycle false).2) = None ∧
  invalidBlock (eng (run_cycle false).2) = 0%Z ∧
  (∀ id fc s, CallExec id fc true s ∈ calls (run_cycle false).2 → id = "Heads").
Proof.
  split; [vm_compute; reflexivity|]. split; [vm_compute; reflexivity|].
  split; [vm_compute; reflexivity|]. split; [vm_compute; reflexivity|].
  split; [vm_compute; reflexivity|].
  assert (Run nat progress10 progress10 size0 [] instant 10 false true (fresh_cycle false)
            = ((run_cycle false).1, (run_cycle false).2)) as Hrun
    by (unfold run_cycle; apply surjective_pairing).
  assert (stages (eng (fresh_cycle false)) !! 0%nat = Some (Heads false)) as Hfirst
    by reflexivity.
  destruct (Run_flag_first_stage_only progress10 progress10 size0 [] instant (Heads false)
              10 false true (fresh_cycle false) _ _ Hfirst Hrun) as (cs & Hcs & Hflag).
  change (calls (fresh_cycle false)) with (@nil call) in Hcs.
  rewrite app_nil_l in Hcs. rewrite Hcs. exact Hflag.
Qed.

End EngineLaws.

(* ===================================================================== *)
(** * More of the Bodies stage: hashes, saving, cleaning, re-download    *)
(* ===================================================================== *)

Module BodiesLaws.
Import Bodies BodiesProps.

(** ** validateGetBlocksResult and downloadBlocks *)

Lemma validateLoop_spec requested : ∀ result i,
  (i + length result <= length requested)%nat →
  (validateLoop requested i result = Val None ∧
   ∀ k n, result !! k = Some (Some n) → requested !! (i + k)%nat = Some n) ∨
  (validateLoop requested i result
     = Val (Some (ErrMsg "block with unexpected number delivered")) ∧
   ∃ k n want, result !! k = Some (Some n) ∧ requested !! (i + k)%nat = Some want ∧ n ≠ want).
Proof.
  induction result as [|block result IH]; intros i Hlen; simpl in *.
  - left. split; [done|]. intros k n H. done.
  - destruct (IH (S i) ltac:(lia)) as [[Hrun Hall]|[Hrun (k & n & want & Hk & Hw & Hne)]].
    + destruct block as [number|].
      * destruct (lookup_lt_is_Some_2 requested i ltac:(lia)) as [want Hwant].
        rewrite Hwant. destruct (Z.eqb_spec number want) as [->|Hne]; simpl.
        -- left. split; [done|]. intros [|k] n; simpl.
           ++ intros [= <-]. by rewrite Nat.add_0_r.
           ++ intros H. replace (i + S k)%nat with (S i + k)%nat by lia. by apply Hall.
        -- right. split; [done|]. exists 0%nat, number, want.
           rewrite Nat.add_0_r. done.
      * left. split; [done|]. intros [|k] n; simpl; [done|].
        intros H. replace (i + S k)%nat with (S i + k)%nat by lia. by apply Hall.
    + assert (∃ k n want, (block :: result) !! k = Some (Some n) ∧
                requested !! (i + k)%nat = Some want ∧ n ≠ want) as Hex.
      { exists (S k), n, want. replace (i + S k)%nat with (S i + k)%nat by lia. done. }
      destruct block as [number|]; [|right; done].
      destruct (lookup_lt_is_Some_2 requested i ltac:(lia)) as [want' Hwant].
      rewrite Hwant. destruct (Z.eqb_spec number want'); simpl; right; done.
Qed.

(** X19.  [validateGetBlocksResult] accepts a result exactly when it has as
    many entries as block numbers were requested and every block that is
    not nil has the number requested at its place; nil blocks are
    accepted. *)
Theorem validateGetBlocksResult_accepts requested result :
  validateGetBlocksResult requested result = Val None ↔
  length result = length requested ∧
  ∀ k n, result !! k = Some (Some n) → requested !! k = Some n.
Proof.
  unfold validateGetBlocksResult.
  destruct (Nat.eqb_spec (length result) (length requested)) as [Hlen|Hlen]; simpl.
  - destruct (validateLoop_spec requested result 0 ltac:(lia))
      as [[Hrun Hall]|[Hrun (k & n & want & Hk & Hw & Hne)]]; rewrite Hrun.
    + split; [|done]. intros _. split; [done|]. exact Hall.
    + split; [discriminate|]. intros [_ Hall]. specialize (Hall _ _ Hk).
      simpl in Hw. congruence.
  - split; [discriminate|]. intros [? _]. done.
Qed.

(** X20.  [downloadBlocks] makes one GetBlocksByNumber call, and the
    blocks it returns without an error are the ones the protocol
    delivered, as many as requested, each non-nil one with the number
    requested at its place. *)
Theorem downloadBlocks_only_validated G bns tr blocks stid tr' :
  downloadBlocks G bns tr = (Val (Some blocks, stid, None), tr') →
  tr' = tr ++ [EvGetBlocksByNumber bns] ∧
  G tr bns = (blocks, stid, None) ∧
  length blocks = length bns ∧
  ∀ k n, blocks !! k = Some (Some n) → bns !! k = Some n.
Proof.
  unfold downloadBlocks, bind, history, emit, ret, raise.
  destruct (G tr bns) as [[bl st] [e|]] eqn:HG; [discriminate|].
  destruct (validateGetBlocksResult bns bl) as [[e|]| | |] eqn:Hv; try discriminate.
  intros [= <- <- <-]. unfold validateGetBlocksResult in Hv.
  destruct (Nat.eqb_spec (length bl) (length bns)) as [Hlen|Hlen]; [|discriminate].
  simpl in Hv.
  destruct (validateLoop_spec bns bl 0 ltac:(lia)) as [[_ Hall]|[Hrun _]]; [|congruence].
  auto.
Qed.

Section BodiesMoreFacts.
Variable env : Env.

(** ** fetchBlockHashes *)
Lemma toHash_length b : length (toHash b) = 32%nat.
Proof.
  unfold toHash. rewrite length_app, length_take, length_replicate. lia.
Qed.

Lemma fetchLoop_ok bns : ∀ acc hs,
  fetchLoop env bns acc = (hs, None) →
  ∃ new, hs = acc ++ new ∧
         Forall2 (fun bn h => ∃ v, GetOne env bn = inr v ∧ h = toHash v) bns new.
Proof.
  induction bns as [|bn bns IH]; intros acc hs; simpl.
  - intros [= <-]. exists []. rewrite app_nil_r. split; [done | constructor].
  - destruct (GetOne env bn) as [e|v] eqn:E; [discriminate|].
    intros H. destruct (IH _ _ H) as (new & -> & Hnew).
    exists (toHash v :: new). rewrite <- app_assoc. split; [done|].
    constructor; [eauto | done].
Qed.

(** X21.  When [fetchBlockHashes] returns without an error, the batch was
    not empty and it returns one hash of 32 bytes for each block number, in
    the order of the batch: the hash made of what [GetOne] read under that
    number. *)
Theorem fetchBlockHashes_one_hash_per_block bns hs :
  fetchBlockHashes env bns = (hs, None) →
  bns ≠ [] ∧ length hs = length bns ∧
  Forall2 (fun bn h => ∃ v, GetOne env bn = inr v ∧ h = toHash v) bns hs ∧
  Forall (fun h => length h = 32%nat) hs.
Proof.
  intros H. destruct bns as [|bn bns]; [discriminate|].
  unfold fetchBlockHashes in H. destruct (fetchLoop_ok _ _ _ H) as (new & -> & Hnew).
  simpl. split; [done|]. split; [symmetry; exact (Forall2_length _ _ _ Hnew)|].
  split; [done|].
  clear H. induction Hnew as [|x h l l' (v & _ & ->) _ IH]; constructor; auto using toHash_length.
Qed.

(** A key that is not in the bucket is read as nil, without an error: the
    block then gets the zero hash. *)
Lemma toHash_nil : toHash None = replicate 32 0%Z.
Proof. reflexivity. Qed.

(** ** saveBlocks *)
Definition puts (db : dbid) (x : Z * (option (list Z) * option (list Z))) : list event :=
  match x.2.1 with
  | None => []
  | Some _ => [EvPut db BlocksBucket x.1 x.2.1; EvPut db BlockSignaturesBucket x.1 x.2.2]
  end.

Lemma saveLoop_trace db bns sigs : ∀ blocks i tr,
  (∀ bucket bn, Put env db bucket bn = None) →
  (i + length blocks <= length bns)%nat → (i + length blocks <= length sigs)%nat →
  saveLoop env db bns sigs i blocks tr
    = (Val None,
       tr ++ concat (map (puts db) (zip (drop i bns) (zip blocks (drop i sigs))))).
Proof.
  induction blocks as [|block blocks IH]; intros i tr Hput Hb Hs; simpl in *.
  - destruct (drop i bns); simpl; by rewrite app_nil_r.
  - destruct (lookup_lt_is_Some_2 sigs i ltac:(lia)) as [sig Hsig].
    destruct (lookup_lt_is_Some_2 bns i ltac:(lia)) as [bn Hbn].
    rewrite Hsig.
    rewrite (drop_S _ _ _ Hbn), (drop_S _ _ _ Hsig). simpl.
    destruct block as [b|].
    + rewrite Hbn. unfold bind, emit, ret. rewrite !Hput.
      rewrite IH by (auto; lia). unfold puts at 2. simpl.
      by rewrite <- !app_assoc.
    + rewrite IH by (auto; lia). reflexivity.
Qed.

(** X22.  With its own transaction opened and every write accepted,
    [saveBlocks] writes, for each block that is not nil and in the order of
    the batch, the block to the Blocks bucket and its signature to the
    BlockSignatures bucket of the worker's database under the block's
    number, writes nothing for a nil block, and returns what the commit
    returns. *)
Theorem saveBlocks_writes_block_and_signature w bns blocks sigs tr :
  (w < numBlockDBs env)%nat →
  blockDB_BeginRw env w = None →
  (∀ bucket bn, Put env (BlockDB w) bucket bn = None) →
  (length blocks <= length bns)%nat → (length blocks <= length sigs)%nat →
  saveBlocks env None bns blocks sigs w tr
    = (Val (blockDB_Commit env w),
       tr ++ concat (map (puts (BlockDB w)) (zip bns (zip blocks sigs)))).
Proof.
  intros Hw Hbegin Hput Hb Hs. unfold saveBlocks.
  destruct (Nat.ltb_spec w (numBlockDBs env)); [|lia]. simpl. rewrite Hbegin.
  unfold bind. rewrite (saveLoop_trace (BlockDB w) bns sigs blocks 0 tr) by (auto; lia).
  reflexivity.
Qed.

(** A signature list shorter than the block list *)
Lemma saveLoop_short_sigs db bns sigs : ∀ blocks i tr,
  (∀ bucket bn, Put env db bucket bn = None) →
  Forall is_Some blocks →
  (i + length blocks <= length bns)%nat →
  (i <= length sigs < i + length blocks)%nat →
  ∃ tr', saveLoop env db bns sigs i blocks tr = (Panic (IndexOutOfRange (length sigs)), tr').
Proof.
  induction blocks as [|block blocks IH]; intros i tr Hput Hsome Hb Hs; simpl in *; [lia|].
  apply Forall_cons in Hsome as [[b ->] Hsome].
  destruct (sigs !! i) as [sig|] eqn:Hsig.
  - apply lookup_lt_Some in Hsig as Hlt.
    destruct (lookup_lt_is_Some_2 bns i ltac:(lia)) as [bn Hbn]. rewrite Hbn.
    unfold bind, emit, ret. rewrite !Hput. apply IH; auto; lia.
  - apply lookup_ge_None in Hsig. assert (i = length sigs) as -> by lia. eauto.
Qed.

Lemma valid_blocks_nonnil (blocks : list (option (list Z))) :
  forallb (fun bb => (1 <? len bb)%nat) blocks = true → Forall is_Some blocks.
Proof.
  induction blocks as [|[b|] blocks IH]; simpl; [constructor| |done].
  intros [_ H]%andb_prop. constructor; eauto.
Qed.

(** X23.  The validation of a response does not look at the signatures:
    a response that passes it with fewer signatures than blocks makes the
    worker panic in [saveBlocks], with the index past the last signature
    out of range. *)
Theorem worker_panics_on_short_signatures bns hashes w tr blocks :
  hashes ≠ [] →
  let r := GetRawBlocksByHashes env tr hashes in
  valid_response bns r = true →
  rr_blockBytes r = Some blocks →
  (length (rr_sigBytes r) < length blocks)%nat →
  (w < numBlockDBs env)%nat →
  blockDB_BeginRw env w = None →
  (∀ bucket bn, Put env (BlockDB w) bucket bn = None) →
  ∃ tr', runBlockWorker env bns hashes w tr
           = (Panic (IndexOutOfRange (length (rr_sigBytes r))), tr').
Proof.
  intros Hne r Hv Hbb Hshort Hw Hbegin Hput.
  rewrite (worker_on_valid env bns hashes w tr blocks Hne Hv Hbb). fold r.
  unfold valid_response in Hv. destruct (rr_err r); [discriminate|]. rewrite Hbb in Hv.
  apply andb_prop in Hv as [[_ Hlen]%andb_prop Hall].
  apply Nat.eqb_eq in Hlen.
  destruct (saveLoop_short_sigs (BlockDB w) bns (rr_sigBytes r) blocks 0
              (tr ++ [EvGetRawBlocksByHashes hashes]) Hput (valid_blocks_nonnil _ Hall))
    as [tr' Hsave]; [lia | lia |].
  exists tr'. unfold bind at 1, saveBlocks.
  destruct (Nat.ltb_spec w (numBlockDBs env)); [|lia]. simpl. rewrite Hbegin.
  unfold bind at 1. by rewrite Hsave.
Qed.

(** ** cleanAllBlockDBs *)
Definition clears (i : nat) : list event :=
  [EvClearBucket (BlockDB i) BlocksBucket; EvClearBucket (BlockDB i) BlockSignaturesBucket].

Definition blockDB_ok (i : nat) : Prop :=
  blockDB_BeginRw env i = None ∧
  (∀ bucket, blockDB_ClearBucket env i bucket = None) ∧
  blockDB_Commit env i = None.

Lemma cleanFrom_trace n : ∀ i tr,
  (i <= numBlockDBs env)%nat →
  (∀ j, (i <= j < i + n)%nat → (j < numBlockDBs env)%nat → blockDB_ok j) →
  cleanFrom env i n tr
    = (if (i + n <=? numBlockDBs env)%nat then Val None
       else Panic (IndexOutOfRange (numBlockDBs env)),
       tr ++ flat_map clears (seq i (Nat.min n (numBlockDBs env - i)))).
Proof.
  induction n as [|n IH]; intros i tr Hi Hok; cbn [cleanFrom].
  - simpl. rewrite app_nil_r.
    destruct (Nat.leb_spec (i + 0) (numBlockDBs env)); [done | lia].
  - unfold bind at 1, cleanBlocksDB.
    destruct (Nat.ltb_spec i (numBlockDBs env)) as [Hlt|Hge]; simpl.
    + destruct (Hok i ltac:(lia) Hlt) as (Hb & Hc & Hcm).
      rewrite Hb. unfold bind, emit, ret. rewrite !Hc, Hcm.
      rewrite IH by (try lia; intros; apply Hok; lia).
      replace (i + S n <=? numBlockDBs env)%nat with (S i + n <=? numBlockDBs env)%nat
        by (f_equal; lia).
      f_equal. rewrite <- !app_assoc. f_equal.
      replace (numBlockDBs env - i)%nat with (S (numBlockDBs env - S i)) by lia.
      simpl. reflexivity.
    + assert (i = numBlockDBs env) as -> by lia.
      destruct (Nat.leb_spec (numBlockDBs env + S n) (numBlockDBs env)); [lia|].
      rewrite ?Nat.sub_diag, ?Nat.min_0_r. simpl. by rewrite app_nil_r.
Qed.

(** X24.  With block databases that clear without an error,
    [cleanAllBlockDBs] clears the Blocks and then the BlockSignatures
    bucket of the worker databases 0, 1, ... in turn and returns nil; when
    the concurrency is larger than the number of block databases it panics
    with the index out of range after having cleared all of them. *)
Theorem cleanAllBlockDBs_trace tr :
  (∀ j, (j < concurrency env)%nat → (j < numBlockDBs env)%nat → blockDB_ok j) →
  cleanAllBlockDBs env tr
    = (if (concurrency env <=? numBlockDBs env)%nat then Val None
       else Panic (IndexOutOfRange (numBlockDBs env)),
       tr ++ flat_map clears (seq 0 (Nat.min (concurrency env) (numBlockDBs env)))).
Proof.
  intros Hok. unfold cleanAllBlockDBs.
  rewrite (cleanFrom_trace (concurrency env) 0 tr) by (try lia; intros; apply Hok; lia).
  by rewrite Nat.sub_0_r.
Qed.

(** ** redownloadBadBlock *)

Lemma saveLoop_events db bns sigs : ∀ blocks i tr x tr',
  saveLoop env db bns sigs i blocks tr = (x, tr') →
  ∃ evs, tr' = tr ++ evs ∧
         Forall (fun e => ∃ bucket bn v, e = EvPut db bucket bn v ∧ bn ∈ bns) evs.
Proof.
  induction blocks as [|block blocks IH]; intros i tr x tr'; simpl.
  - intros [= <- <-]. exists []. by rewrite app_nil_r.
  - destruct (sigs !! i) as [sig|]; [|intros [= <- <-]; exists []; by rewrite app_nil_r].
    destruct block as [b|]; [|apply IH].
    destruct (bns !! i) as [bn|] eqn:Hbn;
      [|intros [= <- <-]; exists []; by rewrite app_nil_r].
    assert (bn ∈ bns) as Hin by (by eapply list_elem_of_lookup_2).
    unfold bind, emit, ret.
    destruct (Put env db BlocksBucket bn).
    { intros [= <- <-]. eexists [_]. split; [done|]. repeat constructor. eauto. }
    destruct (Put env db BlockSignaturesBucket bn).
    { intros [= <- <-]. eexists [_; _]. rewrite <- app_assoc. split; [done|].
      repeat constructor; eauto. }
    intros H. apply IH in H as (evs & -> & Hevs).
    eexists (_ :: _ :: evs). rewrite <- !app_assoc. split; [done|].
    repeat constructor; eauto.
Qed.

(** What [redownloadBadBlock] may do to the outside. *)
Definition redownload_event (e : event) : Prop :=
  match e with
  | EvNumStreams | EvStreamFailed _ _ => True
  | EvGetRawBlocksByNumber bns => bns = [invalidBlockNumber env]
  | EvSetDownloadDetails bns w stid =>
      bns = [invalidBlockNumber env] ∧ w = 0%nat ∧ stid ∉ invalidBlockStreamID env
  | EvPut db _ bn _ => db = MainDB ∧ bn = invalidBlockNumber env
  | _ => False
  end.

(** X25.  Whatever [redownloadBadBlock] does, it only asks for the number
    of streams, requests the invalid block by number, marks streams as
    failed, registers the download for worker 0 with a stream that is not
    one of those that delivered the invalid block, and writes under the
    invalid block's number through the transaction of [Exec], not into
    the worker's block database. *)
Theorem redownloadBadBlock_events fuel : ∀ tr x tr',
  redownloadBadBlock env fuel tr = (x, tr') →
  ∃ evs, tr' = tr ++ evs ∧ Forall redownload_event evs.
Proof.
  induction fuel as [|fuel IH]; intros tr x tr'; cbn [redownloadBadBlock].
  - intros [= <- <-]. exists []. by rewrite app_nil_r.
  - unfold bind at 1, history. unfold bind at 1, emit at 1.
    assert (∀ pre x0 tr0', Forall redownload_event pre →
              redownloadBadBlock env fuel (tr ++ pre) = (x0, tr0') →
              ∃ evs, tr0' = tr ++ evs ∧ Forall redownload_event evs) as Hrec.
    { intros pre x0 tr0' Hpre H. apply IH in H as (evs & -> & Hevs).
      exists (pre ++ evs). rewrite app_assoc. split; [done|]. by apply Forall_app. }
    destruct (NumStreams env tr =? 0)%nat.
    { intros [= <- <-]. exists [EvNumStreams]. split; [done|]. repeat constructor. }
    unfold bind at 1, history. unfold bind at 1, emit at 1.
    set (r := GetRawBlocksByNumber env (tr ++ [EvNumStreams]) [invalidBlockNumber env]).
    destruct (rr_err r) as [err|].
    { destruct (negb (isCanceled err) && negb (isDeadlineExceeded err)).
      - unfold bind at 1, emit at 1. rewrite <- !app_assoc.
        intros H; eapply Hrec; [|exact H]. repeat constructor.
      - unfold bind at 1, ret at 1. rewrite <- !app_assoc.
        intros H; eapply Hrec; [|exact H]. repeat constructor. }
    case_bool_decide as Hbl.
    { unfold bind at 1, emit at 1. rewrite <- !app_assoc.
      intros H; eapply Hrec; [|exact H]. repeat constructor. }
    unfold bind at 1, emit at 1. rewrite <- !app_assoc.
    destruct (negb (0 <? numBlockDBs env)%nat).
    { intros [= <- <-]. eexists. split; [done|]. repeat constructor. done. }
    destruct (blockDB_BeginRw env 0).
    { intros H; eapply Hrec; [|exact H]. repeat constructor. done. }
    unfold bind at 1, saveBlocks.
    destruct (saveLoop env MainDB [invalidBlockNumber env] (rr_sigBytes r) 0
                (default [] (rr_blockBytes r)) _) as [y tr1] eqn:Hsave.
    apply saveLoop_events in Hsave as (evs & -> & Hevs).
    assert (Forall redownload_event
              ([EvNumStreams; EvGetRawBlocksByNumber [invalidBlockNumber env];
                EvSetDownloadDetails [invalidBlockNumber env] 0 (rr_stid r)] ++ evs)) as Hall.
    { apply Forall_app. split; [repeat constructor; done|].
      eapply Forall_impl; [exact Hevs|]. intros e (bucket & bn & v & -> & Hin).
      simpl. split; [done|]. by apply list_elem_of_singleton in Hin. }
    rewrite <- app_assoc.
    destruct y as [[e|]|p| |].
    + intros H; eapply Hrec; [|exact H]. exact Hall.
    + destruct (blockDB_Commit env 0).
      * intros H; eapply Hrec; [|exact H]. exact Hall.
      * intros [= <- <-]. eexists. split; [done|]. exact Hall.
    + intros [= <- <-]. eexists. split; [done|]. exact Hall.
    + intros [= <- <-]. eexists. split; [done|]. exact Hall.
    + intros [= <- <-]. eexists. split; [done|]. exact Hall.
Qed.


(** X26.  [redownloadBadBlock] returns an error only when it finds that
    the protocol has no stream, and returns nil only after it has
    registered a download from a stream other than those that delivered
    the invalid block. *)
Theorem redownloadBadBlock_result fuel : ∀ tr r tr',
  redownloadBadBlock env fuel tr = (Val r, tr') →
  (r = Some (ErrMsg "not enough streams to re-download bad block") ∧
   ∃ evs, tr' = tr ++ evs ++ [EvNumStreams] ∧ NumStreams env (tr ++ evs) = 0%nat) ∨
  (r = None ∧
   ∃ evs stid, tr' = tr ++ evs ∧
               EvSetDownloadDetails [invalidBlockNumber env] 0 stid ∈ evs ∧
               stid ∉ invalidBlockStreamID env).
Proof.
  induction fuel as [|fuel IH]; intros tr r tr'; cbn [redownloadBadBlock]; [discriminate|].
  assert (∀ pre tr0',
            redownloadBadBlock env fuel (tr ++ pre) = (Val r, tr0') →
            (r = Some (ErrMsg "not enough streams to re-download bad block") ∧
             ∃ evs, tr0' = tr ++ evs ++ [EvNumStreams] ∧ NumStreams env (tr ++ evs) = 0%nat) ∨
            (r = None ∧
             ∃ evs stid, tr0' = tr ++ evs ∧
                         EvSetDownloadDetails [invalidBlockNumber env] 0 stid ∈ evs ∧
                         stid ∉ invalidBlockStreamID env)) as Hrec.
  { intros pre tr0' H.
    apply IH in H as [(-> & evs & -> & Hn)|(-> & evs & stid & -> & Hin & Hnot)].
    - left. split; [done|]. exists (pre ++ evs). rewrite <- !app_assoc. split; [done|].
      by rewrite app_assoc.
    - right. split; [done|]. exists (pre ++ evs), stid. rewrite <- app_assoc.
      split; [done|]. split; [|done]. apply elem_of_app. by right. }
  unfold bind at 1, history. unfold bind at 1, emit at 1.
  destruct (Nat.eqb_spec (NumStreams env tr) 0).
  { intros [= <- <-]. left. split; [done|]. exists []. by rewrite app_nil_r. }
  unfold bind at 1, history. unfold bind at 1, emit at 1.
  set (r0 := GetRawBlocksByNumber env (tr ++ [EvNumStreams]) [invalidBlockNumber env]).
  destruct (rr_err r0) as [err|].
  { destruct (negb (isCanceled err) && negb (isDeadlineExceeded err));
      unfold bind at 1; [unfold emit at 1 | unfold ret at 1]; rewrite <- !app_assoc;
      apply Hrec. }
  case_bool_decide as Hbl.
  { unfold bind at 1, emit at 1. rewrite <- !app_assoc. apply Hrec. }
  unfold bind at 1, emit at 1. rewrite <- !app_assoc.
  destruct (negb (0 <? numBlockDBs env)%nat); [discriminate|].
  destruct (blockDB_BeginRw env 0); [apply Hrec|].
  unfold bind at 1, saveBlocks.
  destruct (saveLoop env MainDB [invalidBlockNumber env] (rr_sigBytes r0) 0
              (default [] (rr_blockBytes r0)) _) as [y tr1] eqn:Hsave.
  apply saveLoop_events in Hsave as (evs & -> & _). rewrite <- app_assoc.
  destruct y as [[e|]|p| |]; try discriminate; [apply Hrec|].
  destruct (blockDB_Commit env 0); [apply Hrec|].
  intros [= <- <-]. right. split; [done|]. eexists _, (rr_stid r0). split; [done|].
  split; [|done]. simpl. set_solver.
Qed.

(** X27.  [redownloadBadBlock] has no way out while there are streams and
    every download fails, a cancelled context included: whatever the
    number of rounds allowed, it is still retrying. *)
Theorem redownloadBadBlock_keeps_retrying fuel : ∀ tr,
  (∀ tr, NumStreams env tr ≠ 0%nat) →
  (∀ tr bns, rr_err (GetRawBlocksByNumber env tr bns) ≠ None) →
  (redownloadBadBlock env fuel tr).1 = OutOfFuel.
Proof.
  induction fuel as [|fuel IH]; intros tr Hn Herr; cbn [redownloadBadBlock]; [done|].
  unfold bind at 1, history. unfold bind at 1, emit at 1.
  destruct (Nat.eqb_spec (NumStreams env tr) 0) as [E|_]; [by apply Hn in E|].
  unfold bind at 1, history. unfold bind at 1, emit at 1.
  destruct (rr_err _) as [err|] eqn:E; [|by apply Herr in E].
  destruct (negb (isCanceled err) && negb (isDeadlineExceeded err));
    unfold bind at 1; [unfold emit at 1 | unfold ret at 1]; by apply IH.
Qed.

(** ** Exec after the download loop *)
(** What is left of [Exec] after the download loop. *)
Definition after_loop (txNil : bool) : M (option error) :=
  _ <- saveProgress env (targetHeight env) false ;;
  if txNil then ret (Commit env) else ret None.

Lemma after_loop_run txNil tr0 :
  after_loop txNil tr0
    = (Val (if txNil then Commit env else None), tr0 ++ [EvUpdateProgress (targetHeight env)]).
Proof.
  unfold after_loop, saveProgress, bind, emit, ret.
  destruct (Update env (targetHeight env)); destruct txNil; reflexivity.
Qed.

(** [Exec] up to the download loop. *)
Lemma Exec_to_loop fuel txNil tr tr1 start :
  reaches_download env txNil tr tr1 start →
  Exec env fuel false txNil tr
    = (_ <- runDownloadLoop env fuel ;; after_loop txNil)
        (tr1 ++ [EvNewDownloadManager start (targetHeight env)]).
Proof.
  intros (Hinit & Hepoch & Htx & Hhead & p & Hprog & Hclean & Hstart).
  unfold Exec. rewrite Hinit, Hepoch. cbn [negb].
  replace (if txNil then BeginRw env else None) with (@None error)
    by (destruct txNil; [by rewrite Htx|done]).
  destruct (Z.leb_spec (targetBN env) (currentBlockNumber env)); [lia|].
  rewrite Hprog.
  destruct (p <=? currentBlockNumber env)%Z.
  - destruct Hclean as [Hclean ->]. unfold bind at 1. unfold bind at 1.
    rewrite Hclean. unfold ret at 1.
    destruct (Z.leb_spec (targetHeight env) (currentBlockNumber env)); [lia|].
    unfold bind at 1, emit. reflexivity.
  - destruct Hclean as [-> ->]. unfold bind at 1, ret at 1.
    destruct (Z.leb_spec (targetHeight env) p); [lia|].
    unfold bind at 1, emit. reflexivity.
Qed.

(** X28.  Once [Exec] has reached the download loop and the loop has
    returned, for whatever reason, [Exec] records the target height as the
    progress of the stage and returns nil, or what the commit of its own
    transaction returns; a failure to record the progress is not
    returned. *)
Theorem Exec_records_target_after_loop fuel txNil tr tr1 start tr2 :
  reaches_download env txNil tr tr1 start →
  runDownloadLoop env fuel (tr1 ++ [EvNewDownloadManager start (targetHeight env)])
    = (Val tt, tr2) →
  Exec env fuel false txNil tr
    = (Val (if txNil then Commit env else None),
       tr2 ++ [EvUpdateProgress (targetHeight env)]).
Proof.
  intros Hreach Hloop. rewrite (Exec_to_loop fuel txNil tr tr1 start Hreach).
  unfold bind at 1. rewrite Hloop. apply after_loop_run.
Qed.

(** X29.  When the context is done as the download loop starts, [Exec]
    asks for no batch and makes no transport call, and still records the
    target height as the progress of the stage. *)
Theorem Exec_cancelled_before_first_batch fuel txNil tr tr1 start :
  reaches_download env txNil tr tr1 start →
  ctxDone env (tr1 ++ [EvNewDownloadManager start (targetHeight env)]) = true →
  Exec env (S fuel) false txNil tr
    = (Val (if txNil then Commit env else None),
       tr1 ++ [EvNewDownloadManager start (targetHeight env);
               EvUpdateProgress (targetHeight env)]).
Proof.
  intros Hreach Hctx. rewrite (Exec_to_loop (S fuel) txNil tr tr1 start Hreach).
  cbn [runDownloadLoop]. unfold bind at 1. unfold bind at 1, history at 1.
  rewrite Hctx. unfold ret at 1. rewrite after_loop_run. by rewrite <- app_assoc.
Qed.

End BodiesMoreFacts.

(** ** Concrete runs *)

Definition healthy : Env := node 10 hashOf putOk updateOk goodBlocks.

(** Two blocks, one signature. *)
Definition oneSignature : RawResponse :=
  mkRawResponse (Some [Some [248; 1]%Z; Some [248; 2]%Z]) [Some [7]%Z] "sA" None.

(** The node of above with a context that is done: every request by
    number fails with the cancellation. *)
Definition cancelled_node : Env :=
  mkEnv true false 12 10 12
        105 ["sBad"]
        1 1 1
        None (inr 10%Z) hashOf updateOk None putOk
        (fun _ => None) (fun _ _ => None) (fun _ => None)
        (fun _ _ => goodBlocks)
        (fun _ _ => mkRawResponse None [] "sGood" (Some ContextCanceled))
        (fun _ => 1)
        (fun tr => if (batches_asked tr =? 0)%nat then [11; 12]%Z else [])
        (fun _ => true)
        (fun _ => 0).

Lemma healthy_reaches_download : reaches_download healthy false [] cleaned 10%Z.
Proof.
  unfold reaches_download. repeat split; try reflexivity; try discriminate.
  exists 10%Z. repeat split; reflexivity.
Qed.

Lemma cancelled_reaches_download : reaches_download cancelled_node false [] cleaned 10%Z.
Proof.
  unfold reaches_download. repeat split; try reflexivity; try discriminate.
  exists 10%Z. repeat split; reflexivity.
Qed.

Lemma fetchBlockHashes_11_12 :
  [11; 12]%Z ≠ [] ∧ length hashes_11_12 = length [11; 12]%Z ∧
  Forall2 (fun bn h => ∃ v, GetOne healthy bn = inr v ∧ h = toHash v) [11; 12]%Z hashes_11_12 ∧
  Forall (fun h => length h = 32%nat) hashes_11_12.
Proof.
  apply (fetchBlockHashes_one_hash_per_block healthy [11; 12]%Z hashes_11_12).
  vm_compute. reflexivity.
Defined.

Lemma saveBlocks_11_12 :
  saveBlocks healthy None [11; 12]%Z [Some [248; 1]%Z; None] [Some [7]%Z; Some [8]%Z] 0 []
    = (Val None,
       [EvPut (BlockDB 0) BlocksBucket 11 (Some [248; 1]%Z);
        EvPut (BlockDB 0) BlockSignaturesBucket 11 (Some [7]%Z)]).
Proof.
  apply (saveBlocks_writes_block_and_signature healthy 0 [11; 12]%Z
           [Some [248; 1]%Z; None] [Some [7]%Z; Some [8]%Z] []).
  - vm_compute. lia.
  - reflexivity.
  - intros bucket bn. reflexivity.
  - simpl. lia.
  - simpl. lia.
Defined.

Lemma worker_panics_on_one_signature :
  ∃ tr', runBlockWorker (node 10 hashOf putOk updateOk oneSignature) [11; 12]%Z hashes_11_12 0 []
           = (Panic (IndexOutOfRange 1), tr').
Proof.
  apply (worker_panics_on_short_signatures (node 10 hashOf putOk updateOk oneSignature)
           [11; 12]%Z hashes_11_12 0 [] [Some [248; 1]%Z; Some [248; 2]%Z]).
  - discriminate.
  - vm_compute. reflexivity.
  - reflexivity.
  - simpl. lia.
  - vm_compute. lia.
  - reflexivity.
  - intros bucket bn. reflexivity.
Defined.

Lemma cleanAllBlockDBs_healthy : cleanAllBlockDBs healthy [] = (Val None, cleaned).
Proof.
  apply (cleanAllBlockDBs_trace healthy []).
  intros j _ _. repeat split.
Defined.

Lemma downloadBlocks_11_12 :
  let G := fun (_ : list event) (_ : list Z) => ([Some 11%Z; None], "sA", @None error) in
  (downloadBlocks G [11; 12]%Z []).2 = [] ++ [EvGetBlocksByNumber [11; 12]%Z] ∧
  G [] [11; 12]%Z = ([Some 11%Z; None], "sA", None) ∧
  length [Some 11%Z; @None Z] = length [11; 12]%Z ∧
  ∀ k n, [Some 11%Z; None] !! k = Some (Some n) → [11; 12]%Z !! k = Some n.
Proof.
  intros G.
  apply (downloadBlocks_only_validated G [11; 12]%Z [] [Some 11%Z; None] "sA").
  vm_compute. reflexivity.
Defined.

Lemma redownloadBadBlock_events_healthy :
  ∃ evs, (redownloadBadBlock healthy 3 []).2 = [] ++ evs ∧
         Forall (redownload_event healthy) evs.
Proof.
  apply (redownloadBadBlock_events healthy 3 [] (redownloadBadBlock healthy 3 []).1).
  apply surjective_pairing.
Defined.

Lemma redownloadBadBlock_result_healthy :
  (@None error = Some (ErrMsg "not enough streams to re-download bad block") ∧
   ∃ evs, (redownloadBadBlock healthy 3 []).2 = [] ++ evs ++ [EvNumStreams] ∧
          NumStreams healthy ([] ++ evs) = 0%nat) ∨
  (@None error = None ∧
   ∃ evs stid, (redownloadBadBlock healthy 3 []).2 = [] ++ evs ∧
               EvSetDownloadDetails [invalidBlockNumber healthy] 0 stid ∈ evs ∧
               stid ∉ invalidBlockStreamID healthy).
Proof.
  apply (redownloadBadBlock_result healthy 3 [] None (redownloadBadBlock healthy 3 []).2).
  vm_compute. reflexivity.
Defined.

Lemma redownloadBadBlock_spins_when_cancelled :
  (redownloadBadBlock cancelled_node 1000 []).1 = OutOfFuel.
Proof.
  apply (redownloadBadBlock_keeps_retrying cancelled_node 1000 []).
  - intros tr. simpl. discriminate.
  - intros tr bns. simpl. discriminate.
Defined.

Lemma Exec_records_target_healthy :
  Exec healthy 5 false false []
    = (Val None,
       (runDownloadLoop healthy 5 (cleaned ++ [EvNewDownloadManager 10 12])).2
         ++ [EvUpdateProgress 12]).
Proof.
  apply (Exec_records_target_after_loop healthy 5 false [] cleaned 10%Z
           (runDownloadLoop healthy 5 (cleaned ++ [EvNewDownloadManager 10 12])).2
           healthy_reaches_download).
  vm_compute. reflexivity.
Defined.

Lemma Exec_cancelled_records_target :
  Exec cancelled_node 5 false false []
    = (Val None, cleaned ++ [EvNewDownloadManager 10 12; EvUpdateProgress 12]).
Proof.
  apply (Exec_cancelled_before_first_batch cancelled_node 4 false [] cleaned 10%Z
           cancelled_reaches_download).
  reflexivity.
Defined.

End BodiesLaws.

(* ===================================================================== *)
(** * More of stage_finish.go: clearBucket                               *)
(* ===================================================================== *)

Module FinishLaws.
Import Finish FinishProps.

Section ClearBucketFacts.
Variable GetBucketName : string -> bool -> string.
Variable BlockHashesBucket : string.
Variable Cache : Type.
Variable BeginRw : option string.
Variable Commit : option string.
Variable ClearBucket_err : string -> option string.

Abbreviation clearBucket' :=
  (clearBucket GetBucketName BlockHashesBucket Cache BeginRw Commit ClearBucket_err).

(** X30.  Without a transaction of the caller [clearBucket] is all or
    nothing: when it returns an error, whether from opening its
    transaction, from clearing the bucket or from the commit, the store is
    as it was (its transaction is rolled back); when it returns nil, the
    block-hashes bucket is empty in the store and every other bucket is as
    it was.  With a transaction of the caller it returns what
    [ClearBucket] returns, opens and commits nothing, and never touches
    the committed store; when it returns nil the bucket is empty in the
    transaction and the other buckets are as they were.  The cache is
    never touched. *)
Theorem clearBucket_rolls_back_own_tx isBeacon (st : state Cache) :
  let name := GetBucketName BlockHashesBucket isBeacon in
  let e := (clearBucket' isBeacon st).1 in
  let st' := (clearBucket' isBeacon st).2 in
  cache st' = cache st ∧
  (tx st = None →
     e = match BeginRw with
         | Some b => Some b
         | None => match ClearBucket_err name with
                   | Some c => Some c
                   | None => Commit
                   end
         end ∧
     tx st' = None ∧
     (e ≠ None → db st' = db st) ∧
     (e = None →
        contents (db st') name = ∅ ∧
        ∀ other : string, other ≠ name → contents (db st') other = contents (db st) other)) ∧
  (is_Some (tx st) →
     e = ClearBucket_err name ∧
     db st' = db st ∧ is_Some (tx st') ∧
     (e = None →
        contents (view st') name = ∅ ∧
        ∀ other : string, other ≠ name → contents (view st') other = contents (view st) other)).
Proof.
  intros name e st'. unfold e, st', clearBucket, ClearBucket. fold name.
  destruct (tx st) as [t|] eqn:Htx.
  - split.
    { destruct (ClearBucket_err name); reflexivity. }
    split; [discriminate|]. intros _.
    destruct (ClearBucket_err name) as [c|]; simpl.
    + split; [done|]. split; [done|]. split; [by eexists | discriminate].
    + split; [done|]. split; [done|]. split; [by eexists|]. intros _.
      unfold view, contents. simpl. rewrite lookup_insert_eq. split; [done|].
      intros other Hne. rewrite lookup_insert_ne by done. by rewrite Htx.
  - split.
    { destruct BeginRw; [done|]. destruct (ClearBucket_err name); [done|].
      destruct Commit; done. }
    split; [|by intros [? ?]]. intros _.
    destruct BeginRw as [b|]; simpl.
    { split; [done|]. split; [done|]. split; [done | discriminate]. }
    destruct (ClearBucket_err name) as [c|]; simpl.
    { split; [done|]. split; [done|]. split; [done | discriminate]. }
    destruct Commit as [c|]; simpl.
    { split; [done|]. split; [done|]. split; [done | discriminate]. }
    split; [done|]. split; [done|]. split; [done|]. intros _.
    unfold contents. rewrite lookup_insert_eq. split; [done|].
    intros other Hne. by rewrite lookup_insert_ne.
Qed.


End ClearBucketFacts.

End FinishLaws.
